(** * Code_Agent: the document-understanding pipeline

    A shallow embedding of the parsing, layout and OCR code of the desktop
    application, and the properties proved of it.

    The program:
    - [PyStr], [Re]: the methods of [str] and the functions of [re] that
      the program calls; [Re] is a backtracking matcher with the priorities
      of Python's (leftmost match, alternatives in order, greedy and lazy
      quantifiers, groups);
    - [CodeParser]: [desktop_app/parsing/code_parser.py];
    - [ProblemParser]: [desktop_app/parsing/problem_parser.py];
    - [Py], [Cv], [Np]: exceptions, binary64 and binary32 numbers, the
      calls into OpenCV, NumPy and pytesseract;
    - [ImageProcessor]: [desktop_app/preprocessing/image_processor.py];
    - [OCREngine]: [desktop_app/ocr/ocr_engine.py];
    - [OCRText]: the functions of [ocr_engine.py] on recognised text;
    - [ImagePipeline]: [preprocess_for_ocr] and the enhancement functions
      of [image_processor.py].

    The properties: [Notions] and [MoreNotions] hold what they are stated
    with, [ReFacts], [ParserFacts], [ImageFacts], [OCRFacts] and
    [ParameterFacts] hold the proofs of the specified behaviour; [TextFacts] and [CaptureFacts] hold
    further facts about texts and about the matcher (a match consumes a
    text of its pattern, a group holds a text of its body), and
    [ParserExtras], [ParserNames], [ProblemExtras], [ExampleFields],
    [ImageExtras], [OCRTextExtras] and [OCRExtras] the further properties
    of the program.

    Python [str] values are modelled as [string]: every character is a code
    point in the range 0..255 (the Latin-1 block of Unicode).  The character
    predicates below agree with Python 3 on that range.  Python [int]s are
    [Z] (or [nat] for lengths and indices). *)

From Stdlib Require Import String Ascii List ZArith NArith Bool Arith Lia.
From Stdlib Require Import Sorting.Sorted.
From Stdlib Require Import PrimFloat.
From Stdlib Require FloatOps SpecFloat Uint63.
Import ListNotations.

Local Open Scope list_scope.
Local Open Scope string_scope.

(* ================================================================== *)
(** * Python [str] primitives *)
(* ================================================================== *)

Module PyStr.

(** Code point of a character. *)
Definition ord (c : ascii) : N := N_of_ascii c.

Definition in_range (lo hi : N) (c : ascii) : bool :=
  (N.leb lo (ord c) && N.leb (ord c) hi)%bool.

(** [str.isspace] on one character, which is also the class [\s] of
    [re] for [str] patterns: TAB..CR, FS..US and space, NEL, NBSP. *)
Definition isspace (c : ascii) : bool :=
  in_range 9 13 c || in_range 28 32 c || N.eqb (ord c) 133
  || N.eqb (ord c) 160.

(** The class [\d]: decimal digits. *)
Definition isdecimal (c : ascii) : bool := in_range 48 57 c.

(** The class [\w]: alphanumeric characters and the underscore. *)
Definition isword (c : ascii) : bool :=
  in_range 48 57 c || in_range 65 90 c || N.eqb (ord c) 95
  || in_range 97 122 c || N.eqb (ord c) 170 || in_range 178 179 c
  || N.eqb (ord c) 181 || in_range 185 186 c || in_range 188 190 c
  || in_range 192 214 c || in_range 216 246 c || in_range 248 255 c.

(** [str.isupper] on one character. *)
Definition isupper (c : ascii) : bool :=
  in_range 65 90 c || in_range 192 214 c || in_range 216 222 c.

(** [str.lower] on one character; [ß] and [ÿ] and the micro sign keep
    their code point, the multiplication sign is no letter. *)
Definition lower_char (c : ascii) : ascii :=
  if isupper c then ascii_of_N (ord c + 32) else c.

Fixpoint lower (s : string) : string :=
  match s with
  | EmptyString => EmptyString
  | String c s' => String (lower_char c) (lower s')
  end.

Definition newline : ascii := ascii_of_nat 10.
Definition dquote : ascii := ascii_of_nat 34.

(** The truth value of a string: [bool(s)], true when non-empty. *)
Definition truthy (s : string) : bool :=
  match s with EmptyString => false | String _ _ => true end.

Fixpoint rev_onto (s acc : string) : string :=
  match s with
  | EmptyString => acc
  | String c s' => rev_onto s' (String c acc)
  end.

Definition rev (s : string) : string := rev_onto s EmptyString.

Fixpoint lstrip (s : string) : string :=
  match s with
  | EmptyString => EmptyString
  | String c s' => if isspace c then lstrip s' else s
  end.

Definition rstrip (s : string) : string := rev (lstrip (rev s)).

(** [s.strip()] *)
Definition strip (s : string) : string := rstrip (lstrip s).

(** [s.startswith(p)] *)
Fixpoint startswith (p s : string) : bool :=
  match p, s with
  | EmptyString, _ => true
  | String a p', String b s' => Ascii.eqb a b && startswith p' s'
  | String _ _, EmptyString => false
  end.

(** [p in s] *)
Fixpoint contains (p s : string) : bool :=
  startswith p s ||
  match s with
  | EmptyString => false
  | String _ s' => contains p s'
  end.

Fixpoint take (n : nat) (s : string) : string :=
  match n, s with
  | O, _ => EmptyString
  | S n', String c s' => String c (take n' s')
  | S _, EmptyString => EmptyString
  end.

(** [s.replace(old, new)] for a non-empty [old]: the occurrences are
    taken from the left and do not overlap.  [skip] counts the characters
    of an occurrence that are still to be passed over. *)
Fixpoint replace_from (old new s : string) (skip : nat) : string :=
  match s with
  | EmptyString => EmptyString
  | String c s' =>
      match skip with
      | S n => replace_from old new s' n
      | O =>
          if startswith old s
          then new ++ replace_from old new s' (String.length old - 1)
          else String c (replace_from old new s' 0)
      end
  end.

Definition replace (old new s : string) : string :=
  replace_from old new s 0.

(** [s.split(sep)] for a one-character separator. *)
Fixpoint split_on (sep : ascii) (s cur : string) : list string :=
  match s with
  | EmptyString => [rev cur]
  | String c s' =>
      if Ascii.eqb c sep then rev cur :: split_on sep s' EmptyString
      else split_on sep s' (String c cur)
  end.

Definition split (sep : ascii) (s : string) : list string :=
  split_on sep s EmptyString.

(** [s.split(sep, 1)]: at most one cut, at the first separator. *)
Fixpoint split1_on (sep : ascii) (s cur : string) : list string :=
  match s with
  | EmptyString => [rev cur]
  | String c s' =>
      if Ascii.eqb c sep then [rev cur; s']
      else split1_on sep s' (String c cur)
  end.

Definition split1 (sep : ascii) (s : string) : list string :=
  split1_on sep s EmptyString.

End PyStr.

(* ================================================================== *)
(** * The [re] module: a backtracking matcher *)
(* ================================================================== *)

Module Re.

Import PyStr.

(** Members of a bracketed character class. *)
Inductive citem : Type :=
| CChar (c : ascii)
| CRange (lo hi : ascii)
| CWord                      (* \w *)
| CSpace                     (* \s *)
| CDigit.                    (* \d *)

(** Patterns.  [Rep lz lo hi r] is a quantifier: at least [lo] and at most
    [hi] copies of [r] (no upper bound for [None]); [lz] is true for the
    lazy forms [*?], [+?], [??]. *)
Inductive regex : Type :=
| Eps
| Chr (c : ascii)
| Any                                   (* . *)
| Cls (neg : bool) (items : list citem) (* [...] and [^...] *)
| Cat (r1 r2 : regex)
| Alt (r1 r2 : regex)
| Rep (lz : bool) (lo : nat) (hi : option nat) (r : regex)
| Grp (n : nat) (r : regex)             (* capturing group number n *)
| Bol                                   (* ^ *)
| Eol                                   (* $ *)
| Ahead (r : regex).                    (* (?=...) *)

Record flags : Type := Flags { MULTILINE : bool; DOTALL : bool }.

Definition no_flags : flags := Flags false false.

Definition citem_mem (c : ascii) (i : citem) : bool :=
  match i with
  | CChar d => Ascii.eqb c d
  | CRange lo hi => in_range (ord lo) (ord hi) c
  | CWord => isword c
  | CSpace => isspace c
  | CDigit => isdecimal c
  end.

Definition cls_mem (neg : bool) (items : list citem) (c : ascii) : bool :=
  xorb neg (existsb (citem_mem c) items).

(** A position of the matcher in the subject: the character just before
    it, the text still ahead, and the groups captured so far (the latest
    capture of a group first). *)
Record mstate : Type :=
  MState { prev : option ascii; rest : string; caps : list (nat * string) }.

Definition cont : Type := mstate -> option mstate.

Definition eat (p : ascii -> bool) (st : mstate) (k : cont) : option mstate :=
  match rest st with
  | String c s' => if p c then k (MState (Some c) s' (caps st)) else None
  | EmptyString => None
  end.

(** The text consumed between two positions of one subject. *)
Definition consumed (st st' : mstate) : string :=
  take (String.length (rest st) - String.length (rest st')) (rest st).

Definition or_else (a : option mstate) (b : unit -> option mstate)
  : option mstate :=
  match a with
  | Some x => Some x
  | None => b tt
  end.

(** The quantifier loop.  A greedy loop tries one more copy first and the
    continuation after; a lazy loop the other way round.  A copy that
    consumes no character ends the loop (every quantified sub-pattern of
    this program consumes at least one character), so the loop runs at
    most once per character left and [fuel] is never exhausted when it
    starts above the length of the text ahead. *)
Fixpoint rep_loop (body : mstate -> cont -> option mstate) (lz : bool)
  (fuel lo : nat) (hi : option nat) (st : mstate) (k : cont)
  : option mstate :=
  match fuel with
  | O => match lo with O => k st | S _ => None end
  | S fuel' =>
      let again (_ : unit) :=
        match hi with
        | Some O => None
        | _ =>
            body st (fun st' =>
              if Nat.ltb (String.length (rest st')) (String.length (rest st))
              then rep_loop body lz fuel' (Nat.pred lo)
                     (option_map Nat.pred hi) st' k
              else None)
        end in
      match lo with
      | S _ => again tt
      | O =>
          if lz then or_else (k st) again
          else or_else (again tt) (fun _ => k st)
      end
  end.

Section Run.

Variable fl : flags.

Definition at_bol (st : mstate) : bool :=
  match prev st with
  | None => true
  | Some c => MULTILINE fl && Ascii.eqb c newline
  end.

Definition at_eol (st : mstate) : bool :=
  match rest st with
  | EmptyString => true
  | String c s' =>
      Ascii.eqb c newline
      && (MULTILINE fl || match s' with EmptyString => true | _ => false end)
  end.

Fixpoint run (r : regex) : mstate -> cont -> option mstate :=
  match r with
  | Eps => fun st k => k st
  | Chr c => eat (Ascii.eqb c)
  | Any => eat (fun c => DOTALL fl || negb (Ascii.eqb c newline))
  | Cls neg items => eat (cls_mem neg items)
  | Cat r1 r2 => fun st k => run r1 st (fun st1 => run r2 st1 k)
  | Alt r1 r2 => fun st k => or_else (run r1 st k) (fun _ => run r2 st k)
  | Rep lz lo hi r' => fun st k =>
      rep_loop (run r') lz (S (String.length (rest st))) lo hi st k
  | Grp n r' => fun st k =>
      run r' st (fun st' =>
        k (MState (prev st') (rest st') ((n, consumed st st') :: caps st')))
  | Bol => fun st k => if at_bol st then k st else None
  | Eol => fun st k => if at_eol st then k st else None
  | Ahead r' => fun st k =>
      match run r' st Some with
      | Some st' => k (MState (prev st) (rest st) (caps st'))
      | None => None
      end
  end.

(** A match object: where the match starts, the matched text (group 0),
    the captured groups, and the text after the match. *)
Record match_obj : Type :=
  Match { m_start : nat; m_text : string;
          m_caps : list (nat * string); m_after : string }.

Definition match_at (r : regex) (p : option ascii) (s : string) (pos : nat)
  : option match_obj :=
  match run r (MState p s []) Some with
  | Some st' =>
      Some (Match pos (consumed (MState p s []) st') (caps st') (rest st'))
  | None => None
  end.

(** [re.match]: a match at the start of the text only. *)
Definition re_match (r : regex) (s : string) : option match_obj :=
  match_at r None s 0.

Fixpoint search_from (r : regex) (p : option ascii) (s : string) (pos : nat)
  : option match_obj :=
  match match_at r p s pos with
  | Some m => Some m
  | None =>
      match s with
      | EmptyString => None
      | String c s' => search_from r (Some c) s' (S pos)
      end
  end.

(** [re.search]: the leftmost match. *)
Definition search (r : regex) (s : string) : option match_obj :=
  search_from r None s 0.

(** [re.sub] with a replacement computed from each match; [count] bounds
    the number of replacements ([None]: all of them).  Matches are taken
    from the left and do not overlap; [skip] counts the characters of the
    last match still to be passed over. *)
Fixpoint sub_from (r : regex) (repl : match_obj -> string)
  (count : option nat) (p : option ascii) (s : string) (pos skip : nat)
  : string :=
  match skip with
  | S n =>
      match s with
      | EmptyString => EmptyString
      | String c s' => sub_from r repl count (Some c) s' (S pos) n
      end
  | O =>
      let found :=
        match count with
        | Some O => None
        | _ => match_at r p s pos
        end in
      match found with
      | Some m =>
          let len := String.length (m_text m) in
          let count' := option_map Nat.pred count in
          match s with
          | EmptyString => repl m
          | String c s' =>
              match len with
              | O => repl m ++ String c (sub_from r repl count' (Some c) s' (S pos) 0)
              | S n => repl m ++ sub_from r repl count' (Some c) s' (S pos) n
              end
          end
      | None =>
          match s with
          | EmptyString => EmptyString
          | String c s' => String c (sub_from r repl count (Some c) s' (S pos) 0)
          end
      end
  end.

Definition sub (r : regex) (repl : match_obj -> string) (s : string)
  : string :=
  sub_from r repl None None s 0 0.

Definition sub_count (r : regex) (repl : match_obj -> string) (s : string)
  (count : nat) : string :=
  sub_from r repl (Some count) None s 0 0.

(** [re.finditer]: all the matches from the left, not overlapping. *)
Fixpoint finditer_from (r : regex) (p : option ascii) (s : string)
  (pos skip : nat) : list match_obj :=
  match skip with
  | S n =>
      match s with
      | EmptyString => []
      | String c s' => finditer_from r (Some c) s' (S pos) n
      end
  | O =>
      match match_at r p s pos with
      | Some m =>
          m :: match s with
               | EmptyString => []
               | String c s' =>
                   finditer_from r (Some c) s' (S pos)
                     (Nat.pred (String.length (m_text m)))
               end
      | None =>
          match s with
          | EmptyString => []
          | String c s' => finditer_from r (Some c) s' (S pos) 0
          end
      end
  end.

Definition finditer (r : regex) (s : string) : list match_obj :=
  finditer_from r None s 0 0.

(** [re.split] for a pattern without groups: the pieces of the text
    between the matches.  The pattern split on by this program matches no
    empty text; a match of length zero cuts nothing here. *)
Fixpoint split_from (r : regex) (p : option ascii) (s : string)
  (pos skip : nat) (cur : string) : list string :=
  match skip with
  | S n =>
      match s with
      | EmptyString => [rev cur]
      | String c s' => split_from r (Some c) s' (S pos) n cur
      end
  | O =>
      match s with
      | EmptyString => [rev cur]
      | String c s' =>
          match option_map (fun m => String.length (m_text m))
                  (match_at r p s pos) with
          | Some (S n) => rev cur :: split_from r (Some c) s' (S pos) n ""
          | _ => split_from r (Some c) s' (S pos) 0 (String c cur)
          end
      end
  end.

Definition re_split (r : regex) (s : string) : list string :=
  split_from r None s 0 0 "".

End Run.

(** [m.group(n)] for [n > 0]: [None] when the group took no part in the
    match. *)
Fixpoint lookup (n : nat) (l : list (nat * string)) : option string :=
  match l with
  | [] => None
  | (i, s) :: l' => if Nat.eqb i n then Some s else lookup n l'
  end.

Definition group (m : match_obj) (n : nat) : option string :=
  lookup n (m_caps m).

(** [m.group(n)] where the program has checked that the group is set, or
    uses it in a replacement template. *)
Definition group_str (m : match_obj) (n : nat) : string :=
  match group m n with Some s => s | None => EmptyString end.

(** The truth value of [m.group(n)]: set and non-empty. *)
Definition group_truthy (m : match_obj) (n : nat) : bool :=
  match group m n with Some s => truthy s | None => false end.

(** ** Writing patterns *)

Fixpoint lit (s : string) : regex :=
  match s with
  | EmptyString => Eps
  | String c EmptyString => Chr c
  | String c s' => Cat (Chr c) (lit s')
  end.

Fixpoint seq (rs : list regex) : regex :=
  match rs with
  | [] => Eps
  | [r] => r
  | r :: rs' => Cat r (seq rs')
  end.

Fixpoint alt (rs : list regex) : regex :=
  match rs with
  | [] => Eps
  | [r] => r
  | r :: rs' => Alt r (alt rs')
  end.

Definition star (r : regex) : regex := Rep false 0 None r.
Definition plus (r : regex) : regex := Rep false 1 None r.
Definition opt (r : regex) : regex := Rep false 0 (Some 1) r.
Definition star_lazy (r : regex) : regex := Rep true 0 None r.
Definition at_least (n : nat) (r : regex) : regex := Rep false n None r.

Definition w : regex := Cls false [CWord].      (* \w *)
Definition s : regex := Cls false [CSpace].     (* \s *)
Definition d : regex := Cls false [CDigit].     (* \d *)
Definition one_of (cs : string) : list citem :=
  map CChar (list_ascii_of_string cs).

End Re.

(* ================================================================== *)
(** * [desktop_app/parsing/code_parser.py] *)
(* ================================================================== *)

Module CodeParser.

Import PyStr Re.

(** One entry of the [parameters] list: the dictionary with the keys
    ['name'], ['type'] and ['default'] ([None] for Python's [None]). *)
Record parameter : Type :=
  Param { param_name : string; param_type : string;
              default_value : option string }.

(** The dictionary built by the per-language parsers. *)
Record result : Type :=
  Result { function_signature : string; function_name : string;
           parameters : list parameter; return_type : string;
           class_context : string }.

(** The dictionary returned by [parse]: [result] with the key
    ['language'] added. *)
Record code_info : Type :=
  CodeInfo { language : string; info : result }.

Definition empty_result : result := Result "" "" [] "" "".

(** ** [_clean_code_text] *)

(** Pattern "(\w)([+\-*/=<>])(\w)" *)
Definition operator_re : regex :=
  seq [Grp 1 w; Grp 2 (Cls false (one_of "+-*/=<>")); Grp 3 w].

(** Pattern "^\s*\d+\s+" *)
Definition line_number_re : regex := seq [Bol; star s; plus d; plus s].

(** The first, third and fourth replacement of the source look for a
    character outside the range of this model (U+201E, U+2013, U+2014)
    and change no text of it; the second replaces the ASCII double quote
    by itself. *)
Definition _clean_code_text (code_text : string) : string :=
  let code_text := replace (String dquote "") (String dquote "") code_text in
  let code_text := replace "0bject" "Object" code_text in
  let code_text := replace "l.ist" "List" code_text in
  let code_text := replace "l.ist" "List" code_text in
  let code_text := replace "lnt" "int" code_text in
  let code_text := replace "retum" "return" code_text in
  let code_text :=
    sub no_flags operator_re
      (fun m => group_str m 1 ++ " " ++ group_str m 2 ++ " " ++ group_str m 3)
      code_text in
  let code_text :=
    sub (Flags true false) line_number_re (fun _ => "") code_text in
  strip code_text.

(** ** [_detect_language] *)

Definition found (r : regex) (text : string) : bool :=
  match search no_flags r text with Some _ => true | None => false end.

(** Pattern "def\s+\w+\s*\(.*\)\s*:" *)
Definition python_def_re : regex :=
  seq [lit "def"; plus s; plus w; star s; Chr "("; star Any; Chr ")";
       star s; Chr ":"].

(** Pattern "class\s+\w+\s*:" *)
Definition python_class_re : regex :=
  seq [lit "class"; plus s; plus w; star s; Chr ":"].

(** Pattern "public\s+(static\s+)?(class|interface|enum)" *)
Definition java_class_re : regex :=
  seq [lit "public"; plus s; opt (Grp 1 (seq [lit "static"; plus s]));
       Grp 2 (alt [lit "class"; lit "interface"; lit "enum"])].

(** Pattern "(public|private|protected)\s+\w+\s+\w+\s*\(.*\)\s*\{" *)
Definition java_method_re : regex :=
  seq [Grp 1 (alt [lit "public"; lit "private"; lit "protected"]);
       plus s; plus w; plus s; plus w; star s; Chr "("; star Any; Chr ")";
       star s; Chr "{"].

(** Pattern "(int|void|bool|char|float|double|long|short|class|struct)\s+\w+\s*\(.*\)\s*\{" *)
Definition cpp_function_re : regex :=
  seq [Grp 1 (alt [lit "int"; lit "void"; lit "bool"; lit "char";
                   lit "float"; lit "double"; lit "long"; lit "short";
                   lit "class"; lit "struct"]);
       plus s; plus w; star s; Chr "("; star Any; Chr ")"; star s; Chr "{"].

(** Pattern "function\s+\w+\s*\(.*\)\s*\{" *)
Definition js_function_re : regex :=
  seq [lit "function"; plus s; plus w; star s; Chr "("; star Any; Chr ")";
       star s; Chr "{"].

(** Pattern "const\s+\w+\s*=" and "var\s+\w+\s*=" and "let\s+\w+\s*=" *)
Definition js_binding_re (keyword : string) : regex :=
  seq [lit keyword; plus s; plus w; star s; Chr "="].

Definition _detect_language (code_text : string) : string :=
  if found python_def_re code_text || found python_class_re code_text
  then "python"
  else if found java_class_re code_text || found java_method_re code_text
  then "java"
  else if found (lit "#include") code_text
          || found cpp_function_re code_text
          || found (lit "std::") code_text
  then "cpp"
  else if found js_function_re code_text
          || found (js_binding_re "const") code_text
          || found (js_binding_re "var") code_text
          || found (js_binding_re "let") code_text
  then "javascript"
  else if contains "{" code_text && contains "}" code_text
  then (if contains "public" code_text || contains "private" code_text
        then "java" else "cpp")
  else if contains ":" code_text && contains "def" code_text
  then "python"
  else "unknown".

(** ** The parameter loop shared by the Python, Java and C++ parsers

    [for char in params_text + ',':] with the local variables [depth],
    [current_param] and the list [result['parameters']].  [opening] and
    [closing] are the two delimiters that move [depth]; [decompose] is
    the body of [if param:], which appends at most one entry. *)
Section ParamLoop.

Variables opening closing : ascii.
Variable decompose : string -> list parameter.

Fixpoint param_loop (chars : string) (depth : Z) (current_param : string)
  (params : list parameter) : list parameter :=
  match chars with
  | EmptyString => params
  | String char chars' =>
      if Ascii.eqb char "," && Z.eqb depth 0 then
        let param := strip current_param in
        param_loop chars' depth ""
          (if truthy param then (params ++ decompose param)%list else params)
      else
        let depth :=
          if Ascii.eqb char opening then (depth + 1)%Z
          else if Ascii.eqb char closing then (depth - 1)%Z
          else depth in
        param_loop chars' depth (current_param ++ String char "") params
  end.

(** [if params_text:] followed by the loop. *)
Definition split_params (params_text : string) : list parameter :=
  if truthy params_text then param_loop (params_text ++ ",") 0 "" []
  else [].

End ParamLoop.

(** ** [_parse_python] *)

(** Pattern "class\s+(\w+)(?:\(.*\))?\s*:" *)
Definition py_class_context_re : regex :=
  seq [lit "class"; plus s; Grp 1 (plus w);
       opt (seq [Chr "("; star Any; Chr ")"]); star s; Chr ":"].

(** Pattern "def\s+(\w+)\s*\((.*?)\)(?:\s*->\s*([^:]*" ++ "))?\s*:" *)
Definition py_func_re : regex :=
  seq [lit "def"; plus s; Grp 1 (plus w); star s; Chr "(";
       Grp 2 (star_lazy Any); Chr ")";
       opt (seq [star s; lit "->"; star s; Grp 3 (star (Cls true (one_of ":")))]);
       star s; Chr ":"].

(** Pattern "(\w+)(?:\s*:\s*([^=]*" ++ "))?(?:\s*=\s*(.*" ++ "))?" *)
Definition py_param_re : regex :=
  seq [Grp 1 (plus w);
       opt (seq [star s; Chr ":"; star s; Grp 2 (star (Cls true (one_of "=")))]);
       opt (seq [star s; Chr "="; star s; Grp 3 (star Any)])].

Definition py_param (param : string) : list parameter :=
  match re_match no_flags py_param_re param with
  | Some param_match =>
      [Param (group_str param_match 1)
         (if group_truthy param_match 2
          then strip (group_str param_match 2) else "")
         (if group_truthy param_match 3
          then group param_match 3 else None)]
  | None => []
  end.

Definition class_context_of (r : regex) (code_text : string) : string :=
  match search no_flags r code_text with
  | Some class_match => m_text class_match
  | None => ""
  end.

Definition _parse_python (code_text : string) : result :=
  let class_context := class_context_of py_class_context_re code_text in
  match search no_flags py_func_re code_text with
  | None => Result "" "" [] "" class_context
  | Some func_match =>
      Result (m_text func_match)
             (group_str func_match 1)
             (split_params "[" "]" py_param (group_str func_match 2))
             (if group_truthy func_match 3
              then strip (group_str func_match 3) else "")
             class_context
  end.

(** ** [_parse_java] *)

(** Pattern "(?:public|private|protected)?\s*class\s+(\w+)(?:\s+extends\s+\w+)?(?:\s+implements\s+[\w,\s]+)?\s*\{" *)
Definition java_class_context_re : regex :=
  seq [opt (alt [lit "public"; lit "private"; lit "protected"]); star s;
       lit "class"; plus s; Grp 1 (plus w);
       opt (seq [plus s; lit "extends"; plus s; plus w]);
       opt (seq [plus s; lit "implements"; plus s;
                 plus (Cls false [CWord; CChar ","; CSpace])]);
       star s; Chr "{"].

(** Pattern "(?:public|private|protected)?\s*(?:static\s+)?(\w+(?:<.*>)?)\s+(\w+)\s*\((.*?)\)\s*(?:throws\s+[\w,\s]+)?\s*\{" *)
Definition java_func_re : regex :=
  seq [opt (alt [lit "public"; lit "private"; lit "protected"]); star s;
       opt (seq [lit "static"; plus s]);
       Grp 1 (seq [plus w; opt (seq [Chr "<"; star Any; Chr ">"])]);
       plus s; Grp 2 (plus w); star s; Chr "("; Grp 3 (star_lazy Any);
       Chr ")"; star s;
       opt (seq [lit "throws"; plus s;
                 plus (Cls false [CWord; CChar ","; CSpace])]);
       star s; Chr "{"].

(** Pattern "([\w<>[\],\s]+)\s+(\w+)" *)
Definition java_param_re : regex :=
  seq [Grp 1 (plus (Cls false (CWord :: CSpace :: one_of "<>[],")));
       plus s; Grp 2 (plus w)].

Definition java_param (param : string) : list parameter :=
  match re_match no_flags java_param_re param with
  | Some param_match =>
      [Param (group_str param_match 2)
         (strip (group_str param_match 1)) None]
  | None => []
  end.

Definition _parse_java (code_text : string) : result :=
  let class_context := class_context_of java_class_context_re code_text in
  match search no_flags java_func_re code_text with
  | None => Result "" "" [] "" class_context
  | Some method_match =>
      Result (m_text method_match)
             (group_str method_match 2)
             (split_params "<" ">" java_param (group_str method_match 3))
             (group_str method_match 1)
             class_context
  end.

(** ** [_parse_cpp] *)

(** Pattern "(?:class|struct)\s+(\w+)(?:\s*:\s*(?:public|private|protected)\s+\w+)?\s*\{" *)
Definition cpp_class_context_re : regex :=
  seq [alt [lit "class"; lit "struct"]; plus s; Grp 1 (plus w);
       opt (seq [star s; Chr ":"; star s;
                 alt [lit "public"; lit "private"; lit "protected"];
                 plus s; plus w]);
       star s; Chr "{"].

(** Pattern "([\w:]+(?:<.*>)?(?:\s+[\w:]+)*" ++ ")\s+(\w+)\s*\((.*?)\)(?:\s*const)?\s*(?:noexcept)?\s*(?:->.*?)?\s*\{" *)
Definition cpp_func_re : regex :=
  seq [Grp 1 (seq [plus (Cls false [CWord; CChar ":"]);
                   opt (seq [Chr "<"; star Any; Chr ">"]);
                   star (seq [plus s; plus (Cls false [CWord; CChar ":"])])]);
       plus s; Grp 2 (plus w); star s; Chr "("; Grp 3 (star_lazy Any);
       Chr ")"; opt (seq [star s; lit "const"]); star s;
       opt (lit "noexcept"); star s;
       opt (seq [lit "->"; star_lazy Any]); star s; Chr "{"].

(** Pattern "([\w<>[\]:,\s&*]+)\s+(\w+)(?:\s*=\s*(.*" ++ "))?" *)
Definition cpp_param_re : regex :=
  seq [Grp 1 (plus (Cls false (CWord :: CSpace :: one_of "<>[]:,&*")));
       plus s; Grp 2 (plus w);
       opt (seq [star s; Chr "="; star s; Grp 3 (star Any)])].

Definition cpp_param (param : string) : list parameter :=
  match re_match no_flags cpp_param_re param with
  | Some param_match =>
      [Param (group_str param_match 2)
         (strip (group_str param_match 1))
         (if group_truthy param_match 3
          then group param_match 3 else None)]
  | None => []
  end.

Definition _parse_cpp (code_text : string) : result :=
  let class_context := class_context_of cpp_class_context_re code_text in
  match search no_flags cpp_func_re code_text with
  | None => Result "" "" [] "" class_context
  | Some func_match =>
      Result (m_text func_match)
             (group_str func_match 2)
             (split_params "<" ">" cpp_param (group_str func_match 3))
             (group_str func_match 1)
             class_context
  end.

(** ** [_parse_javascript] *)

(** Pattern "class\s+(\w+)(?:\s+extends\s+\w+)?\s*\{" *)
Definition js_class_context_re : regex :=
  seq [lit "class"; plus s; Grp 1 (plus w);
       opt (seq [plus s; lit "extends"; plus s; plus w]); star s; Chr "{"].

(** Pattern "function\s+(\w+)\s*\((.*?)\)\s*\{" *)
Definition js_standard_re : regex :=
  seq [lit "function"; plus s; Grp 1 (plus w); star s; Chr "(";
       Grp 2 (star_lazy Any); Chr ")"; star s; Chr "{"].

(** Pattern "(?:const|let|var)\s+(\w+)\s*=\s*(?:\((.*?)\)|(\w+))\s*=>\s*\{?" *)
Definition js_arrow_re : regex :=
  seq [alt [lit "const"; lit "let"; lit "var"]; plus s; Grp 1 (plus w);
       star s; Chr "="; star s;
       alt [seq [Chr "("; Grp 2 (star_lazy Any); Chr ")"]; Grp 3 (plus w)];
       star s; lit "=>"; star s; opt (Chr "{")].

(** Pattern "(\w+)\s*\((.*?)\)\s*\{" *)
Definition js_method_re : regex :=
  seq [Grp 1 (plus w); star s; Chr "("; Grp 2 (star_lazy Any); Chr ")";
       star s; Chr "{"].

(** The three attempts at [func_match]; the second component is
    [len(func_match.groups())], the number of groups of the pattern that
    matched. *)
Definition js_func_match (code_text : string) : option (match_obj * nat) :=
  match search no_flags js_standard_re code_text with
  | Some m => Some (m, 2)
  | None =>
      match search no_flags js_arrow_re code_text with
      | Some m => Some (m, 3)
      | None =>
          match search no_flags js_method_re code_text with
          | Some m => Some (m, 2)
          | None => None
          end
      end
  end.

(** The body of [for param in params:] of the JavaScript parser. *)
Definition js_param (param : string) : list parameter :=
  let param := strip param in
  if truthy param then
    if contains "=" param then
      match split1 "=" param with
      | [name; default] => [Param (strip name) "" (Some (strip default))]
      | _ => []
      end
    else [Param param "" None]
  else [].

Definition _parse_javascript (code_text : string) : result :=
  let class_context := class_context_of js_class_context_re code_text in
  match js_func_match code_text with
  | None => Result "" "" [] "" class_context
  | Some (func_match, ngroups) =>
      let params_text :=
        if group_truthy func_match 2 then group func_match 2
        else if Nat.ltb 2 ngroups then group func_match 3
        else Some "" in
      Result (m_text func_match)
             (group_str func_match 1)
             (match params_text with
              | Some text =>
                  if truthy text then flat_map js_param (split "," text)
                  else []
              | None => []
              end)
             ""
             class_context
  end.

(** ** [_parse_generic] *)

(** Pattern "(?:function|def|void|int|bool|string|char|float|double)\s+(\w+)\s*\((.*?)\)" *)
Definition generic_func_re : regex :=
  seq [alt [lit "function"; lit "def"; lit "void"; lit "int"; lit "bool";
            lit "string"; lit "char"; lit "float"; lit "double"];
       plus s; Grp 1 (plus w); star s; Chr "("; Grp 2 (star_lazy Any);
       Chr ")"].

Definition generic_param (param : string) : list parameter :=
  let param := strip param in
  if truthy param then [Param param "" None] else [].

Definition _parse_generic (code_text : string) : result :=
  match search no_flags generic_func_re code_text with
  | Some func_match =>
      let params_text := group_str func_match 2 in
      Result (m_text func_match)
             (group_str func_match 1)
             (if truthy params_text
              then flat_map generic_param (split "," params_text) else [])
             ""
             ""
  | None => empty_result
  end.

(** ** [parse] *)

(** The [if language == ...: ... elif ...: ... else: ...] chain of
    [parse]. *)
Definition parse_as (language code_text : string) : result :=
  if String.eqb language "python" then _parse_python code_text
  else if String.eqb language "java" then _parse_java code_text
  else if String.eqb language "cpp" then _parse_cpp code_text
  else if String.eqb language "javascript" then _parse_javascript code_text
  else _parse_generic code_text.

Definition parse (code_text : string) : code_info :=
  if negb (truthy code_text) then CodeInfo "unknown" empty_result
  else
    let code_text := _clean_code_text code_text in
    let language := _detect_language code_text in
    let result := parse_as language code_text in
    CodeInfo language result.

End CodeParser.


(* ================================================================== *)
(** * [desktop_app/parsing/problem_parser.py] *)
(* ================================================================== *)

Module ProblemParser.

Import PyStr Re.

(** One entry of the [examples] list. *)
Record example : Type :=
  ExampleRec { input : string; output : string; explanation : string }.

(** The dictionary returned by [parse]. *)
Record problem_info : Type :=
  ProblemInfo { title : string; description : string;
                examples : list example; constraints : list string }.

Definition dotall : flags := Flags false true.

(** ** [_clean_text] *)

(** Pattern "\n{3,}" *)
Definition blank_lines_re : regex := at_least 3 (Chr newline).

(** Pattern "Example\s*(\d)\s*:" *)
Definition example_number_re : regex :=
  seq [lit "Example"; star s; Grp 1 d; star s; Chr ":"].

Definition _clean_text (text : string) : string :=
  let text :=
    sub no_flags blank_lines_re
      (fun _ => String newline (String newline "")) text in
  let text := replace "Example|:" "Example:" text in
  let text := replace "Example |:" "Example:" text in
  let text := replace "Input|:" "Input:" text in
  let text := replace "Output|:" "Output:" text in
  let text := replace "Constraints|:" "Constraints:" text in
  let text :=
    sub no_flags example_number_re
      (fun m => "Example " ++ group_str m 1 ++ ":") text in
  strip text.

(** ** [_extract_title] *)

(** Pattern "^(?:\d+\.\s*" ++ ")?([A-Z][A-Za-z0-9\s\-]+)(?:\n|$)" *)
Definition title_re : regex :=
  seq [Bol; opt (seq [plus d; Chr "."; star s]);
       Grp 1 (seq [Cls false [CRange "A" "Z"];
                   plus (Cls false [CRange "A" "Z"; CRange "a" "z";
                                    CRange "0" "9"; CSpace; CChar "-"])]);
       alt [Chr newline; Eol]].

Definition section_headers : list string :=
  ["example"; "input:"; "output:"; "constraints:"].

(** [line[0].isupper()] *)
Definition first_isupper (line : string) : bool :=
  match line with
  | String c _ => isupper c
  | EmptyString => false
  end.

(** The [for line in lines:] loop: the first line that looks like a
    title, if there is one. *)
Fixpoint title_line (lines : list string) : option string :=
  match lines with
  | [] => None
  | line :: lines' =>
      let line := strip line in
      if truthy line && Nat.ltb (String.length line) 50 && first_isupper line
         && negb (existsb (fun header => contains header (lower line))
                    section_headers)
      then Some line
      else title_line lines'
  end.

Definition _extract_title (text : string) : string :=
  match search no_flags title_re text with
  | Some m => strip (group_str m 1)
  | None =>
      let lines := split newline text in
      match title_line lines with
      | Some line => line
      | None => match lines with line0 :: _ => line0 | [] => "" end
      end
  end.

(** ** [_extract_examples] *)

(** The lookahead "(?=Example\s*\d+:|Constraints:|$)" shared by the two
    example patterns. *)
Definition example_end : regex :=
  Ahead (alt [seq [lit "Example"; star s; plus d; Chr ":"];
              lit "Constraints:"; Eol]).

(** Pattern "Example\s*\d+:?(.*?)(?=Example\s*\d+:|Constraints:|$)" *)
Definition example_re : regex :=
  seq [lit "Example"; star s; plus d; opt (Chr ":");
       Grp 1 (star_lazy Any); example_end].

(** Pattern "Input:?\s*(.*?)(?=Output|$)" *)
Definition input_re : regex :=
  seq [lit "Input"; opt (Chr ":"); star s; Grp 1 (star_lazy Any);
       Ahead (alt [lit "Output"; Eol])].

(** Pattern "Output:?\s*(.*?)(?=Explanation|$)" *)
Definition output_re : regex :=
  seq [lit "Output"; opt (Chr ":"); star s; Grp 1 (star_lazy Any);
       Ahead (alt [lit "Explanation"; Eol])].

(** Pattern "Explanation:?\s*(.*?)$" *)
Definition explanation_re : regex :=
  seq [lit "Explanation"; opt (Chr ":"); star s; Grp 1 (star_lazy Any); Eol].

(** [m.group(1).strip() if m else ""] *)
Definition field (r : regex) (example_text : string) : string :=
  match search dotall r example_text with
  | Some m => strip (group_str m 1)
  | None => ""
  end.

Definition example_of (m : match_obj) : example :=
  let example_text := strip (group_str m 1) in
  ExampleRec (field input_re example_text)
             (field output_re example_text)
             (field explanation_re example_text).

Definition _extract_examples (text : string) : list example :=
  map example_of (finditer dotall example_re text).

(** ** [_extract_constraints] *)

(** Pattern "Constraints:?(.*?)$" *)
Definition constraints_re : regex :=
  seq [lit "Constraints"; opt (Chr ":"); Grp 1 (star_lazy Any); Eol].

(** Pattern "\n+|\*" -- the source has a third alternative, the bullet
    U+2022, a character that no text of this model contains. *)
Definition bullet_re : regex := alt [plus (Chr newline); Chr "*"].

Definition nonempty_lines (lines : list string) : list string :=
  filter truthy (map strip lines).

Definition _extract_constraints (text : string) : list string :=
  match search dotall constraints_re text with
  | Some constraints_match =>
      let constraints_text := strip (group_str constraints_match 1) in
      nonempty_lines (re_split no_flags bullet_re constraints_text)
  | None => []
  end.

(** ** [_extract_description] *)

(** Pattern "^(?:\d+\.\s*" ++ ")?" + re.escape(title) + "(?:\n|$)" *)
Definition title_pattern (title : string) : regex :=
  seq [Bol; opt (seq [plus d; Chr "."; star s]); lit title;
       alt [Chr newline; Eol]].

(** Pattern "Example\s*\d+:?.*?(?=Example\s*\d+:|Constraints:|$)" *)
Definition example_pattern : regex :=
  seq [lit "Example"; star s; plus d; opt (Chr ":"); star_lazy Any;
       example_end].

(** Pattern "Constraints:?.*?$" *)
Definition constraints_pattern : regex :=
  seq [lit "Constraints"; opt (Chr ":"); star_lazy Any; Eol].

Definition _extract_description (text title : string)
  (examples : list example) (constraints : list string) : string :=
  let description := text in
  let description :=
    if truthy title
    then strip (sub_count no_flags (title_pattern title) (fun _ => "")
                  description 1)
    else description in
  let description :=
    strip (sub dotall example_pattern (fun _ => "") description) in
  strip (sub dotall constraints_pattern (fun _ => "") description).

(** ** [parse] *)

Definition parse (text : string) : problem_info :=
  if negb (truthy text) then ProblemInfo "" "" [] []
  else
    let text := _clean_text text in
    let title := _extract_title text in
    let examples := _extract_examples text in
    let constraints := _extract_constraints text in
    let description := _extract_description text title examples constraints in
    ProblemInfo title description examples constraints.

End ProblemParser.

(* ================================================================== *)
(** * Python exceptions and floating-point numbers *)
(* ================================================================== *)

Module Py.

(** A raised exception: an instance of [Exception] (what [except
    Exception] catches), or one of the other subclasses of [BaseException]
    ([KeyboardInterrupt], [SystemExit], ...). *)
Inductive exn : Type :=
| Exception (name : string)
| BaseException (name : string).

(** What a call does: it returns a value or raises. *)
Inductive outcome (A : Type) : Type :=
| Returns (a : A)
| Raises (e : exn).

Arguments Returns {A} a.
Arguments Raises {A} e.

Definition bind {A B : Type} (c : outcome A) (k : A -> outcome B)
  : outcome B :=
  match c with
  | Returns a => k a
  | Raises e => Raises e
  end.

(** [try: c  except Exception as e: handler(e)] *)
Definition try_except {A : Type} (c : outcome A) (handler : exn -> outcome A)
  : outcome A :=
  match c with
  | Raises (Exception name) => handler (Exception name)
  | _ => c
  end.

Declare Scope py_scope.
Delimit Scope py_scope with py.
Notation "x <- c ;; k" := (bind c (fun x => k))
  (at level 61, c at next level, right associativity) : py_scope.

(** ** Numbers

    A Python [float] and a [numpy.float64] are binary64 numbers, the
    primitive [float] of Rocq.  An [int] that is turned into a [float] is
    below 2^53 in absolute value in this program (pixel coordinates, image
    sizes and row sums), so the conversion is exact. *)
Definition float_of_Z (z : Z) : PrimFloat.float :=
  if (z <? 0)%Z then PrimFloat.opp (PrimFloat.of_uint63 (Uint63.of_Z (- z)))
  else PrimFloat.of_uint63 (Uint63.of_Z z).

(** [a / b] on two [int]s: true division. *)
Definition int_truediv (a b : Z) : outcome PrimFloat.float :=
  if (b =? 0)%Z then Raises (Exception "ZeroDivisionError")
  else Returns (PrimFloat.div (float_of_Z a) (float_of_Z b)).

(** [a / b] on two [float]s. *)
Definition float_truediv (a b : PrimFloat.float) : outcome PrimFloat.float :=
  if PrimFloat.eqb b PrimFloat.zero then Raises (Exception "ZeroDivisionError")
  else Returns (PrimFloat.div a b).

(** [int(x)] for a finite [x]: truncation towards zero. *)
Definition int_of_float (x : PrimFloat.float) : outcome Z :=
  match FloatOps.Prim2SF x with
  | SpecFloat.S754_zero _ => Returns 0%Z
  | SpecFloat.S754_finite sign m e =>
      let magnitude :=
        if (0 <=? e)%Z then (Z.pos m * 2 ^ e)%Z
        else (Z.pos m / 2 ^ (- e))%Z in
      Returns (if sign then (- magnitude)%Z else magnitude)
  | SpecFloat.S754_infinity _ => Raises (Exception "OverflowError")
  | SpecFloat.S754_nan => Raises (Exception "ValueError")
  end.

(** ** [numpy.float32]

    A binary32 number is kept as the binary64 number of the same value.
    An operation of [numpy] on binary32 operands is the binary64 operation
    followed by rounding to 24 significant bits (for the four operations
    and the square root this double rounding is exact).  The exponent
    range of binary32 is not modelled: the operands here are pixel
    coordinates. *)
Definition round_single (x : PrimFloat.float) : PrimFloat.float :=
  if PrimFloat.is_nan x || PrimFloat.is_infinity x || PrimFloat.is_zero x
  then x
  else
    let (m, e) := FloatOps.Z.frexp x in
    let scaled := FloatOps.Z.ldexp m 24 in
    let big := 4503599627370496%float in            (* 2^52 *)
    let rounded :=
      if PrimFloat.ltb scaled PrimFloat.zero
      then PrimFloat.add (PrimFloat.sub scaled big) big
      else PrimFloat.sub (PrimFloat.add scaled big) big in
    FloatOps.Z.ldexp rounded (e - 24).

Definition f32_of_Z (z : Z) : PrimFloat.float := round_single (float_of_Z z).
Definition f32_add (a b : PrimFloat.float) := round_single (PrimFloat.add a b).
Definition f32_sub (a b : PrimFloat.float) := round_single (PrimFloat.sub a b).
Definition f32_mul (a b : PrimFloat.float) := round_single (PrimFloat.mul a b).
Definition f32_sqrt (a : PrimFloat.float) := round_single (PrimFloat.sqrt a).

End Py.

(* ================================================================== *)
(** * The calls into OpenCV, NumPy and pytesseract *)
(* ================================================================== *)

Module Cv.

Import Py.

(** A bounding box [(x, y, w, h)] and a pixel position [(x, y)]. *)
Definition box : Type := (Z * Z * Z * Z)%type.
Definition point : Type := (Z * Z)%type.
Definition fpoint : Type := (PrimFloat.float * PrimFloat.float)%type.

Inductive threshold_type : Type := THRESH_BINARY | THRESH_BINARY_INV.
Inductive morph_type : Type := MORPH_CLOSE | MORPH_OPEN.

(** The library functions this program calls on images, with the constant
    arguments of the call sites left out.  A call that can fail on its
    argument has an [outcome]. *)
Record library : Type := Library {
  image : Type;
  contour : Type;
  matrix : Type;
  ndim : image -> nat;                          (* len(image.shape) *)
  shape : image -> Z * Z;                       (* image.shape[:2] *)
  copy : image -> image;                        (* image.copy() *)
  cvtColor : image -> outcome image;            (* COLOR_BGR2GRAY *)
  GaussianBlur : image -> Z -> outcome image;   (* (k, k), 0 *)
  Canny : image -> outcome image;               (* 50, 150 *)
  adaptiveThreshold : image -> threshold_type -> outcome image;
                                  (* 255, ADAPTIVE_THRESH_GAUSSIAN_C, _, 11, 2 *)
  threshold_otsu : image -> outcome image;      (* 0, 255, BINARY + OTSU *)
  bitwise_not : image -> outcome image;
  clahe_apply : image -> outcome image;         (* clipLimit 2.0, tiles 8 x 8 *)
  morphologyEx : image -> morph_type -> outcome image;   (* 1 x 1 kernel *)
  findContours : image -> outcome (list contour);
                                  (* RETR_EXTERNAL, CHAIN_APPROX_SIMPLE *)
  contourArea : contour -> PrimFloat.float;
  boundingRect : contour -> box;
  arcLength : contour -> PrimFloat.float;       (* closed *)
  approxPolyDP : contour -> PrimFloat.float -> outcome (list point);
  getPerspectiveTransform : list fpoint -> list fpoint -> outcome matrix;
  warpPerspective : image -> matrix -> Z * Z -> outcome image;
  np_mean : image -> PrimFloat.float;           (* np.mean(image) *)
  np_sum_rows : image -> list Z;                (* np.sum(image, axis=1) *)
  image_to_string : image -> string -> string -> outcome string
                                  (* pytesseract, lang and config *)
}.

End Cv.

(** One-dimensional NumPy arrays, as lists. *)
Module Np.

Import Py.

(** [np.diff(a)] *)
Fixpoint diff (a : list Z) : list Z :=
  match a with
  | x :: (y :: _) as a' => (y - x)%Z :: diff a'
  | _ => []
  end.

(** [np.where(a == v)[0]] *)
Fixpoint where_eq (v : Z) (a : list Z) (i : Z) : list Z :=
  match a with
  | [] => []
  | x :: a' =>
      if Z.eqb x v then i :: where_eq v a' (i + 1) else where_eq v a' (i + 1)
  end.

(** [a - b] with broadcasting of an array of length one. *)
Definition subtract (a b : list Z) : outcome (list Z) :=
  if Nat.eqb (List.length a) (List.length b)
  then Returns (map (fun p => (fst p - snd p)%Z) (combine a b))
  else
    match a, b with
    | _, [y] => Returns (map (fun x => (x - y)%Z) a)
    | [x], _ => Returns (map (fun y => (x - y)%Z) b)
    | _, _ => Raises (Exception "ValueError")
    end.

(** [np.argmax(a)] on a non-empty array: the first index of the
    maximum. *)
Fixpoint argmax_from (a : list Z) (i best_i : nat) (best : Z) : nat :=
  match a with
  | [] => best_i
  | x :: a' =>
      if (best <? x)%Z then argmax_from a' (S i) i x
      else argmax_from a' (S i) best_i best
  end.

Definition argmax (a : list Z) : outcome nat :=
  match a with
  | [] => Raises (Exception "ValueError")
  | x :: a' => Returns (argmax_from a' 1 0 x)
  end.

(** [a[i]] for an index [i >= 0]. *)
Definition item (a : list Z) (i : nat) : outcome Z :=
  match nth_error a i with
  | Some x => Returns x
  | None => Raises (Exception "IndexError")
  end.

(** [np.mean(a)] of an array of integers: the sum over the length, in
    binary64. *)
Definition mean (a : list Z) : PrimFloat.float :=
  PrimFloat.div (float_of_Z (fold_right Z.add 0%Z a))
                (float_of_Z (Z.of_nat (List.length a))).

(** First index of the least and of the greatest element of a non-empty
    array of floats ([np.argmin], [np.argmax]). *)
Fixpoint farg_from (better : PrimFloat.float -> PrimFloat.float -> bool)
  (a : list PrimFloat.float) (i best_i : nat) (best : PrimFloat.float) : nat :=
  match a with
  | [] => best_i
  | x :: a' =>
      if better x best then farg_from better a' (S i) i x
      else farg_from better a' (S i) best_i best
  end.

Definition fargmin (a : list PrimFloat.float) : nat :=
  match a with
  | [] => 0
  | x :: a' => farg_from PrimFloat.ltb a' 1 0 x
  end.

Definition fargmax (a : list PrimFloat.float) : nat :=
  match a with
  | [] => 0
  | x :: a' => farg_from (fun u v => PrimFloat.ltb v u) a' 1 0 x
  end.

End Np.

(* ================================================================== *)
(** * [desktop_app/preprocessing/image_processor.py] *)
(* ================================================================== *)

Module ImageProcessor.

Import Py Cv.
Local Open Scope py_scope.

Inductive RegionType : Type := PROBLEM | CODE | UNKNOWN.

(** The dictionary from region types to bounds, in insertion order. *)
Definition regions : Type := list (RegionType * box).

(** The key of the sort: [cv2.boundingRect(c)[1]]. *)
Definition box_y (b : box) : Z :=
  match b with (_, y, _, _) => y end.

Section WithLibrary.

Variable cv : library.

(** [sorted(l, key=key)]: the stable sort in ascending order. *)
Section Sorted.

Variable A : Type.
Variable key : A -> Z.

Fixpoint insert (x : A) (l : list A) : list A :=
  match l with
  | [] => [x]
  | y :: l' => if (key x <=? key y)%Z then x :: l else y :: insert x l'
  end.

Definition sorted (l : list A) : list A := fold_right insert [] l.

End Sorted.

(** [0.01 * h * w] *)
Definition min_area (h w : Z) : PrimFloat.float :=
  (0.01 * float_of_Z h * float_of_Z w)%float.

(** Method 1 of [_analyze_layout], from the contours found. *)
Definition valid_contours (contours : list (contour cv)) (h w : Z)
  : list (contour cv) :=
  filter (fun cnt => PrimFloat.ltb (min_area h w) (contourArea cv cnt))
         contours.

Definition contour_layout (contours : list (contour cv)) (h w : Z)
  : option regions :=
  let valid_contours := valid_contours contours h w in
  if Nat.leb 2 (List.length valid_contours) then
    let sorted_contours :=
      sorted _ (fun c => box_y (boundingRect cv c)) valid_contours in
    match sorted_contours with
    | [] => None
    | first :: _ =>
        let problem_box := boundingRect cv first in
        let code_box := boundingRect cv (last sorted_contours first) in
        Some [(PROBLEM, problem_box); (CODE, code_box)]
    end
  else None.

(** [gaps = h_projection < threshold], as 0 and 1. *)
Definition gaps_of (h_projection : list Z) : list Z :=
  let threshold := (Np.mean h_projection * 0.5)%float in
  map (fun p => if PrimFloat.ltb (float_of_Z p) threshold then 1%Z else 0%Z)
      h_projection.

(** Method 2 of [_analyze_layout]: the row [split_y] in the middle of the
    chosen gap of the projection profile, if there is a gap. *)
Definition projection_split (h_projection : list Z) : outcome (option Z) :=
  let gaps := gaps_of h_projection in
  let gap_starts := Np.where_eq 1 (Np.diff gaps) 0 in
  let gap_ends := Np.where_eq (-1) (Np.diff gaps) 0 in
  if Nat.ltb 0 (List.length gap_starts) && Nat.ltb 0 (List.length gap_ends)
  then
    gap_lengths <- Np.subtract gap_ends gap_starts ;;
    if Nat.ltb 0 (List.length gap_lengths) then
      max_gap_idx <- Np.argmax gap_lengths ;;
      gap_start <- Np.item gap_starts max_gap_idx ;;
      gap_end <- Np.item gap_ends max_gap_idx ;;
      Returns (Some ((gap_start + gap_end) / 2)%Z)
    else Returns None
  else Returns None.

(** The body of the [try:] of [_analyze_layout]. *)
Definition analyze_layout_body (gray_image : image cv) (h w : Z)
  : outcome regions :=
  thresh <- adaptiveThreshold cv gray_image THRESH_BINARY_INV ;;
  contours <- findContours cv thresh ;;
  match contour_layout contours h w with
  | Some found => Returns found
  | None =>
      split <- projection_split (np_sum_rows cv thresh) ;;
      match split with
      | Some split_y =>
          Returns [(PROBLEM, (0, 0, w, split_y));
                   (CODE, (0, split_y, w, h - split_y))]%Z
      | None => Returns []
      end
  end.

(** The message printed by the handler is not modelled. *)
Definition _analyze_layout (gray_image : image cv) : outcome regions :=
  let (h, w) := shape cv gray_image in
  try_except (analyze_layout_body gray_image h w) (fun _ => Returns []).

(** [cv2.cvtColor(image, cv2.COLOR_BGR2GRAY) if len(image.shape) == 3
    else image.copy()] *)
Definition to_gray (img : image cv) : outcome (image cv) :=
  if Nat.eqb (ndim cv img) 3 then cvtColor cv img
  else Returns (copy cv img).

Definition detect_regions (img : image cv) : outcome regions :=
  gray <- to_gray img ;;
  found <- _analyze_layout gray ;;
  match found with
  | [] =>
      let (h, w) := shape cv gray in
      Returns [(PROBLEM, (0, 0, w, h / 2));
               (CODE, (0, h / 2, w, h - h / 2))]%Z
  | _ => Returns found
  end.

(** ** [_order_points] and [correct_perspective] *)

Definition nth_point (pts : list fpoint) (i : nat) : fpoint :=
  nth i pts (PrimFloat.zero, PrimFloat.zero).

(** The rows of [rect]: top-left, top-right, bottom-right, bottom-left. *)
Definition _order_points (pts : list fpoint) : list fpoint :=
  let s := map (fun p => f32_add (fst p) (snd p)) pts in
  let diff := map (fun p => f32_sub (snd p) (fst p)) pts in
  [nth_point pts (Np.fargmin s);
   nth_point pts (Np.fargmin diff);
   nth_point pts (Np.fargmax s);
   nth_point pts (Np.fargmax diff)].

(** [np.sqrt(((p[0] - q[0]) ** 2) + ((p[1] - q[1]) ** 2))] on rows of a
    float32 array. *)
Definition distance (p q : fpoint) : PrimFloat.float :=
  let dx := f32_sub (fst p) (fst q) in
  let dy := f32_sub (snd p) (snd q) in
  f32_sqrt (f32_add (f32_mul dx dx) (f32_mul dy dy)).

(** [max(contours, key=cv2.contourArea)]: the first contour of the
    greatest area. *)
Fixpoint max_area_from (contours : list (contour cv)) (best : contour cv)
  : contour cv :=
  match contours with
  | [] => best
  | c :: contours' =>
      if PrimFloat.ltb (contourArea cv best) (contourArea cv c)
      then max_area_from contours' c
      else max_area_from contours' best
  end.

(** The branch [if len(approx) == 4:]; [None] when it falls through to
    the last [return image]. *)
Definition warp_quadrilateral (img : image cv) (approx : list point)
  : outcome (option (image cv)) :=
  let pts := map (fun p => (f32_of_Z (fst p), f32_of_Z (snd p))) approx in
  let rect := _order_points pts in
  let r := nth_point rect in
  width_a <- int_of_float (distance (r 0) (r 1)) ;;
  width_b <- int_of_float (distance (r 2) (r 3)) ;;
  let max_width := Z.max width_a width_b in
  height_a <- int_of_float (distance (r 0) (r 3)) ;;
  height_b <- int_of_float (distance (r 1) (r 2)) ;;
  let max_height := Z.max height_a height_b in
  let dst :=
    [(f32_of_Z 0, f32_of_Z 0);
     (f32_of_Z (max_width - 1), f32_of_Z 0);
     (f32_of_Z (max_width - 1), f32_of_Z (max_height - 1));
     (f32_of_Z 0, f32_of_Z (max_height - 1))] in
  M <- getPerspectiveTransform cv rect dst ;;
  warped <- warpPerspective cv img M (max_width, max_height) ;;
  let (h, w) := shape cv img in
  orig_aspect <- int_truediv w h ;;
  warped_aspect <- int_truediv max_width max_height ;;
  ratio <- float_truediv warped_aspect orig_aspect ;;
  if PrimFloat.ltb 0.7 ratio && PrimFloat.ltb ratio 1.3
  then Returns (Some warped)
  else Returns None.

Definition correct_perspective (img : image cv) : outcome (image cv) :=
  gray <- to_gray img ;;
  blurred <- GaussianBlur cv gray 5 ;;
  edges <- Canny cv blurred ;;
  contours <- findContours cv edges ;;
  match contours with
  | [] => Returns img
  | c :: contours' =>
      let max_contour := max_area_from contours' c in
      let epsilon := (0.02 * arcLength cv max_contour)%float in
      approx <- approxPolyDP cv max_contour epsilon ;;
      if Nat.eqb (List.length approx) 4 then
        warped <- warp_quadrilateral img approx ;;
        match warped with
        | Some result => Returns result
        | None => Returns img
        end
      else Returns img
  end.

End WithLibrary.

End ImageProcessor.

(* ================================================================== *)
(** * [desktop_app/ocr/ocr_engine.py] *)
(* ================================================================== *)

Module OCREngine.

Import Py Cv.
Local Open Scope py_scope.

Inductive TextType : Type := PROBLEM | CODE | GENERAL.

Section WithLibrary.

Variable cv : library.

(** [self.lang], set by [__init__]. *)
Variable self_lang : string.

(** [self.configs[text_type]] *)
Definition configs (text_type : TextType) : string :=
  match text_type with
  | PROBLEM => "--psm 6 --oem 3"
  | CODE => "--psm 6 --oem 3 -c preserve_interword_spaces=1"
  | GENERAL => "--psm 3 --oem 3"
  end.

Definition code_char_whitelist : string :=
  "ABCDEFGHIJKLMNOPQRSTUVWXYZabcdefghijklmnopqrstuvwxyz0123456789+-*/=<>:;,.()[]{}!?'"
  ++ String PyStr.dquote "\|&^%$#@~`".

Definition _is_dark_background (gray_image : image cv) : bool :=
  PrimFloat.ltb (np_mean cv gray_image) 128.

Definition preprocess_image (img : image cv) (text_type : TextType)
  : outcome (image cv) :=
  gray <- (if Nat.eqb (ndim cv img) 3 then cvtColor cv img
           else Returns (copy cv img)) ;;
  let is_dark_bg := _is_dark_background gray in
  gray <- (if is_dark_bg then bitwise_not cv gray else Returns gray) ;;
  binary <-
    match text_type with
    | PROBLEM =>
        blurred <- GaussianBlur cv gray 3 ;;
        enhanced <- clahe_apply cv blurred ;;
        adaptiveThreshold cv enhanced THRESH_BINARY
    | CODE =>
        blurred <- GaussianBlur cv gray 3 ;;
        threshold_otsu cv blurred
    | GENERAL =>
        blurred <- GaussianBlur cv gray 3 ;;
        adaptiveThreshold cv blurred THRESH_BINARY
    end ;;
  morphologyEx cv binary MORPH_CLOSE.

(** The message given to [logger.error] by the handler is not
    modelled. *)
(** [lang] after [if lang is None: lang = self.lang]. *)
Definition lang_of (lang : option string) : string :=
  match lang with None => self_lang | Some l => l end.

(** [config] as it is passed to the engine: the entry of [self.configs],
    with the whitelist added for code. *)
Definition config_of (text_type : TextType) : string :=
  let config := configs text_type in
  match text_type with
  | CODE =>
      config ++ " -c tessedit_char_whitelist='" ++ code_char_whitelist ++ "'"
  | _ => config
  end.

Definition extract_text (img : image cv) (text_type : TextType)
  (lang : option string) : outcome string :=
  let lang := lang_of lang in
  preprocessed <- preprocess_image img text_type ;;
  let config := config_of text_type in
  try_except (image_to_string cv preprocessed lang config)
             (fun _ => Returns "").

(** [extract_from_regions]: the loop over [regions_dict.items()], with
    the dictionary [results] built so far. *)
Fixpoint extract_from_regions_loop
  (items : list (ImageProcessor.RegionType * image cv))
  (results : list (ImageProcessor.RegionType * string))
  : outcome (list (ImageProcessor.RegionType * string)) :=
  match items with
  | [] => Returns results
  | (region_type, region_image) :: items' =>
      text <-
        match region_type with
        | ImageProcessor.PROBLEM => extract_text region_image PROBLEM None
        | ImageProcessor.CODE => extract_text region_image CODE None
        | ImageProcessor.UNKNOWN => extract_text region_image GENERAL None
        end ;;
      extract_from_regions_loop items' (results ++ [(region_type, text)])%list
  end.

Definition extract_from_regions
  (regions_dict : list (ImageProcessor.RegionType * image cv))
  : outcome (list (ImageProcessor.RegionType * string)) :=
  extract_from_regions_loop regions_dict [].

End WithLibrary.

End OCREngine.

(* ================================================================== *)
(** * [desktop_app/ocr/ocr_engine.py]: the functions on text *)
(* ================================================================== *)

Module OCRText.

Import PyStr Re.
Import OCREngine.

(** Pattern "def\s+two(Surn|Surn)" *)
Definition surn_re : regex :=
  seq [lit "def"; plus s; lit "two"; Grp 1 (alt [lit "Surn"; lit "Surn"])].

(** Pattern "for\s+i\s+in\s+rango" *)
Definition rango_re : regex :=
  seq [lit "for"; plus s; Chr "i"; plus s; lit "in"; plus s; lit "rango"].

(** Pattern "if \(" *)
Definition if_paren_re : regex := lit "if (".

(** Pattern "\)\s*\{" *)
Definition paren_brace_re : regex := seq [Chr ")"; star s; Chr "{"].

(** Pattern "def\s+([a-zA-Z0-9_]+)\s*\[\s*" *)
Definition def_bracket_re : regex :=
  seq [lit "def"; plus s;
       Grp 1 (plus (Cls false [CRange "a" "z"; CRange "A" "Z";
                               CRange "0" "9"; CChar "_"]));
       star s; Chr "["; star s].

(** Pattern "\s*\]\s*:" *)
Definition bracket_colon_re : regex := seq [star s; Chr "]"; star s; Chr ":"].

(** The fifth key of [corrections].  In the source file the two smart
    quotes of the dictionary are written as ASCII quotes, so that the two
    lines that were meant for them read as one key between triple quotes:
    the text from the colon of the first line to the indentation of the
    second. *)
Definition triple_quoted_key : string :=
  ": " ++ String dquote "'" ++ String dquote ",  # Smart quote to straight quote"
  ++ String newline "            ".

(** [for error, correction in corrections.items(): result =
    result.replace(error, correction)], in the order of the dictionary.
    The em dash, the en dash and the ellipsis are characters outside the
    range of this model and occur in no text of it. *)
Definition apply_corrections (result : string) : string :=
  let result := replace "0" "O" result in
  let result := replace "l" "I" result in
  let result := replace triple_quoted_key "'" result in
  replace (String dquote "") (String dquote "") result.

Definition post_process_text (text : string) (text_type : TextType) : string :=
  if negb (truthy text) then text
  else
    let result := text in
    let result :=
      match text_type with
      | CODE =>
          let result := sub no_flags surn_re (fun _ => "def twoSum") result in
          let result :=
            sub no_flags rango_re (fun _ => "for i in range") result in
          let result := sub no_flags if_paren_re (fun _ => "if (") result in
          let result := sub no_flags paren_brace_re (fun _ => ") {") result in
          let result :=
            sub no_flags def_bracket_re
              (fun m => "def " ++ group_str m 1 ++ "(") result in
          sub no_flags bracket_colon_re (fun _ => "):") result
      | PROBLEM =>
          let result :=
            sub no_flags (lit "Given an array of integers")
              (fun _ => "Given an array of integers") result in
          sub no_flags (lit "retum") (fun _ => "return") result
      | GENERAL => result
      end in
    apply_corrections result.

(** ** [detect_programming_language] *)

(** Pattern "import\s+\w+" *)
Definition import_re : regex := seq [lit "import"; plus s; plus w].

(** Pattern "public\s+(static\s+)?class" *)
Definition public_class_re : regex :=
  seq [lit "public"; plus s; opt (Grp 1 (seq [lit "static"; plus s]));
       lit "class"].

(** Pattern "public\s+(static\s+)?\w+\s+\w+\s*\(.*\)\s*\{" *)
Definition public_method_re : regex :=
  seq [lit "public"; plus s; opt (Grp 1 (seq [lit "static"; plus s]));
       plus w; plus s; plus w; star s; Chr "("; star Any; Chr ")"; star s;
       Chr "{"].

(** Pattern "#include\s+<\w+>" *)
Definition include_re : regex :=
  seq [lit "#include"; plus s; Chr "<"; plus w; Chr ">"].

(** Pattern "int\s+main\s*\(\s*\)" *)
Definition int_main_re : regex :=
  seq [lit "int"; plus s; lit "main"; star s; Chr "("; star s; Chr ")"].

Definition detect_programming_language (code_text : string) : string :=
  if negb (truthy code_text) then "unknown"
  else if CodeParser.found CodeParser.python_def_re code_text
          || CodeParser.found CodeParser.python_class_re code_text
          || CodeParser.found import_re code_text
  then "python"
  else if CodeParser.found public_class_re code_text
          || CodeParser.found public_method_re code_text
  then "java"
  else if CodeParser.found include_re code_text
          || CodeParser.found (lit "std::") code_text
          || CodeParser.found int_main_re code_text
  then "cpp"
  else if CodeParser.found CodeParser.js_function_re code_text
          || CodeParser.found (CodeParser.js_binding_re "const") code_text
          || CodeParser.found (CodeParser.js_binding_re "let") code_text
  then "javascript"
  else if contains "{" code_text && contains "}" code_text
  then (if contains "public" code_text || contains "private" code_text
        then "java" else "cpp")
  else "unknown".

End OCRText.

(* ================================================================== *)
(** * [desktop_app/preprocessing/image_processor.py]: the pipeline *)
(* ================================================================== *)

Module ImagePipeline.

Import Py Cv.
Import ImageProcessor.
Local Open Scope py_scope.

(** The further calls that [preprocess_for_ocr] and the functions it
    calls make on images. *)
Record library : Type := Library {
  cv :> Cv.library;
  size : image cv -> Z;                                     (* image.size *)
  crop : image cv -> box -> image cv;            (* img[y:y+h, x:x+w] *)
  fastNlMeansDenoising : image cv -> outcome (image cv)   (* None, 10, 7, 21 *)
}.

Section WithLibrary.

Variable lib : library.

Definition is_dark_background (gray_image : image lib) : bool :=
  PrimFloat.ltb (np_mean lib gray_image) 128.

(** A step that is taken only on a dark background. *)
Definition invert_if_dark (gray : image lib) : outcome (image lib) :=
  if is_dark_background gray then bitwise_not lib gray else Returns gray.

Definition basic_enhance (img : image lib) : outcome (image lib) :=
  gray <- to_gray lib img ;;
  blurred <- GaussianBlur lib gray 3 ;;
  binary <- adaptiveThreshold lib blurred THRESH_BINARY ;;
  morphologyEx lib binary MORPH_CLOSE.

Definition enhance_problem_region (img : image lib) : outcome (image lib) :=
  gray <- to_gray lib img ;;
  gray <- invert_if_dark gray ;;
  denoised <- fastNlMeansDenoising lib gray ;;
  enhanced <- clahe_apply lib denoised ;;
  binary <- adaptiveThreshold lib enhanced THRESH_BINARY ;;
  morphologyEx lib binary MORPH_CLOSE.

Definition enhance_code_region (img : image lib) : outcome (image lib) :=
  gray <- to_gray lib img ;;
  gray <- invert_if_dark gray ;;
  denoised <- GaussianBlur lib gray 3 ;;
  binary <- threshold_otsu lib denoised ;;
  morphologyEx lib binary MORPH_OPEN.

(** The loop [for region_type, (x, y, w, h) in regions.items():] with the
    dictionary [processed_regions] built so far. *)
Fixpoint process_regions (img : image lib) (items : regions)
  (processed_regions : list (RegionType * image lib))
  : outcome (list (RegionType * image lib)) :=
  match items with
  | [] => Returns processed_regions
  | (region_type, bounds) :: items' =>
      let region_img := crop lib img bounds in
      processed_region <-
        match region_type with
        | PROBLEM => enhance_problem_region region_img
        | CODE => enhance_code_region region_img
        | UNKNOWN => basic_enhance region_img
        end ;;
      process_regions img items'
        (processed_regions ++ [(region_type, processed_region)])%list
  end.

(** [image] is [None] for Python's [None]. *)
Definition preprocess_for_ocr (image : option (image lib))
  : outcome (list (RegionType * Cv.image lib)) :=
  match image with
  | None => Raises (Exception "ValueError")
  | Some image =>
      if (size lib image =? 0)%Z then Raises (Exception "ValueError")
      else
        let img := copy lib image in
        img <- correct_perspective lib img ;;
        found <- detect_regions lib img ;;
        process_regions img found []
  end.

End WithLibrary.

End ImagePipeline.

(* ================================================================== *)
(** * Notions used to state the properties *)
(* ================================================================== *)

Module Notions.

Import PyStr Re CodeParser.

Definition nl : string := String newline "".

(** The code text of scenario A. *)
Definition python_stub : string :=
  "class Solution:" ++ nl
  ++ "    def twoSum(self, nums: List[int], target: int) -> List[int]:" ++ nl
  ++ "        pass".

(** The code text of scenario B. *)
Definition java_stub : string :=
  "public int[] twoSum(int[] nums, int target) {".

(** A JavaScript stub in the style of the sample of the source file. *)
Definition js_stub : string := "var twoSum = function(nums, target) {".

(** A problem text with one example and four constraints (scenario C). *)
Definition problem_sample : string :=
  "1. Two Sum" ++ nl ++ nl
  ++ "Given an array of integers nums and an integer target, return indices."
  ++ nl ++ nl
  ++ "Example 1:" ++ nl ++ nl
  ++ "Input: nums = [2,7,11,15], target = 9" ++ nl
  ++ "Output: [0,1]" ++ nl
  ++ "Explanation: Because nums[0] + nums[1] == 9, we return [0, 1]."
  ++ nl ++ nl
  ++ "Constraints:" ++ nl
  ++ "- 2 <= nums.length <= 10^4" ++ nl
  ++ "- -10^9 <= nums[i] <= 10^9" ++ nl
  ++ "- -10^9 <= target <= 10^9" ++ nl
  ++ "- Only one valid answer exists." ++ nl.

(** Re-parsing the extracted signature gives the same name, parameters
    and return type. *)
Definition reparse_agrees (code_text : string) : Prop :=
  let first := info (parse code_text) in
  let second := info (parse (function_signature first)) in
  function_name second = function_name first
  /\ parameters second = parameters first
  /\ return_type second = return_type first.

(** [",".join(ps)]: a parameter list written from its parameters. *)
Fixpoint join (ps : list string) : string :=
  match ps with
  | [] => ""
  | [p] => p
  | p :: ps' => p ++ "," ++ join ps'
  end.

(** A source-level parameter whose commas are all inside balanced
    delimiters: read from [depth], a closing delimiter and a comma are met
    only at a depth above zero, and the text ends at depth zero. *)
Fixpoint well_nested (opening closing : ascii) (p : string) (depth : Z)
  : bool :=
  match p with
  | EmptyString => Z.eqb depth 0
  | String c p' =>
      if Ascii.eqb c "," then Z.ltb 0 depth && well_nested opening closing p' depth
      else if Ascii.eqb c opening
      then well_nested opening closing p' (depth + 1)
      else if Ascii.eqb c closing
      then Z.ltb 0 depth && well_nested opening closing p' (depth - 1)
      else well_nested opening closing p' depth
  end.

Definition source_parameters (opening closing : ascii) (ps : list string)
  : Prop :=
  Forall (fun p => well_nested opening closing p 0 = true) ps.

(** The parameters as the loop body sees them: stripped, the blank ones
    passed over. *)
Definition stripped (ps : list string) : list string :=
  filter truthy (map strip ps).

(** The text begins with a character that is no word character. *)
Definition starts_unlike_identifier (param : string) : bool :=
  match param with
  | String c _ => negb (isword c)
  | EmptyString => false
  end.

(** ** Matching inside a piece of the text *)

(** A pattern without [^], [$] and lookahead: whether it matches depends
    on the characters it consumes only. *)
Fixpoint plain (r : regex) : bool :=
  match r with
  | Bol | Eol | Ahead _ => false
  | Cat r1 r2 | Alt r1 r2 => plain r1 && plain r2
  | Rep _ _ _ r' | Grp _ r' => plain r'
  | Eps | Chr _ | Any | Cls _ _ => true
  end.

(** Two positions of the matcher, one in a text and one in the same text
    cut short of [suffix]: the same characters ahead up to the cut, the
    same groups. *)
Definition related (suffix : string) (a b : mstate) : Prop :=
  rest a = rest b ++ suffix /\ caps a = caps b.

(** One more copy of a quantified pattern, as [rep_loop] tries it. *)
Definition rep_again (body : mstate -> cont -> option mstate) (lz : bool)
  (fuel lo : nat) (hi : option nat) (st : mstate) (k : cont)
  : option mstate :=
  match hi with
  | Some O => None
  | _ =>
      body st (fun st' =>
        if Nat.ltb (String.length (rest st')) (String.length (rest st))
        then rep_loop body lz fuel (Nat.pred lo) (option_map Nat.pred hi) st' k
        else None)
  end.

(** A successful run ends in a call of the continuation, further on in
    the text. *)
Definition reaches (body : mstate -> cont -> option mstate) : Prop :=
  forall st k x,
    body st k = Some x ->
    exists b w, k b = Some x /\ rest st = w ++ rest b.

(** Where [k_T] fails, [k_s] fails at the related position. *)
Definition fails_alike (suffix : string) (k_T k_s : cont) : Prop :=
  forall b_T b_s, related suffix b_T b_s -> k_T b_T = None -> k_s b_s = None.

(** Where [k_T] answers [x], the cut has not been passed, and [k_s]
    answers something that satisfies [Q]. *)
Definition succeeds_alike (suffix : string) (Q : mstate -> Prop) (x : mstate)
  (k_T k_s : cont) : Prop :=
  forall b_T,
    k_T b_T = Some x ->
    (exists w, rest b_T = w ++ suffix)
    /\ forall b_s, related suffix b_T b_s -> exists y, k_s b_s = Some y /\ Q y.

(** A run that fails on the text fails on the cut text. *)
Definition transfers_failure (suffix : string)
  (body : mstate -> cont -> option mstate) : Prop :=
  forall a_T a_s k_T k_s,
    related suffix a_T a_s -> fails_alike suffix k_T k_s ->
    body a_T k_T = None -> body a_s k_s = None.

(** A run that succeeds on the text before the cut succeeds on the cut
    text. *)
Definition transfers_success (suffix : string)
  (body : mstate -> cont -> option mstate) : Prop :=
  forall Q a_T a_s k_T k_s x,
    related suffix a_T a_s -> fails_alike suffix k_T k_s ->
    succeeds_alike suffix Q x k_T k_s ->
    body a_T k_T = Some x -> exists y, body a_s k_s = Some y /\ Q y.

(** The order of the sort by [key]. *)
Definition ordered_by {A : Type} (key : A -> Z) (a b : A) : Prop :=
  (key a <= key b)%Z.

(** ** Bounding boxes *)

Definition box_w (b : Cv.box) : Z := match b with (_, _, w, _) => w end.
Definition box_h (b : Cv.box) : Z := match b with (_, _, _, h) => h end.

(** The box lies in an image of [h] rows and [w] columns. *)
Definition within (h w : Z) (b : Cv.box) : Prop :=
  match b with
  | (x, y, bw, bh) =>
      (0 <= x /\ 0 <= y /\ 0 <= bw /\ 0 <= bh /\ x + bw <= w /\ y + bh <= h)%Z
  end.

Definition nondegenerate (b : Cv.box) : Prop :=
  (0 < box_w b /\ 0 < box_h b)%Z.

(** What the segmenter relies on from the libraries: the conversion to
    gray and the threshold keep the shape of the image, the row sums have
    one entry per row, and the bounding rectangle of a contour found in an
    image lies in that image and is at least one pixel wide and high. *)
Record library_guarantees (cv : Cv.library) : Prop := {
  cvtColor_shape : forall img gray,
    Cv.cvtColor cv img = Py.Returns gray -> Cv.shape cv gray = Cv.shape cv img;
  copy_shape : forall img, Cv.shape cv (Cv.copy cv img) = Cv.shape cv img;
  threshold_shape : forall img t thresh,
    Cv.adaptiveThreshold cv img t = Py.Returns thresh ->
    Cv.shape cv thresh = Cv.shape cv img;
  sum_rows_length : forall img,
    Z.of_nat (List.length (Cv.np_sum_rows cv img)) = fst (Cv.shape cv img);
  boundingRect_in_image : forall img contours c,
    Cv.findContours cv img = Py.Returns contours -> In c contours ->
    within (fst (Cv.shape cv img)) (snd (Cv.shape cv img))
           (Cv.boundingRect cv c)
    /\ nondegenerate (Cv.boundingRect cv c)
}.

(** The property of C8 at one image. *)
Definition boxes_proper (cv : Cv.library) (img : Cv.image cv) : Prop :=
  forall found region_type b,
    ImageProcessor.detect_regions cv img = Py.Returns found ->
    In (region_type, b) found ->
    within (fst (Cv.shape cv img)) (snd (Cv.shape cv img)) b
    /\ nondegenerate b.

(** ** A small library to run the image code on

    Gray images are lists of rows of pixels.  The threshold is taken
    against the fixed level 128 (a stand-in for the adaptive one, which
    agrees with it on the images used below), [found] lists the contours
    that contour detection reports, each with its bounding rectangle and
    its area, [polygon] is the polygon that approximates a contour and
    [engine] is the OCR engine. *)
Definition toy_image : Type := list (list Z).

Definition toy_shape (img : toy_image) : Z * Z :=
  (Z.of_nat (List.length img), Z.of_nat (List.length (hd [] img))).

Definition fits (hw : Z * Z) (b : Cv.box) : bool :=
  match b with
  | (x, y, bw, bh) =>
      ((0 <=? x) && (0 <=? y) && (0 <? bw) && (0 <? bh)
       && (x + bw <=? snd hw) && (y + bh <=? fst hw))%Z
  end.

Definition toy_library (found : list (Cv.box * PrimFloat.float))
  (polygon : list Cv.point)
  (engine : toy_image -> string -> string -> Py.outcome string)
  : Cv.library :=
  {| Cv.image := toy_image;
     Cv.contour := Cv.box * PrimFloat.float;
     Cv.matrix := unit;
     Cv.ndim := fun _ => 2;
     Cv.shape := toy_shape;
     Cv.copy := fun img => img;
     Cv.cvtColor := fun img => Py.Returns img;
     Cv.GaussianBlur := fun img _ => Py.Returns img;
     Cv.Canny := fun img => Py.Returns img;
     Cv.adaptiveThreshold := fun img t =>
       Py.Returns
         (map (map (fun px =>
            match t with
            | Cv.THRESH_BINARY_INV => if (px <? 128)%Z then 255 else 0
            | Cv.THRESH_BINARY => if (px <? 128)%Z then 0 else 255
            end)%Z) img);
     Cv.threshold_otsu := fun img => Py.Returns img;
     Cv.bitwise_not := fun img => Py.Returns (map (map (fun px => 255 - px)%Z) img);
     Cv.clahe_apply := fun img => Py.Returns img;
     Cv.morphologyEx := fun img _ => Py.Returns img;
     Cv.findContours := fun img =>
       Py.Returns (filter (fun c => fits (toy_shape img) (fst c)) found);
     Cv.contourArea := snd;
     Cv.boundingRect := fst;
     Cv.arcLength := fun _ => 4%float;
     Cv.approxPolyDP := fun _ _ => Py.Returns polygon;
     Cv.getPerspectiveTransform := fun _ _ => Py.Returns tt;
     Cv.warpPerspective := fun img _ _ => Py.Returns img;
     Cv.np_mean := fun img =>
       Np.mean (flat_map (fun row => row) img);
     Cv.np_sum_rows := map (fun row => fold_right Z.add 0%Z row);
     Cv.image_to_string := engine |}.

Definition no_engine : toy_image -> string -> string -> Py.outcome string :=
  fun _ _ _ => Py.Raises (Py.Exception "TesseractNotFoundError").

(** A light image of one pixel. *)
Definition one_pixel : toy_image := [[200%Z]].

(** An image of [n] rows of [n] light pixels. *)
Definition blank_page (n : nat) : toy_image :=
  repeat (repeat 200%Z n) n.

(** Four rows: ink on the first, none on the second, ink on the last
    two. *)
Definition striped_page : toy_image :=
  [[0; 200]; [200; 200]; [0; 200]; [0; 200]]%Z.

End Notions.

(* ================================================================== *)
(** * Further notions *)
(* ================================================================== *)

Module MoreNotions.

Import PyStr Re CodeParser Notions.

(** The characters of a text. *)
Definition chars (s : string) : list ascii := list_ascii_of_string s.

(** A text that does not begin with white space. *)
Definition no_lead (s : string) : Prop :=
  match s with
  | EmptyString => True
  | String c _ => isspace c = false
  end.

(** The number of commas of a text. *)
Fixpoint commas (s : string) : nat :=
  match s with
  | EmptyString => 0
  | String c s' => (if Ascii.eqb c "," then 1 else 0) + commas s'
  end.

(** The least number of characters that a match of the pattern
    consumes. *)
Fixpoint min_len (r : regex) : nat :=
  match r with
  | Eps | Bol | Eol | Ahead _ => 0
  | Chr _ | Any | Cls _ _ => 1
  | Cat r1 r2 => min_len r1 + min_len r2
  | Alt r1 r2 => Nat.min (min_len r1) (min_len r2)
  | Rep _ lo _ r' => match lo with O => 0 | S _ => min_len r' end
  | Grp _ r' => min_len r'
  end.

(** A successful run ends in a call of the continuation at least [n]
    characters further on. *)
Definition advances (n : nat) (body : mstate -> cont -> option mstate)
  : Prop :=
  forall st k x,
    body st k = Some x ->
    exists b, k b = Some x
              /\ String.length (rest b) + n <= String.length (rest st).

(** The last piece of a parameter list whose delimiters do not balance:
    read from [depth], no comma is met at depth zero and the text ends at
    a depth other than zero. *)
Fixpoint open_ended (opening closing : ascii) (p : string) (depth : Z)
  : bool :=
  match p with
  | EmptyString => negb (Z.eqb depth 0)
  | String c p' =>
      if Ascii.eqb c "," && Z.eqb depth 0 then false
      else open_ended opening closing p'
             (if Ascii.eqb c opening then (depth + 1)%Z
              else if Ascii.eqb c closing then (depth - 1)%Z
              else depth)
  end.

(** The result of a parser that found no function. *)
Definition unparsed (r : result) : Prop :=
  function_name r = "" /\ parameters r = [] /\ return_type r = "".

(** A contiguous piece of a text. *)
Definition piece_of (piece text : string) : Prop :=
  exists before after, text = before ++ piece ++ after.

(** A name without surrounding white space and without a comma. *)
Definition plain_name (name : string) : Prop :=
  strip name = name /\ contains "," name = false.

(** What follows the keyword in [constraints_pattern]. *)
Definition after_keyword : regex := seq [opt (Chr ":"); star_lazy Any; Eol].

(** The replacement by the empty text. *)
Definition erase (m : match_obj) : string := "".

(** What is left after a match that runs to the end of the text: nothing,
    or the line break that ends the text. *)
Definition line_end (tail : string) : Prop :=
  tail = "" \/ tail = String newline "".

(** [out] has no occurrence of [keyword], and begins like [text] as far
    as a text without line break can tell. *)
Definition keyword_free (keyword text out : string) : Prop :=
  contains keyword out = false
  /\ forall q, ~ In newline (chars q) ->
               startswith q out = true -> startswith q text = true.

(** The text type that [extract_from_regions] uses for a region. *)
Definition text_type_of (region_type : ImageProcessor.RegionType)
  : OCREngine.TextType :=
  match region_type with
  | ImageProcessor.PROBLEM => OCREngine.PROBLEM
  | ImageProcessor.CODE => OCREngine.CODE
  | ImageProcessor.UNKNOWN => OCREngine.GENERAL
  end.

(** Six rows, ink and blank in turn: the profile has three gap starts
    and two gap ends. *)
Definition ragged_page : toy_image :=
  [[0; 200]; [200; 200]; [0; 200]; [200; 200]; [0; 200]; [200; 200]]%Z.

(** ** What a match consumes and captures *)

(** The texts of a pattern: what a match of it can consume, whatever
    stands around it. *)
Inductive matches (fl : flags) : regex -> string -> Prop :=
| M_Eps : matches fl Eps ""
| M_Chr c : matches fl (Chr c) (String c "")
| M_Any c :
    DOTALL fl || negb (Ascii.eqb c newline) = true ->
    matches fl Any (String c "")
| M_Cls neg items c :
    cls_mem neg items c = true -> matches fl (Cls neg items) (String c "")
| M_Cat r1 r2 u v :
    matches fl r1 u -> matches fl r2 v -> matches fl (Cat r1 r2) (u ++ v)
| M_Alt_l r1 r2 u : matches fl r1 u -> matches fl (Alt r1 r2) u
| M_Alt_r r1 r2 u : matches fl r2 u -> matches fl (Alt r1 r2) u
| M_Rep_stop lz hi r : matches fl (Rep lz 0 hi r) ""
| M_Rep_again lz lo hi r u v :
    hi <> Some 0 ->
    matches fl r u ->
    matches fl (Rep lz (Nat.pred lo) (option_map Nat.pred hi) r) v ->
    matches fl (Rep lz lo hi r) (u ++ v)
| M_Grp n r u : matches fl r u -> matches fl (Grp n r) u
| M_Bol : matches fl Bol ""
| M_Eol : matches fl Eol ""
| M_Ahead r : matches fl (Ahead r) "".

(** Group [n] takes part in every match of the pattern. *)
Fixpoint sets (n : nat) (r : regex) : bool :=
  match r with
  | Grp m r' => Nat.eqb m n || sets n r'
  | Cat r1 r2 => sets n r1 || sets n r2
  | Alt r1 r2 => sets n r1 && sets n r2
  | Rep _ (S _) _ r' => sets n r'
  | Ahead r' => sets n r'
  | _ => false
  end.

(** Every text that the body of a group can consume satisfies [Q] at the
    number of the group. *)
Fixpoint groups_ok (fl : flags) (Q : nat -> string -> Prop) (r : regex)
  : Prop :=
  match r with
  | Grp n r' => groups_ok fl Q r' /\ (forall u, matches fl r' u -> Q n u)
  | Cat r1 r2 | Alt r1 r2 => groups_ok fl Q r1 /\ groups_ok fl Q r2
  | Rep _ _ _ r' | Ahead r' => groups_ok fl Q r'
  | _ => True
  end.

(** From [st] the pattern has reached [b]: the text between them is a
    text of the pattern, the captures added satisfy [Q], and every group
    that takes part in every match is among them. *)
Definition sound (fl : flags) (Q : nat -> string -> Prop) (r : regex)
  (st b : mstate) : Prop :=
  exists u new,
    rest st = u ++ rest b
    /\ matches fl r u
    /\ caps b = (new ++ caps st)%list
    /\ Forall (fun c => Q (fst c) (snd c)) new
    /\ (forall n, sets n r = true -> lookup n new <> None).

(** A non-empty text of word characters. *)
Definition word (t : string) : Prop :=
  t <> "" /\ Forall (fun c => isword c = true) (chars t).

(** Group [idx] is a word. *)
Definition name_is_word (idx : nat) (n : nat) (t : string) : Prop :=
  n = idx -> word t.

(** The pattern is a loop [\w+] (or [\w{n,}] for some [n > 0]). *)
Definition word_loop (r : regex) : bool :=
  match r with
  | Rep _ (S _) _ (Cls false [CWord]) => true
  | _ => false
  end.

(** Every group of number [idx] in the pattern is a loop over word
    characters. *)
Fixpoint names_in (idx : nat) (r : regex) : bool :=
  match r with
  | Grp n r' => names_in idx r' && (negb (Nat.eqb n idx) || word_loop r')
  | Cat r1 r2 | Alt r1 r2 => names_in idx r1 && names_in idx r2
  | Rep _ _ _ r' | Ahead r' => names_in idx r'
  | _ => true
  end.

(** The bodies of the groups of number [idx] in the pattern. *)
Fixpoint bodies_of (idx : nat) (r : regex) : list regex :=
  match r with
  | Grp n r' => (if Nat.eqb n idx then [r'] else []) ++ bodies_of idx r'
  | Cat r1 r2 | Alt r1 r2 => bodies_of idx r1 ++ bodies_of idx r2
  | Rep _ _ _ r' | Ahead r' => bodies_of idx r'
  | _ => []
  end.

(** Group [idx] holds a text of one of the patterns of [bodies]. *)
Definition text_of_body (fl : flags) (idx : nat) (bodies : list regex)
  (n : nat) (t : string) : Prop :=
  n = idx -> exists body, In body bodies /\ matches fl body t.

(** The patterns of the input and of the output of an example: the
    label, an optional colon, white space, the field, up to the next
    label or the end of the text. *)
Definition labelled (label next : string) : regex :=
  seq [lit label; opt (Chr ":"); star s; Grp 1 (star_lazy Any);
       Ahead (alt [lit next; Eol])].

(** No capture. *)
Definition no_capture (n : nat) (t : string) : Prop := False.

(** Every text of the pattern ends in the character [c]. *)
Fixpoint ends_in (c : ascii) (r : regex) : bool :=
  match r with
  | Chr d => Ascii.eqb c d
  | Cat _ r2 => ends_in c r2
  | Grp _ r' => ends_in c r'
  | Alt r1 r2 => ends_in c r1 && ends_in c r2
  | _ => false
  end.

(** Any capture. *)
Definition any_capture (n : nat) (t : string) : Prop := True.




(** The half-split of an image of [h] rows and [w] columns. *)
Definition half_split (h w : Z) : ImageProcessor.regions :=
  [(ImageProcessor.PROBLEM, (0, 0, w, h / 2));
   (ImageProcessor.CODE, (0, h / 2, w, h - h / 2))]%Z.

(** The two boxes tile the image: the Problem box is the rows above [y],
    the Code box the rows from [y] on, both of full width. *)
Definition tiles (h w : Z) (found : ImageProcessor.regions) : Prop :=
  exists y : Z,
    (0 <= y <= h)%Z
    /\ found = [(ImageProcessor.PROBLEM, (0, 0, w, y));
                (ImageProcessor.CODE, (0, y, w, h - y))]%Z.

(** A library whose threshold fails, as OpenCV does on an image of the
    wrong depth. *)
Definition failing_library : Cv.library :=
  let base := toy_library [] [] no_engine in
  {| Cv.image := toy_image;
     Cv.contour := Cv.box * PrimFloat.float;
     Cv.matrix := unit;
     Cv.ndim := Cv.ndim base;
     Cv.shape := Cv.shape base;
     Cv.copy := Cv.copy base;
     Cv.cvtColor := Cv.cvtColor base;
     Cv.GaussianBlur := Cv.GaussianBlur base;
     Cv.Canny := Cv.Canny base;
     Cv.adaptiveThreshold := fun _ _ => Py.Raises (Py.Exception "cv2.error");
     Cv.threshold_otsu := Cv.threshold_otsu base;
     Cv.bitwise_not := Cv.bitwise_not base;
     Cv.clahe_apply := Cv.clahe_apply base;
     Cv.morphologyEx := Cv.morphologyEx base;
     Cv.findContours := Cv.findContours base;
     Cv.contourArea := Cv.contourArea base;
     Cv.boundingRect := Cv.boundingRect base;
     Cv.arcLength := Cv.arcLength base;
     Cv.approxPolyDP := Cv.approxPolyDP base;
     Cv.getPerspectiveTransform := Cv.getPerspectiveTransform base;
     Cv.warpPerspective := Cv.warpPerspective base;
     Cv.np_mean := Cv.np_mean base;
     Cv.np_sum_rows := Cv.np_sum_rows base;
     Cv.image_to_string := Cv.image_to_string base |}.

(** The small library with the calls of the pipeline: an image is cut
    by rows and columns, denoising changes nothing. *)
Definition toy_crop (img : toy_image) (b : Cv.box) : toy_image :=
  match b with
  | (x, y, w, h) =>
      map (fun row => firstn (Z.to_nat w) (skipn (Z.to_nat x) row))
          (firstn (Z.to_nat h) (skipn (Z.to_nat y) img))
  end.

Definition toy_pipeline : ImagePipeline.library :=
  ImagePipeline.Library (toy_library [] [] no_engine)
    (fun img => Z.of_nat (List.length (List.concat img)))
    toy_crop
    (fun img => Py.Returns img).

End MoreNotions.

(* ================================================================== *)
(** * Properties of the matcher *)
(* ================================================================== *)

Module ReFacts.

Import PyStr Re Notions.

Lemma append_assoc (a b c : string) : (a ++ b) ++ c = a ++ (b ++ c).
Proof. induction a as [|x a IH]; simpl; [reflexivity | now rewrite IH]. Qed.

Lemma append_nil_r (a : string) : a ++ "" = a.
Proof. induction a as [|x a IH]; simpl; [reflexivity | now rewrite IH]. Qed.

Lemma append_length (a b : string) :
  String.length (a ++ b) = String.length a + String.length b.
Proof. induction a as [|x a IH]; simpl; [reflexivity | now rewrite IH]. Qed.

Lemma append_cancel_r (a b c : string) : a ++ c = b ++ c -> a = b.
Proof.
  revert b. induction a as [|x a IH]; intros [|y b] H; simpl in H.
  - reflexivity.
  - exfalso. apply (f_equal String.length) in H. simpl in H.
    rewrite append_length in H. lia.
  - exfalso. apply (f_equal String.length) in H. simpl in H.
    rewrite append_length in H. lia.
  - injection H as -> H. f_equal. now apply IH.
Qed.

Lemma take_append (a b : string) : take (String.length a) (a ++ b) = a.
Proof. induction a as [|x a IH]; simpl; [now destruct b | now rewrite IH]. Qed.

Lemma take_append_le (n : nat) (a b : string) :
  n <= String.length a -> take n (a ++ b) = take n a.
Proof.
  revert a. induction n as [|n IH]; intros a Hn; [reflexivity|].
  destruct a as [|x a]; simpl in *; [lia|].
  rewrite IH by lia. reflexivity.
Qed.

Lemma rep_loop_S body lz fuel lo hi st k :
  rep_loop body lz (S fuel) lo hi st k
  = match lo with
    | S _ => rep_again body lz fuel lo hi st k
    | O =>
        if lz then or_else (k st) (fun _ => rep_again body lz fuel lo hi st k)
        else or_else (rep_again body lz fuel lo hi st k) (fun _ => k st)
    end.
Proof. reflexivity. Qed.

Lemma run_Rep fl lz lo hi r st k :
  run fl (Rep lz lo hi r) st k
  = rep_loop (run fl r) lz (S (String.length (rest st))) lo hi st k.
Proof. reflexivity. Qed.

Lemma run_Grp fl n r st k :
  run fl (Grp n r) st k
  = run fl r st (fun st' =>
      k (MState (prev st') (rest st') ((n, consumed st st') :: caps st'))).
Proof. reflexivity. Qed.

Lemma or_else_Some a b x :
  or_else a b = Some x -> a = Some x \/ (a = None /\ b tt = Some x).
Proof. destruct a; simpl; intros H; [left; exact H | right; now split]. Qed.

Lemma or_else_None a b :
  or_else a b = None -> a = None /\ b tt = None.
Proof. destruct a; simpl; intros H; [discriminate | now split]. Qed.

(** ** Where a successful run ends *)

Lemma eat_reaches p : reaches (eat p).
Proof.
  intros st k x. unfold eat.
  destruct (rest st) as [|c t] eqn:Hr; [discriminate|].
  destruct (p c); [|discriminate].
  intros H. exists (MState (Some c) t (caps st)), (String c "").
  split; [exact H | reflexivity].
Qed.

Lemma rep_loop_reaches body lz :
  reaches body ->
  forall fuel lo hi, reaches (rep_loop body lz fuel lo hi).
Proof.
  intros Hbody. induction fuel as [|fuel IH]; intros lo hi st k x H.
  - simpl in H. destruct lo; [|discriminate].
    exists st, "". split; [exact H | reflexivity].
  - rewrite rep_loop_S in H.
    assert (Hagain : rep_again body lz fuel lo hi st k = Some x ->
                     exists b w, k b = Some x /\ rest st = w ++ rest b).
    { unfold rep_again. intros Ha.
      assert (Hcall :
        body st (fun st' =>
          if Nat.ltb (String.length (rest st')) (String.length (rest st))
          then rep_loop body lz fuel (Nat.pred lo) (option_map Nat.pred hi) st' k
          else None) = Some x)
        by (destruct hi as [[|n]|]; [discriminate | exact Ha | exact Ha]).
      apply Hbody in Hcall. destruct Hcall as (b & w & Hb & Hw).
      destruct (Nat.ltb (String.length (rest b)) (String.length (rest st)));
        [|discriminate].
      apply IH in Hb. destruct Hb as (b' & w' & Hb' & Hw').
      exists b', (w ++ w'). split; [exact Hb'|].
      rewrite Hw, Hw'. now rewrite append_assoc. }
    destruct lo as [|lo]; [|now apply Hagain].
    destruct lz; apply or_else_Some in H;
      destruct H as [H | [_ H]]; auto;
      exists st, ""; (split; [exact H | reflexivity]).
Qed.

Lemma run_reaches fl r : reaches (run fl r).
Proof.
  induction r as [| c | | neg items | r1 IH1 r2 IH2 | r1 IH1 r2 IH2
                 | lz lo hi r IH | n r IH | | | r IH]; intros st k x H.
  - exists st, "". split; [exact H | reflexivity].
  - now apply eat_reaches in H.
  - now apply eat_reaches in H.
  - now apply eat_reaches in H.
  - simpl in H. apply IH1 in H. destruct H as (b & w & H & Hw).
    apply IH2 in H. destruct H as (b' & w' & H & Hw').
    exists b', (w ++ w'). split; [exact H|].
    rewrite Hw, Hw'. now rewrite append_assoc.
  - simpl in H. apply or_else_Some in H. destruct H as [H | [_ H]].
    + now apply IH1.
    + now apply IH2.
  - rewrite run_Rep in H. now apply (rep_loop_reaches _ lz IH) in H.
  - rewrite run_Grp in H. apply IH in H. destruct H as (b & w & H & Hw).
    eexists; exists w. split; [exact H | exact Hw].
  - simpl in H. destruct (at_bol fl st); [|discriminate].
    exists st, "". split; [exact H | reflexivity].
  - simpl in H. destruct (at_eol fl st); [|discriminate].
    exists st, "". split; [exact H | reflexivity].
  - simpl in H. destruct (run fl r st Some) as [st'|]; [|discriminate].
    eexists; exists "". split; [exact H | reflexivity].
Qed.

(** ** Runs on a text and on the text cut short *)

Section CutShort.

Variable suffix : string.

Local Abbreviation fails_alike := (Notions.fails_alike suffix).
Local Abbreviation succeeds_alike := (Notions.succeeds_alike suffix).
Local Abbreviation transfers_failure := (Notions.transfers_failure suffix).
Local Abbreviation transfers_success := (Notions.transfers_success suffix).

Lemma related_length a_T a_s :
  related suffix a_T a_s ->
  String.length (rest a_T) = String.length (rest a_s) + String.length suffix.
Proof. intros [H _]. rewrite H. apply append_length. Qed.

Lemma related_progress a_T a_s b_T b_s :
  related suffix a_T a_s -> related suffix b_T b_s ->
  Nat.ltb (String.length (rest b_T)) (String.length (rest a_T))
  = Nat.ltb (String.length (rest b_s)) (String.length (rest a_s)).
Proof.
  intros Ha Hb. apply related_length in Ha, Hb. rewrite Ha, Hb.
  destruct (Nat.ltb_spec (String.length (rest b_s)) (String.length (rest a_s)));
    [apply Nat.ltb_lt | apply Nat.ltb_ge]; lia.
Qed.

Lemma related_consumed a_T a_s b_T b_s :
  related suffix a_T a_s -> related suffix b_T b_s ->
  consumed a_T b_T = consumed a_s b_s.
Proof.
  intros Ha Hb. unfold consumed.
  rewrite (related_length _ _ Ha), (related_length _ _ Hb).
  destruct Ha as [Ha _]. rewrite Ha.
  replace (String.length (rest a_s) + String.length suffix
           - (String.length (rest b_s) + String.length suffix))
    with (String.length (rest a_s) - String.length (rest b_s)) by lia.
  apply take_append_le. lia.
Qed.

Lemma related_capture n a_T a_s b_T b_s :
  related suffix a_T a_s -> related suffix b_T b_s ->
  related suffix
    (MState (prev b_T) (rest b_T) ((n, consumed a_T b_T) :: caps b_T))
    (MState (prev b_s) (rest b_s) ((n, consumed a_s b_s) :: caps b_s)).
Proof.
  intros Ha Hb. rewrite (related_consumed _ _ _ _ Ha Hb).
  destruct Hb as [Hr Hc]. split; simpl; [exact Hr | now rewrite Hc].
Qed.

Lemma eat_transfers_failure p : transfers_failure (eat p).
Proof.
  intros a_T a_s k_T k_s [Hr Hc] Hk. unfold eat. rewrite Hr.
  destruct (rest a_s) as [|c t]; [reflexivity|]. simpl.
  destruct (p c); [|reflexivity].
  apply Hk. split; simpl; [reflexivity | exact Hc].
Qed.

Lemma eat_transfers_success p : transfers_success (eat p).
Proof.
  intros Q a_T a_s k_T k_s x [Hr Hc] Hf Hs. unfold eat.
  destruct (rest a_T) as [|c t] eqn:Ht; [discriminate|].
  destruct (p c) eqn:Hp; [|discriminate].
  intros Hx. destruct (Hs _ Hx) as [[w Hw] Hy]. simpl in Hw. subst t.
  assert (Hs' : rest a_s = String c w)
    by (apply (append_cancel_r _ _ suffix); now rewrite <- Hr).
  rewrite Hs', Hp. apply Hy. split; simpl; [reflexivity | exact Hc].
Qed.

Section Loop.

Variable body : mstate -> cont -> option mstate.
Variable lz : bool.
Hypothesis body_reaches : reaches body.
Hypothesis body_failure : transfers_failure body.
Hypothesis body_success : transfers_success body.

Lemma rep_loop_transfers_failure :
  forall fuel_s fuel_T lo hi a_T a_s k_T k_s,
    related suffix a_T a_s ->
    String.length (rest a_s) < fuel_s ->
    String.length (rest a_T) < fuel_T ->
    fails_alike k_T k_s ->
    rep_loop body lz fuel_T lo hi a_T k_T = None ->
    rep_loop body lz fuel_s lo hi a_s k_s = None.
Proof.
  induction fuel_s as [|fuel_s IH];
    intros fuel_T lo hi a_T a_s k_T k_s Ha Hfs HfT Hk H; [lia|].
  destruct fuel_T as [|fuel_T]; [lia|].
  rewrite rep_loop_S in *.
  assert (Hagain : rep_again body lz fuel_T lo hi a_T k_T = None ->
                   rep_again body lz fuel_s lo hi a_s k_s = None).
  { unfold rep_again. destruct hi as [[|n]|]; [reflexivity | |];
      (apply body_failure; [exact Ha|]);
      intros b_T b_s Hb;
      rewrite (related_progress _ _ _ _ Ha Hb);
      (destruct (Nat.ltb_spec (String.length (rest b_s))
                   (String.length (rest a_s))); [|reflexivity]);
      (apply IH; [exact Hb | lia | | exact Hk]);
      pose proof (related_length _ _ Ha); pose proof (related_length _ _ Hb);
      lia. }
  destruct lo as [|lo]; [|now apply Hagain].
  destruct lz; apply or_else_None in H; destruct H as [H1 H2].
  - rewrite (Hk _ _ Ha H1). simpl. now apply Hagain.
  - rewrite (Hagain H1). simpl. now apply (Hk _ _ Ha).
Qed.

Lemma rep_loop_transfers_success :
  forall fuel_s fuel_T lo hi Q a_T a_s k_T k_s x,
    related suffix a_T a_s ->
    String.length (rest a_s) < fuel_s ->
    String.length (rest a_T) < fuel_T ->
    fails_alike k_T k_s ->
    succeeds_alike Q x k_T k_s ->
    rep_loop body lz fuel_T lo hi a_T k_T = Some x ->
    exists y, rep_loop body lz fuel_s lo hi a_s k_s = Some y /\ Q y.
Proof.
  induction fuel_s as [|fuel_s IH];
    intros fuel_T lo hi Q a_T a_s k_T k_s x Ha Hfs HfT Hf Hs H; [lia|].
  destruct fuel_T as [|fuel_T]; [lia|].
  rewrite rep_loop_S in *.
  pose proof (related_length _ _ Ha) as Hlen.
  assert (Hnone : rep_again body lz fuel_T lo hi a_T k_T = None ->
                  rep_again body lz fuel_s lo hi a_s k_s = None).
  { unfold rep_again. destruct hi as [[|n]|]; [reflexivity | |];
      (apply body_failure; [exact Ha|]);
      intros b_T b_s Hb;
      rewrite (related_progress _ _ _ _ Ha Hb);
      (destruct (Nat.ltb_spec (String.length (rest b_s))
                   (String.length (rest a_s))); [|reflexivity]);
      (apply rep_loop_transfers_failure; [exact Hb | lia | | exact Hf]);
      pose proof (related_length _ _ Hb); lia. }
  assert (Hsome : rep_again body lz fuel_T lo hi a_T k_T = Some x ->
                  exists y, rep_again body lz fuel_s lo hi a_s k_s = Some y
                            /\ Q y).
  { unfold rep_again.
    assert (Hcall : forall hi',
      body a_T (fun st' =>
        if Nat.ltb (String.length (rest st')) (String.length (rest a_T))
        then rep_loop body lz fuel_T (Nat.pred lo) hi' st' k_T
        else None) = Some x ->
      exists y,
        body a_s (fun st' =>
          if Nat.ltb (String.length (rest st')) (String.length (rest a_s))
          then rep_loop body lz fuel_s (Nat.pred lo) hi' st' k_s
          else None) = Some y /\ Q y).
    { intros hi'. apply body_success; [exact Ha | |].
      - intros b_T b_s Hb.
        rewrite (related_progress _ _ _ _ Ha Hb).
        destruct (Nat.ltb_spec (String.length (rest b_s))
                    (String.length (rest a_s))); [|reflexivity].
        apply rep_loop_transfers_failure; [exact Hb | lia | | exact Hf].
        pose proof (related_length _ _ Hb). lia.
      - intros b_T Hb.
        destruct (Nat.ltb_spec (String.length (rest b_T))
                    (String.length (rest a_T))) as [Hlt|]; [|discriminate].
        split.
        + apply (rep_loop_reaches _ lz body_reaches) in Hb.
          destruct Hb as (c & w & Hc & Hw).
          destruct (Hs _ Hc) as [[w' Hw'] _].
          exists (w ++ w'). rewrite Hw, Hw'. now rewrite append_assoc.
        + intros b_s Hbs.
          rewrite <- (related_progress _ _ _ _ Ha Hbs).
          apply Nat.ltb_lt in Hlt. rewrite Hlt.
          pose proof (related_length _ _ Hbs).
          apply Nat.ltb_lt in Hlt.
          eapply IH; [exact Hbs | lia | | exact Hf | exact Hs | exact Hb].
          lia. }
    destruct hi as [[|n]|]; [discriminate | apply Hcall | apply Hcall]. }
  destruct lo as [|lo]; [|now apply Hsome].
  destruct lz; apply or_else_Some in H; destruct H as [H | [H1 H2]].
  - destruct (Hs _ H) as [_ Hy]. destruct (Hy _ Ha) as (y & Hy1 & Hy2).
    exists y. rewrite Hy1. now split.
  - rewrite (Hf _ _ Ha H1). simpl. now apply Hsome.
  - destruct (Hsome H) as (y & Hy1 & Hy2). exists y. rewrite Hy1. now split.
  - rewrite (Hnone H1). simpl.
    destruct (Hs _ H2) as [_ Hy]. now apply Hy.
Qed.

End Loop.

Lemma run_transfers_failure fl r :
  plain r = true -> transfers_failure (run fl r).
Proof.
  induction r as [| c | | neg items | r1 IH1 r2 IH2 | r1 IH1 r2 IH2
                 | lz lo hi r IH | n r IH | | | r IH];
    intros Hp; simpl in Hp; try discriminate.
  - intros a_T a_s k_T k_s Ha Hk H. now apply (Hk _ _ Ha).
  - apply eat_transfers_failure.
  - apply eat_transfers_failure.
  - apply eat_transfers_failure.
  - apply andb_prop in Hp. destruct Hp as [Hp1 Hp2].
    intros a_T a_s k_T k_s Ha Hk H. simpl in *.
    eapply (IH1 Hp1); [exact Ha | | exact H].
    intros b_T b_s Hb. now apply (IH2 Hp2).
  - apply andb_prop in Hp. destruct Hp as [Hp1 Hp2].
    intros a_T a_s k_T k_s Ha Hk H. simpl in *.
    apply or_else_None in H. destruct H as [H1 H2].
    rewrite (IH1 Hp1 _ _ _ _ Ha Hk H1). simpl.
    now apply (IH2 Hp2 _ _ _ _ Ha Hk).
  - intros a_T a_s k_T k_s Ha Hk H. rewrite run_Rep in *.
    eapply (rep_loop_transfers_failure _ lz (IH Hp)); try eassumption; lia.
  - intros a_T a_s k_T k_s Ha Hk H. rewrite run_Grp in *.
    eapply (IH Hp); [exact Ha | | exact H].
    intros b_T b_s Hb. apply Hk. now apply related_capture.
Qed.

Lemma run_transfers_success fl r :
  plain r = true -> transfers_success (run fl r).
Proof.
  induction r as [| c | | neg items | r1 IH1 r2 IH2 | r1 IH1 r2 IH2
                 | lz lo hi r IH | n r IH | | | r IH];
    intros Hp; simpl in Hp; try discriminate.
  - intros Q a_T a_s k_T k_s x Ha Hf Hs H.
    destruct (Hs _ H) as [_ Hy]. now apply Hy.
  - apply eat_transfers_success.
  - apply eat_transfers_success.
  - apply eat_transfers_success.
  - apply andb_prop in Hp. destruct Hp as [Hp1 Hp2].
    intros Q a_T a_s k_T k_s x Ha Hf Hs H. simpl in *.
    eapply (IH1 Hp1); [exact Ha | | | exact H].
    + intros b_T b_s Hb. now apply (run_transfers_failure fl r2 Hp2).
    + intros b_T Hb. split.
      * apply run_reaches in Hb. destruct Hb as (c & w & Hc & Hw).
        destruct (Hs _ Hc) as [[w' Hw'] _].
        exists (w ++ w'). rewrite Hw, Hw'. now rewrite append_assoc.
      * intros b_s Hbs. now apply (IH2 Hp2 Q b_T b_s k_T k_s x).
  - apply andb_prop in Hp. destruct Hp as [Hp1 Hp2].
    intros Q a_T a_s k_T k_s x Ha Hf Hs H. simpl in *.
    apply or_else_Some in H. destruct H as [H | [H1 H2]].
    + destruct (IH1 Hp1 Q _ _ _ _ _ Ha Hf Hs H) as (y & Hy1 & Hy2).
      exists y. rewrite Hy1. now split.
    + rewrite (run_transfers_failure fl r1 Hp1 _ _ _ _ Ha Hf H1). simpl.
      now apply (IH2 Hp2 Q _ _ _ _ _ Ha Hf Hs).
  - intros Q a_T a_s k_T k_s x Ha Hf Hs H. rewrite run_Rep in *.
    eapply (rep_loop_transfers_success _ lz (run_reaches fl r)
              (run_transfers_failure fl r Hp) (IH Hp));
      try eassumption; lia.
  - intros Q a_T a_s k_T k_s x Ha Hf Hs H. rewrite run_Grp in *.
    eapply (IH Hp); [exact Ha | | | exact H].
    + intros b_T b_s Hb. apply Hf. now apply related_capture.
    + intros b_T Hb. destruct (Hs _ Hb) as [Hw Hy]. split; [exact Hw|].
      intros b_s Hbs. apply Hy. now apply related_capture.
Qed.

End CutShort.

(** ** Searching in the matched text alone *)

Lemma take_all (a : string) : take (String.length a) a = a.
Proof.
  rewrite <- (append_nil_r a) at 2. apply take_append.
Qed.

(** The subject of a match is the matched text followed by the rest. *)
Lemma match_at_shape fl r p text pos m :
  match_at fl r p text pos = Some m -> text = m_text m ++ m_after m.
Proof.
  unfold match_at.
  destruct (run fl r (MState p text []) Some) as [st'|] eqn:H; [|discriminate].
  intros [= <-]. simpl.
  apply run_reaches in H. destruct H as (b & w & [= ->] & Hw). simpl in Hw.
  unfold consumed. simpl. rewrite Hw, append_length.
  replace (String.length w + String.length (rest st')
           - String.length (rest st')) with (String.length w) by lia.
  now rewrite take_append.
Qed.

Lemma search_from_shape fl r :
  forall text p pos m,
    search_from fl r p text pos = Some m ->
    exists before, text = before ++ m_text m ++ m_after m.
Proof.
  induction text as [|c text IH]; intros p pos m; simpl.
  - destruct (match_at fl r p "" pos) as [m'|] eqn:H; [|discriminate].
    intros [= <-]. exists "". now apply match_at_shape in H.
  - destruct (match_at fl r p (String c text) pos) as [m'|] eqn:H.
    + intros [= <-]. exists "". now apply match_at_shape in H.
    + intros Hs. apply IH in Hs. destruct Hs as (before & Hb).
      exists (String c before). simpl. now rewrite <- Hb.
Qed.

(** A match found in a text is found again, with the same groups, at the
    start of the matched text taken alone. *)
Lemma match_at_local fl r p p' text pos m :
  plain r = true ->
  match_at fl r p text pos = Some m ->
  exists m',
    match_at fl r p' (m_text m) 0 = Some m'
    /\ m_caps m' = m_caps m /\ m_text m' = m_text m.
Proof.
  intros Hp H. pose proof (match_at_shape _ _ _ _ _ _ H) as Hshape.
  unfold match_at in *.
  destruct (run fl r (MState p text []) Some) as [x|] eqn:Hrun; [|discriminate].
  injection H as <-. simpl in *.
  set (s0 := consumed (MState p text []) x) in *.
  destruct (run_transfers_success (rest x) fl r Hp
              (fun y => rest y = "" /\ caps y = caps x)
              (MState p text []) (MState p' s0 []) Some Some x)
    as (y & Hy & Hrest & Hcaps).
  - split; [exact Hshape | reflexivity].
  - intros b_T b_s _ Hb. discriminate Hb.
  - intros b_T [= ->]. split; [now exists ""|].
    intros b_s [Hr Hc]. exists b_s. repeat split; [|now symmetry].
    apply (append_cancel_r _ _ (rest x)). now rewrite <- Hr.
  - exact Hrun.
  - rewrite Hy. eexists. split; [reflexivity|]. simpl. split; [exact Hcaps|].
    unfold consumed. simpl. rewrite Hrest. simpl.
    rewrite Nat.sub_0_r. apply take_all.
Qed.

Lemma search_local fl r text m :
  plain r = true ->
  search fl r text = Some m ->
  exists m',
    search fl r (m_text m) = Some m'
    /\ m_caps m' = m_caps m /\ m_text m' = m_text m.
Proof.
  intros Hp. unfold search. generalize (@None ascii) at 1. generalize 0 at 1.
  induction text as [|c text IH]; intros pos p; simpl.
  - destruct (match_at fl r p "" pos) as [m0|] eqn:H; [|discriminate].
    intros [= <-].
    destruct (match_at_local fl r p None _ _ _ Hp H) as (m' & H' & Hc & Ht).
    exists m'. split; [|now split].
    destruct (m_text m0); simpl; now rewrite H'.
  - destruct (match_at fl r p (String c text) pos) as [m0|] eqn:H.
    + intros [= <-].
      destruct (match_at_local fl r p None _ _ _ Hp H) as (m' & H' & Hc & Ht).
      exists m'. split; [|now split].
      destruct (m_text m0); simpl; now rewrite H'.
    + apply IH.
Qed.

(** No match in a text, no match in a part of it. *)
Lemma match_at_none_cut fl r p p' s0 suffix pos pos' :
  plain r = true ->
  match_at fl r p (s0 ++ suffix) pos = None ->
  match_at fl r p' s0 pos' = None.
Proof.
  intros Hp. unfold match_at.
  destruct (run fl r (MState p (s0 ++ suffix) []) Some) eqn:H; [discriminate|].
  intros _.
  rewrite (run_transfers_failure suffix fl r Hp
             (MState p (s0 ++ suffix) []) (MState p' s0 []) Some Some);
    [reflexivity | now split | | exact H].
  intros b_T b_s _ Hb. discriminate Hb.
Qed.

Lemma search_from_none_cut fl r suffix :
  plain r = true ->
  forall s0 p p' pos pos',
    search_from fl r p (s0 ++ suffix) pos = None ->
    search_from fl r p' s0 pos' = None.
Proof.
  intros Hp. induction s0 as [|c s0 IH]; intros p p' pos pos' H.
  - assert (Hm : match_at fl r p ("" ++ suffix) pos = None).
    { simpl in *. destruct suffix; simpl in H;
        destruct (match_at fl r p _ pos); [discriminate | reflexivity
                                          | discriminate | reflexivity]. }
    simpl. now rewrite (match_at_none_cut fl r p p' "" suffix pos pos' Hp Hm).
  - simpl in H.
    destruct (match_at fl r p (String c (s0 ++ suffix)) pos) eqn:Hm;
      [discriminate|].
    simpl.
    rewrite (match_at_none_cut fl r p p' (String c s0) suffix pos pos' Hp Hm).
    now apply (IH (Some c) (Some c) (S pos)).
Qed.

Lemma search_from_none_drop fl r :
  plain r = true ->
  forall before text p p' pos pos',
    search_from fl r p (before ++ text) pos = None ->
    search_from fl r p' text pos' = None.
Proof.
  intros Hp. induction before as [|c before IH]; intros text p p' pos pos' H.
  - simpl in H. apply (search_from_none_cut fl r "" Hp text p p' pos pos').
    now rewrite append_nil_r.
  - simpl in H.
    destruct (match_at fl r p (String c (before ++ text)) pos);
      [discriminate|].
    now apply (IH text (Some c) p' (S pos) pos').
Qed.

Lemma search_none_inside fl r before text after :
  plain r = true ->
  search fl r (before ++ text ++ after) = None ->
  search fl r text = None.
Proof.
  intros Hp H. unfold search in *.
  apply (search_from_none_drop fl r Hp before _ None None 0 0) in H.
  now apply (search_from_none_cut fl r after Hp text None None 0 0).
Qed.

(** A pattern that finds nothing in a text finds nothing in what another
    pattern matched there. *)
Lemma search_none_in_match fl fl' r r' text m :
  plain r = true ->
  search fl r text = None ->
  search fl' r' text = Some m ->
  search fl r (m_text m) = None.
Proof.
  intros Hp Hnone Hm. unfold search in Hm.
  apply search_from_shape in Hm. destruct Hm as (before & Hshape).
  rewrite Hshape in Hnone.
  now apply (search_none_inside fl r before _ (m_after m)).
Qed.

End ReFacts.

(* ================================================================== *)
(** * Properties of the code parser and of the problem parser *)
(* ================================================================== *)

Module ParserFacts.

Import PyStr Re CodeParser Notions ReFacts.

Ltac fields :=
  cbv beta iota delta
    [function_signature function_name parameters return_type class_context].

Ltac same_groups Hc :=
  unfold group_str, group_truthy, group; rewrite Hc; repeat split.

(** C1, as the code behaves: the Java line of scenario B matches neither
    Java pattern of [_detect_language] (both want a return type made of
    word characters only, and [int[]] is not), it has no closing brace for
    the brace heuristic, and the generic pattern finds no function in it.
    [parse] answers language ['unknown'] with every field empty, not the
    record of the scenario. *)
Theorem java_scenario_parses_as_unknown :
  parse java_stub = CodeInfo "unknown" (Result "" "" [] "" "").
Proof. vm_compute. reflexivity. Qed.

(** The same line inside a class with its closing braces is taken for
    Java through the brace heuristic, and [_parse_java] still finds no
    method in it. *)
Lemma java_class_stub_has_no_method :
  let r := parse ("class Solution {" ++ nl ++ "    " ++ java_stub ++ nl
                  ++ "    }" ++ nl ++ "}") in
  language r = "java" /\ function_name (info r) = ""
  /\ parameters (info r) = [] /\ return_type (info r) = "".
Proof. vm_compute. repeat split; reflexivity. Qed.

(** C3: on the empty string both parsers return their empty record.  The
    embedded functions are total, and the guard returns before any other
    call is made. *)
Theorem empty_text_gives_defaults :
  ProblemParser.parse "" = ProblemParser.ProblemInfo "" "" [] []
  /\ parse "" = CodeInfo "unknown" (Result "" "" [] "" "").
Proof. split; reflexivity. Qed.

(** The problem parser on a text that is not empty: the title without
    its number, one example with its three fields, four constraints. *)
Lemma problem_sample_parses :
  ProblemParser.parse problem_sample
  = ProblemParser.ProblemInfo
      "Two Sum"
      "Given an array of integers nums and an integer target, return indices."
      [ProblemParser.ExampleRec
         "nums = [2,7,11,15], target = 9" "[0,1]"
         "Because nums[0] + nums[1] == 9, we return [0, 1]."]
      ["- 2 <= nums.length <= 10^4"; "- -10^9 <= nums[i] <= 10^9";
       "- -10^9 <= target <= 10^9"; "- Only one valid answer exists."].
Proof. vm_compute. reflexivity. Qed.

(** C4: scenario A. *)
Theorem python_scenario :
  let r := parse python_stub in
  language r = "python"
  /\ function_name (info r) = "twoSum"
  /\ return_type (info r) = "List[int]"
  /\ parameters (info r) =
       [Param "self" "" None; Param "nums" "List[int]" None;
        Param "target" "int" None].
Proof. vm_compute. repeat split; reflexivity. Qed.

(** ** Re-parsing the extracted signature *)

(** C2 fails: the signature extracted from the JavaScript stub is
    [function(nums, target) {], in which no language is detected and no
    function is found. *)
Lemma reparse_differs_on_js_stub :
  function_signature (info (parse js_stub)) <> ""
  /\ ~ reparse_agrees js_stub.
Proof.
  split.
  - vm_compute. discriminate.
  - unfold reparse_agrees. vm_compute. intros [H _]. discriminate H.
Qed.

(** It also fails within one language: the second cleaning spaces out an
    operator that the first one left alone. *)
Lemma reparse_differs_on_python_default :
  function_signature (info (parse "def f(a=1-2):")) <> ""
  /\ ~ reparse_agrees "def f(a=1-2):".
Proof.
  split.
  - vm_compute. discriminate.
  - unfold reparse_agrees. vm_compute. intros [_ [H _]]. discriminate H.
Qed.

(** ** The parameter loop *)

Section Loop.

Variables opening closing : ascii.
Variable decompose : string -> list parameter.
Hypothesis opening_no_comma : Ascii.eqb "," opening = false.
Hypothesis closing_no_comma : Ascii.eqb "," closing = false.

Local Abbreviation loop := (param_loop opening closing decompose).

(** Reading a well-nested parameter only extends [current_param]. *)
Lemma loop_reads_parameter (p tail : string) :
  forall depth current params,
    well_nested opening closing p depth = true ->
    loop (p ++ tail) depth current params
    = loop tail 0%Z (current ++ p) params.
Proof.
  induction p as [|c p IH]; simpl; intros depth current params H.
  - apply Z.eqb_eq in H. subst depth. now rewrite append_nil_r.
  - simpl.
    destruct (Ascii.eqb c ",") eqn:Hc.
    + apply andb_prop in H. destruct H as [Hd H].
      apply Z.ltb_lt in Hd.
      replace (Z.eqb depth 0) with false
        by (symmetry; apply Z.eqb_neq; lia).
      simpl. apply Ascii.eqb_eq in Hc. subst c.
      rewrite opening_no_comma, closing_no_comma.
      rewrite IH by assumption.
      now rewrite append_assoc.
    + simpl.
      destruct (Ascii.eqb c opening).
      * rewrite IH by assumption. now rewrite append_assoc.
      * destruct (Ascii.eqb c closing).
        -- apply andb_prop in H. destruct H as [_ H].
           rewrite IH by assumption. now rewrite append_assoc.
        -- rewrite IH by assumption. now rewrite append_assoc.
Qed.

(** A comma at depth zero hands the parameter read so far to the body. *)
Lemma loop_cuts_at_comma (tail current : string) (params : list parameter) :
  loop (String "," tail) 0%Z current params
  = loop tail 0%Z ""
      (if truthy (strip current)
       then (params ++ decompose (strip current))%list else params).
Proof. reflexivity. Qed.

Lemma flat_map_stripped_cons (p : string) (ps : list string) :
  flat_map decompose (stripped (p :: ps))
  = ((if truthy (strip p) then decompose (strip p) else [])
     ++ flat_map decompose (stripped ps))%list.
Proof.
  unfold stripped. simpl. destruct (truthy (strip p)); reflexivity.
Qed.

Lemma loop_over_join (ps : list string) :
  ps <> [] ->
  source_parameters opening closing ps ->
  forall params,
    loop (join ps ++ ",") 0%Z "" params
    = (params ++ flat_map decompose (stripped ps))%list.
Proof.
  induction ps as [|p ps IH]; intros Hne Hps params; [congruence|].
  inversion Hps as [|? ? Hp Hrest]; subst.
  rewrite flat_map_stripped_cons.
  destruct ps as [|q ps].
  - simpl join. rewrite (loop_reads_parameter p) by assumption.
    rewrite loop_cuts_at_comma. simpl.
    unfold stripped. simpl. rewrite app_nil_r.
    destruct (truthy (strip p)); [reflexivity | now rewrite app_nil_r].
  - change (join (p :: q :: ps)) with (p ++ "," ++ join (q :: ps)).
    rewrite append_assoc. rewrite (loop_reads_parameter p) by assumption.
    change (("," ++ join (q :: ps)) ++ ",")
      with (String "," (join (q :: ps) ++ ",")).
    rewrite loop_cuts_at_comma. simpl append.
    rewrite IH by (assumption || discriminate).
    destruct (truthy (strip p)); [now rewrite <- app_assoc | reflexivity].
Qed.

Lemma join_empty (ps : list string) :
  join ps = "" -> stripped ps = [].
Proof.
  destruct ps as [|p [|q ps]]; simpl; intros H.
  - reflexivity.
  - subst p. reflexivity.
  - destruct p; discriminate H.
Qed.

Lemma split_params_join (ps : list string) :
  source_parameters opening closing ps ->
  split_params opening closing decompose (join ps)
  = flat_map decompose (stripped ps).
Proof.
  intros Hps. unfold split_params.
  destruct (truthy (join ps)) eqn:Ht.
  - assert (ps <> []) by (intros ->; discriminate Ht).
    now apply (loop_over_join ps).
  - destruct (join ps) eqn:Hj; [|discriminate Ht].
    now rewrite (join_empty ps Hj).
Qed.

End Loop.

(** ** Parameters that the Python sub-pattern does not accept *)

Lemma py_param_rejects (param : string) :
  starts_unlike_identifier param = true -> py_param param = [].
Proof.
  destruct param as [|c rest]; simpl; [discriminate|].
  intros H. apply negb_true_iff in H.
  unfold py_param, re_match, match_at. simpl.
  unfold eat, cls_mem. simpl. rewrite H. reflexivity.
Qed.

Lemma py_param_at_most_one (param : string) :
  List.length (py_param param) <= 1.
Proof.
  unfold py_param. destruct (re_match no_flags py_param_re param); simpl; lia.
Qed.

Lemma flat_map_short {A B : Type} (f : A -> list B) (l : list A) :
  (forall x, List.length (f x) <= 1) ->
  List.length (flat_map f l) <= List.length l.
Proof.
  intros Hf. induction l as [|x l IH]; simpl; [lia|].
  rewrite length_app. specialize (Hf x). lia.
Qed.

Lemma flat_map_shorter {A B : Type} (f : A -> list B) (l : list A) :
  (forall x, List.length (f x) <= 1) ->
  Exists (fun x => f x = []) l ->
  List.length (flat_map f l) < List.length l.
Proof.
  intros Hf Hex. induction Hex as [x l Hx | x l Hex IH]; simpl.
  - rewrite Hx. simpl. pose proof (flat_map_short f l Hf). lia.
  - rewrite length_app. specialize (Hf x). lia.
Qed.

Lemma stripped_keeps_unlike (ps : list string) :
  Exists (fun p => starts_unlike_identifier (strip p) = true) ps ->
  Exists (fun param => py_param param = []) (stripped ps).
Proof.
  intros Hex. induction Hex as [p ps Hp | p ps Hex IH]; unfold stripped; simpl.
  - destruct (strip p) eqn:Hs; [discriminate Hp|]. simpl.
    apply Exists_cons_hd. now apply py_param_rejects.
  - destruct (truthy (strip p)); [apply Exists_cons_tl|]; exact IH.
Qed.

(** C10: the Python loop body adds no entry for a parameter that begins
    with a character other than a word character ([*args], [**kwargs]):
    the sub-pattern is anchored on [\w+] and [if param_match:] has no
    other branch.  So as soon as one written parameter begins that way,
    [parameters] is shorter than the list of written parameters, as for
    [def f(a, *args, **kwargs):], where one of three is returned. *)
Theorem starred_python_parameters_are_omitted :
  (forall param : string,
      starts_unlike_identifier param = true -> py_param param = [])
  /\ (forall ps : list string,
        source_parameters "[" "]" ps ->
        Exists (fun p => starts_unlike_identifier (strip p) = true) ps ->
        List.length (split_params "[" "]" py_param (join ps))
        < List.length (stripped ps))
  /\ (let r := info (parse "def f(a, *args, **kwargs):") in
      function_signature r = "def f(a, *args, **kwargs):"
      /\ stripped ["a"; " *args"; " **kwargs"] = ["a"; "*args"; "**kwargs"]
      /\ parameters r = [Param "a" "" None]).
Proof.
  split; [exact py_param_rejects | split].
  - intros ps Hps Hex.
    rewrite split_params_join by (assumption || reflexivity).
    apply flat_map_shorter.
    + exact py_param_at_most_one.
    + now apply stripped_keeps_unlike.
  - vm_compute. repeat split; reflexivity.
Qed.

Lemma starred_python_parameters_are_omitted_witness :
  py_param "*args" = []
  /\ List.length (split_params "[" "]" py_param "a, *args")
     < List.length (stripped ["a"; " *args"]).
Proof.
  split.
  - exact (proj1 starred_python_parameters_are_omitted "*args" eq_refl).
  - exact (proj1 (proj2 starred_python_parameters_are_omitted)
             ["a"; " *args"]
             ltac:(repeat constructor)
             ltac:(apply Exists_cons_tl; apply Exists_cons_hd; reflexivity)).
Defined.

(** ** Re-parsing a signature that cleaning and detection leave alone *)

Lemma python_reparse (text : string) :
  function_signature (_parse_python text) <> "" ->
  let again := _parse_python (function_signature (_parse_python text)) in
  function_name again = function_name (_parse_python text)
  /\ parameters again = parameters (_parse_python text)
  /\ return_type again = return_type (_parse_python text).
Proof.
  unfold _parse_python.
  destruct (search no_flags py_func_re text) as [m|] eqn:Hm; fields;
    [intros _ | intros H; now contradiction H].
  destruct (search_local no_flags py_func_re _ _ eq_refl Hm) as (m' & -> & Hc & Ht).
  fields. same_groups Hc.
Qed.

Lemma java_reparse (text : string) :
  function_signature (_parse_java text) <> "" ->
  let again := _parse_java (function_signature (_parse_java text)) in
  function_name again = function_name (_parse_java text)
  /\ parameters again = parameters (_parse_java text)
  /\ return_type again = return_type (_parse_java text).
Proof.
  unfold _parse_java.
  destruct (search no_flags java_func_re text) as [m|] eqn:Hm; fields;
    [intros _ | intros H; now contradiction H].
  destruct (search_local no_flags java_func_re _ _ eq_refl Hm) as (m' & -> & Hc & Ht).
  fields. same_groups Hc.
Qed.

Lemma cpp_reparse (text : string) :
  function_signature (_parse_cpp text) <> "" ->
  let again := _parse_cpp (function_signature (_parse_cpp text)) in
  function_name again = function_name (_parse_cpp text)
  /\ parameters again = parameters (_parse_cpp text)
  /\ return_type again = return_type (_parse_cpp text).
Proof.
  unfold _parse_cpp.
  destruct (search no_flags cpp_func_re text) as [m|] eqn:Hm; fields;
    [intros _ | intros H; now contradiction H].
  destruct (search_local no_flags cpp_func_re _ _ eq_refl Hm) as (m' & -> & Hc & Ht).
  fields. same_groups Hc.
Qed.

Lemma generic_reparse (text : string) :
  function_signature (_parse_generic text) <> "" ->
  let again := _parse_generic (function_signature (_parse_generic text)) in
  function_name again = function_name (_parse_generic text)
  /\ parameters again = parameters (_parse_generic text)
  /\ return_type again = return_type (_parse_generic text).
Proof.
  unfold _parse_generic.
  destruct (search no_flags generic_func_re text) as [m|] eqn:Hm; fields;
    [intros _ | intros H; now contradiction H].
  destruct (search_local no_flags generic_func_re _ _ eq_refl Hm) as (m' & -> & Hc & Ht).
  fields. same_groups Hc.
Qed.

(** The pattern that matched the text matches the signature, and with
    the same groups; the patterns tried before it fail on both. *)
Lemma js_func_match_local (text : string) (m : match_obj) (ngroups : nat) :
  js_func_match text = Some (m, ngroups) ->
  exists m',
    js_func_match (m_text m) = Some (m', ngroups)
    /\ m_caps m' = m_caps m /\ m_text m' = m_text m.
Proof.
  unfold js_func_match.
  destruct (search no_flags js_standard_re text) as [m1|] eqn:H1.
  - intros [= <- <-].
    destruct (search_local no_flags js_standard_re _ _ eq_refl H1) as (m' & -> & Hc & Ht).
    now exists m'.
  - destruct (search no_flags js_arrow_re text) as [m2|] eqn:H2.
    + intros [= <- <-].
      rewrite (search_none_in_match no_flags no_flags js_standard_re _ _ _ eq_refl H1 H2).
      destruct (search_local no_flags js_arrow_re _ _ eq_refl H2) as (m' & -> & Hc & Ht).
      now exists m'.
    + destruct (search no_flags js_method_re text) as [m3|] eqn:H3;
        [|discriminate].
      intros [= <- <-].
      rewrite (search_none_in_match no_flags no_flags js_standard_re _ _ _ eq_refl H1 H3).
      rewrite (search_none_in_match no_flags no_flags js_arrow_re _ _ _ eq_refl H2 H3).
      destruct (search_local no_flags js_method_re _ _ eq_refl H3) as (m' & -> & Hc & Ht).
      now exists m'.
Qed.

Lemma javascript_reparse (text : string) :
  function_signature (_parse_javascript text) <> "" ->
  let again := _parse_javascript (function_signature (_parse_javascript text)) in
  function_name again = function_name (_parse_javascript text)
  /\ parameters again = parameters (_parse_javascript text)
  /\ return_type again = return_type (_parse_javascript text).
Proof.
  unfold _parse_javascript.
  destruct (js_func_match text) as [[m ngroups]|] eqn:Hm; fields;
    [intros _ | intros H; now contradiction H].
  destruct (js_func_match_local _ _ _ Hm) as (m' & -> & Hc & Ht).
  fields. same_groups Hc.
Qed.

Lemma parse_as_reparse (language text : string) :
  function_signature (parse_as language text) <> "" ->
  let again :=
    parse_as language (function_signature (parse_as language text)) in
  function_name again = function_name (parse_as language text)
  /\ parameters again = parameters (parse_as language text)
  /\ return_type again = return_type (parse_as language text).
Proof.
  unfold parse_as.
  destruct (String.eqb language "python"); [apply python_reparse|].
  destruct (String.eqb language "java"); [apply java_reparse|].
  destruct (String.eqb language "cpp"); [apply cpp_reparse|].
  destruct (String.eqb language "javascript"); [apply javascript_reparse|].
  apply generic_reparse.
Qed.

Lemma parse_truthy (code_text : string) :
  truthy code_text = true ->
  parse code_text
  = CodeInfo (_detect_language (_clean_code_text code_text))
      (parse_as (_detect_language (_clean_code_text code_text))
                (_clean_code_text code_text)).
Proof. intros H. unfold parse. now rewrite H. Qed.

(** C2, as the code has it: [parse] cleans its argument and detects the
    language afresh on every call.  When cleaning leaves the extracted
    signature as it is and the language detected in the signature alone is
    the language of the first parse, the second parse finds the same
    match with the same groups, hence the same name, parameters and return
    type. *)
Theorem reparse_agrees_when_stable :
  forall code_text : string,
    let signature := function_signature (info (parse code_text)) in
    signature <> "" ->
    _clean_code_text signature = signature ->
    _detect_language signature = language (parse code_text) ->
    reparse_agrees code_text.
Proof.
  intros code_text signature Hsig Hclean Hlang.
  unfold reparse_agrees. fold signature.
  assert (Htext : truthy code_text = true).
  { destruct code_text; [|reflexivity]. now contradiction Hsig. }
  assert (Hs : truthy signature = true)
    by (destruct signature; [now contradiction Hsig | reflexivity]).
  rewrite (parse_truthy signature Hs), Hclean, Hlang.
  unfold signature in *. clear signature.
  rewrite (parse_truthy code_text Htext) in *.
  cbv beta iota delta [info language] in *.
  now apply parse_as_reparse.
Qed.

Lemma reparse_agrees_when_stable_witness : reparse_agrees python_stub.
Proof.
  apply (reparse_agrees_when_stable python_stub).
  - vm_compute. discriminate.
  - vm_compute. reflexivity.
  - vm_compute. reflexivity.
Defined.

End ParserFacts.

(* ================================================================== *)
(** * Properties of the image code and of the OCR engine *)
(* ================================================================== *)

Module ImageFacts.

Import Py Cv Notions.
Import ImageProcessor.

(** C7: when contour detection finds no contour, or the polygon that
    approximates the contour of the greatest area does not have four
    vertices, [correct_perspective] returns its argument; the calls made
    on the way having returned, nothing is raised. *)
Theorem correct_perspective_identity :
  forall (cv : library) (img gray blurred edges : image cv)
         (contours : list (contour cv)),
    to_gray cv img = Returns gray ->
    GaussianBlur cv gray 5 = Returns blurred ->
    Canny cv blurred = Returns edges ->
    findContours cv edges = Returns contours ->
    (contours = []
     \/ exists c rest approx,
          contours = c :: rest
          /\ approxPolyDP cv (max_area_from cv rest c)
               (0.02 * arcLength cv (max_area_from cv rest c))%float
             = Returns approx
          /\ List.length approx <> 4) ->
    correct_perspective cv img = Returns img.
Proof.
  intros cv img gray blurred edges contours Hg Hb He Hc Hcase.
  unfold correct_perspective. rewrite Hg. simpl.
  rewrite Hb. simpl. rewrite He. simpl. rewrite Hc. simpl.
  destruct Hcase as [-> | (c & rest & approx & -> & Ha & Hlen)].
  - reflexivity.
  - rewrite Ha. simpl.
    apply Nat.eqb_neq in Hlen. now rewrite Hlen.
Qed.

Lemma correct_perspective_identity_witness :
  correct_perspective (toy_library [] [] no_engine) (blank_page 3)
  = Returns (blank_page 3)
  /\ correct_perspective
       (toy_library [((0, 0, 2, 2), 4%float)]%Z [(0, 0); (2, 0); (0, 2)]%Z
          no_engine)
       (blank_page 3)
     = Returns (blank_page 3).
Proof.
  split.
  - apply (correct_perspective_identity (toy_library [] [] no_engine)
             (blank_page 3) (blank_page 3) (blank_page 3) (blank_page 3) []);
      try reflexivity.
    left. reflexivity.
  - apply (correct_perspective_identity
             (toy_library [((0, 0, 2, 2), 4%float)]%Z
                [(0, 0); (2, 0); (0, 2)]%Z no_engine)
             (blank_page 3) (blank_page 3) (blank_page 3) (blank_page 3)
             [((0, 0, 2, 2), 4%float)]%Z);
      try reflexivity.
    right. exists ((0, 0, 2, 2)%Z, 4%float), [], [(0, 0); (2, 0); (0, 2)]%Z.
    repeat split. simpl. lia.
Defined.

(** ** The stable sort *)

Section SortedFacts.

Variable A : Type.
Variable key : A -> Z.

Local Abbreviation ordered := (ordered_by key).

Lemma In_insert (x y : A) (l : list A) :
  In y (insert A key x l) <-> y = x \/ In y l.
Proof.
  induction l as [|z l IH]; simpl.
  - intuition congruence.
  - destruct (key x <=? key z)%Z; simpl; [intuition congruence|].
    rewrite IH. intuition congruence.
Qed.

Lemma In_sorted (y : A) (l : list A) :
  In y (sorted A key l) <-> In y l.
Proof.
  induction l as [|x l IH]; simpl; [tauto|].
  rewrite In_insert, IH. intuition congruence.
Qed.

Lemma insert_ordered (x : A) (l : list A) :
  Sorted.StronglySorted ordered l ->
  Sorted.StronglySorted ordered (insert A key x l).
Proof.
  induction 1 as [|z l Hs IH Hz]; simpl.
  - constructor; [constructor | constructor].
  - destruct (key x <=? key z)%Z eqn:Hxz.
    + apply Z.leb_le in Hxz. constructor.
      * now constructor.
      * constructor; [exact Hxz|].
        eapply Forall_impl; [|exact Hz]. unfold ordered_by. intros; lia.
    + apply Z.leb_gt in Hxz. constructor; [exact IH|].
      apply Forall_forall. intros y Hy. apply In_insert in Hy.
      destruct Hy as [-> | Hy]; [unfold ordered_by; lia|].
      rewrite Forall_forall in Hz. now apply Hz.
Qed.

Lemma sorted_ordered (l : list A) :
  Sorted.StronglySorted ordered (sorted A key l).
Proof.
  induction l as [|x l IH]; simpl; [constructor | now apply insert_ordered].
Qed.

Lemma ordered_head (first : A) (l : list A) :
  Sorted.StronglySorted ordered (first :: l) ->
  forall c, In c (first :: l) -> (key first <= key c)%Z.
Proof.
  intros Hs c [<- | Hc]; [lia|].
  inversion Hs as [|? ? _ Hall]; subst.
  rewrite Forall_forall in Hall. now apply Hall.
Qed.

Lemma ordered_last (l : list A) (default : A) :
  Sorted.StronglySorted ordered l ->
  forall c, In c l -> (key c <= key (last l default))%Z.
Proof.
  induction 1 as [|z l Hs IH Hz]; intros c Hc; [contradiction|].
  destruct l as [|y l].
  - destruct Hc as [<- | []]. simpl. lia.
  - change (last (z :: y :: l) default) with (last (y :: l) default).
    destruct Hc as [<- | Hc].
    + rewrite Forall_forall in Hz. apply Hz.
      destruct (exists_last (l := y :: l)) as (l' & a & Heq); [discriminate|].
      rewrite Heq, last_last. apply in_or_app. right. now left.
    + now apply IH.
Qed.

Lemma last_In (l : list A) (default : A) :
  l <> [] -> In (last l default) l.
Proof.
  intros Hne. destruct (exists_last Hne) as (l' & a & ->).
  rewrite last_last. apply in_or_app. right. now left.
Qed.

End SortedFacts.

(** ** The contour method *)

Lemma contour_layout_found (cv : library) (contours : list (contour cv))
  (h w : Z) :
  2 <= List.length (valid_contours cv contours h w) ->
  exists top bottom,
    In top (valid_contours cv contours h w)
    /\ In bottom (valid_contours cv contours h w)
    /\ (forall c, In c (valid_contours cv contours h w) ->
          (box_y (boundingRect cv top) <= box_y (boundingRect cv c)
           <= box_y (boundingRect cv bottom))%Z)
    /\ contour_layout cv contours h w
       = Some [(PROBLEM, boundingRect cv top);
               (CODE, boundingRect cv bottom)].
Proof.
  intros Hlen. unfold contour_layout.
  set (valid := valid_contours cv contours h w) in *.
  set (key := fun c => box_y (boundingRect cv c)).
  apply Nat.leb_le in Hlen. rewrite Hlen.
  pose proof (sorted_ordered _ key valid) as Hs.
  destruct (sorted (contour cv) key valid) as [|first rest] eqn:Hsorted.
  - exfalso. destruct valid as [|c valid']; [discriminate Hlen|].
    assert (Hin : In c (sorted (contour cv) key (c :: valid')))
      by (apply In_sorted; now left).
    rewrite Hsorted in Hin. contradiction.
  - exists first, (last (first :: rest) first).
    assert (Hmem : forall c, In c valid <-> In c (first :: rest))
      by (intros c; rewrite <- Hsorted; symmetry; apply In_sorted).
    repeat split.
    + apply Hmem. now left.
    + apply Hmem. apply last_In. discriminate.
    + apply (ordered_head _ key first rest Hs). now apply Hmem.
    + apply (ordered_last _ key (first :: rest) first Hs). now apply Hmem.
Qed.

(** C6: when the contour method finds two or more contours above 1% of
    the image area, the bounding rectangle of a valid contour whose top
    coordinate is the least becomes the Problem region and that of a valid
    contour whose top coordinate is the greatest becomes the Code region
    (among equal tops, the first and the last found). *)
Theorem topmost_is_problem_bottommost_is_code :
  forall (cv : library) (img gray thresh : image cv)
         (contours : list (contour cv)),
    to_gray cv img = Returns gray ->
    adaptiveThreshold cv gray THRESH_BINARY_INV = Returns thresh ->
    findContours cv thresh = Returns contours ->
    let valid :=
      valid_contours cv contours (fst (shape cv gray)) (snd (shape cv gray)) in
    2 <= List.length valid ->
    exists top bottom,
      In top valid /\ In bottom valid
      /\ (forall c, In c valid ->
            (box_y (boundingRect cv top) <= box_y (boundingRect cv c)
             <= box_y (boundingRect cv bottom))%Z)
      /\ detect_regions cv img
         = Returns [(PROBLEM, boundingRect cv top);
                    (CODE, boundingRect cv bottom)].
Proof.
  intros cv img gray thresh contours Hg Ht Hc valid Hlen.
  destruct (contour_layout_found cv contours _ _ Hlen)
    as (top & bottom & Htop & Hbottom & Hbounds & Hlayout).
  exists top, bottom. repeat split; try assumption; try apply Hbounds;
    try assumption.
  unfold detect_regions. rewrite Hg. simpl.
  unfold _analyze_layout. destruct (shape cv gray) as [h w] eqn:Hshape.
  unfold analyze_layout_body. rewrite Ht. simpl. rewrite Hc. simpl.
  simpl in Hlayout. rewrite Hlayout. reflexivity.
Qed.

Lemma topmost_is_problem_bottommost_is_code_witness :
  let cv :=
    toy_library [((2, 10, 6, 4), 24%float); ((1, 2, 8, 4), 32%float)]%Z
      [] no_engine in
  exists top bottom : contour cv,
    (box_y (boundingRect cv top) <= box_y (boundingRect cv bottom))%Z
    /\ detect_regions cv (blank_page 20)
       = Returns [(PROBLEM, boundingRect cv top);
                  (CODE, boundingRect cv bottom)].
Proof.
  intros cv.
  destruct (topmost_is_problem_bottommost_is_code cv
              (blank_page 20) (blank_page 20)
              (map (map (fun _ => 0%Z)) (blank_page 20))
              [((2, 10, 6, 4), 24%float); ((1, 2, 8, 4), 32%float)]%Z
              eq_refl eq_refl eq_refl)
    as (top & bottom & Htop & _ & Hbounds & Hregions).
  - vm_compute. lia.
  - exists top, bottom. split; [apply (Hbounds top Htop) | exact Hregions].
Defined.

(** ** The projection profile *)

Lemma where_eq_range (v : Z) (a : list Z) :
  forall i x, In x (Np.where_eq v a i) ->
              (i <= x < i + Z.of_nat (List.length a))%Z.
Proof.
  induction a as [|y a IH]; simpl; intros i x Hx; [contradiction|].
  destruct (Z.eqb y v).
  - destruct Hx as [<- | Hx]; [lia|]. apply IH in Hx. lia.
  - apply IH in Hx. lia.
Qed.

Lemma diff_length (a : list Z) :
  List.length (Np.diff a) = Nat.pred (List.length a).
Proof.
  induction a as [|x [|y a] IH]; simpl in *; try reflexivity.
  now rewrite IH.
Qed.

Lemma gaps_of_length (h_projection : list Z) :
  List.length (gaps_of h_projection) = List.length h_projection.
Proof. unfold gaps_of. now rewrite length_map. Qed.

Lemma item_In (a : list Z) (i : nat) (x : Z) :
  Np.item a i = Returns x -> In x a.
Proof.
  unfold Np.item. destruct (nth_error a i) eqn:H; [|discriminate].
  intros [= <-]. eapply nth_error_In. exact H.
Qed.

(** The split row is a row of the image other than the last. *)
Lemma projection_split_range (h_projection : list Z) (split_y : Z) :
  projection_split h_projection = Returns (Some split_y) ->
  (0 <= split_y <= Z.of_nat (List.length h_projection) - 2)%Z.
Proof.
  unfold projection_split.
  set (gaps := gaps_of h_projection).
  set (gap_starts := Np.where_eq 1 (Np.diff gaps) 0).
  set (gap_ends := Np.where_eq (-1) (Np.diff gaps) 0).
  destruct (Nat.ltb 0 (List.length gap_starts)
            && Nat.ltb 0 (List.length gap_ends)); [|discriminate].
  destruct (Np.subtract gap_ends gap_starts) as [gap_lengths|e];
    simpl; [|discriminate].
  destruct (Nat.ltb 0 (List.length gap_lengths)); [|discriminate].
  destruct (Np.argmax gap_lengths) as [idx|e]; simpl; [|discriminate].
  destruct (Np.item gap_starts idx) as [gap_start|e] eqn:Hs;
    simpl; [|discriminate].
  destruct (Np.item gap_ends idx) as [gap_end|e] eqn:He;
    simpl; [|discriminate].
  intros [= <-].
  apply item_In, where_eq_range in Hs.
  apply item_In, where_eq_range in He.
  rewrite diff_length in Hs, He.
  unfold gaps in Hs, He. rewrite gaps_of_length in Hs, He.
  split.
  - apply Z.div_pos; lia.
  - apply Z.div_le_upper_bound; lia.
Qed.

(** ** The three ways in which [detect_regions] gets its regions *)

Lemma to_gray_shape (cv : library) (img gray : image cv) :
  library_guarantees cv ->
  to_gray cv img = Returns gray -> shape cv gray = shape cv img.
Proof.
  intros G. unfold to_gray. destruct (Nat.eqb (ndim cv img) 3).
  - apply (cvtColor_shape cv G).
  - intros [= <-]. apply (copy_shape cv G).
Qed.

Lemma contour_layout_members (cv : library) (contours : list (contour cv))
  (h w : Z) (found : regions) :
  contour_layout cv contours h w = Some found ->
  exists top bottom,
    In top contours /\ In bottom contours
    /\ found = [(PROBLEM, boundingRect cv top);
                (CODE, boundingRect cv bottom)].
Proof.
  unfold contour_layout.
  set (valid := valid_contours cv contours h w).
  set (key := fun c => box_y (boundingRect cv c)).
  destruct (Nat.leb 2 (List.length valid)); [|discriminate].
  destruct (sorted (contour cv) key valid) as [|first rest] eqn:Hsorted;
    [discriminate|].
  intros [= <-].
  assert (Hmem : forall c, In c (first :: rest) -> In c contours).
  { intros c Hc. rewrite <- Hsorted in Hc. apply In_sorted in Hc.
    unfold valid, valid_contours in Hc. now apply filter_In in Hc. }
  exists first, (last (first :: rest) first). repeat split.
  - apply Hmem. now left.
  - apply Hmem. apply last_In. discriminate.
Qed.

Lemma analyze_layout_cases (cv : library) (gray : image cv)
  (found : regions) :
  _analyze_layout cv gray = Returns found ->
  found = []
  \/ (exists thresh contours top bottom,
        adaptiveThreshold cv gray THRESH_BINARY_INV = Returns thresh
        /\ findContours cv thresh = Returns contours
        /\ In top contours /\ In bottom contours
        /\ found = [(PROBLEM, boundingRect cv top);
                    (CODE, boundingRect cv bottom)])
  \/ (exists thresh split_y,
        adaptiveThreshold cv gray THRESH_BINARY_INV = Returns thresh
        /\ projection_split (np_sum_rows cv thresh) = Returns (Some split_y)
        /\ found = [(PROBLEM, (0, 0, snd (shape cv gray), split_y));
                    (CODE, (0, split_y, snd (shape cv gray),
                            fst (shape cv gray) - split_y))]%Z).
Proof.
  unfold _analyze_layout. destruct (shape cv gray) as [h w]. simpl.
  unfold analyze_layout_body.
  destruct (adaptiveThreshold cv gray THRESH_BINARY_INV) as [thresh|[n|n]]
    eqn:Ht; simpl; try discriminate; [|intros [= <-]; now left].
  destruct (findContours cv thresh) as [contours|[n|n]] eqn:Hc; simpl;
    try discriminate; [|intros [= <-]; now left].
  destruct (contour_layout cv contours h w) as [layout|] eqn:Hl.
  - simpl. intros [= <-].
    destruct (contour_layout_members cv contours h w layout Hl)
      as (top & bottom & Htop & Hbottom & ->).
    right. left. exists thresh, contours, top, bottom. repeat split; assumption.
  - destruct (projection_split (np_sum_rows cv thresh)) as [[split_y|]|[n|n]]
      eqn:Hp; simpl; try discriminate; intros [= <-]; try (now left).
    right. right. exists thresh, split_y. repeat split. exact Hp.
Qed.

(** The small library keeps its promises, whatever it is made to find. *)
Lemma toy_library_guarantees found polygon engine :
  library_guarantees (toy_library found polygon engine).
Proof.
  constructor; simpl.
  - intros img gray [= <-]. reflexivity.
  - reflexivity.
  - intros img t thresh [= <-]. unfold toy_shape.
    rewrite length_map. destruct img as [|row img]; simpl; [reflexivity|].
    now rewrite length_map.
  - intros img. now rewrite length_map.
  - intros img contours c [= <-] Hc. apply filter_In in Hc.
    destruct Hc as [_ Hfits]. destruct c as [[[[x y] bw] bh] area]. simpl in *.
    unfold nondegenerate, box_w, box_h.
    repeat (apply andb_prop in Hfits; destruct Hfits as [Hfits ?]).
    repeat match goal with
           | H : (_ <=? _)%Z = true |- _ => apply Z.leb_le in H
           | H : (_ <? _)%Z = true |- _ => apply Z.ltb_lt in H
           end.
    lia.
Qed.

(** C8 fails on an image of height one: no contour, no gap, and the
    upper half of the half-split has no row. *)
Lemma one_pixel_image_has_degenerate_box :
  library_guarantees (toy_library [] [] no_engine)
  /\ shape (toy_library [] [] no_engine) one_pixel = (1, 1)%Z
  /\ ~ boxes_proper (toy_library [] [] no_engine) one_pixel.
Proof.
  split; [apply toy_library_guarantees | split; [reflexivity|]].
  intros H.
  destruct (H [(PROBLEM, (0, 0, 1, 0)); (CODE, (0, 0, 1, 1))]%Z
              PROBLEM (0, 0, 1, 0)%Z) as [_ [_ Hh]].
  - vm_compute. reflexivity.
  - now left.
  - unfold box_h in Hh. lia.
Qed.

(** The projection method has the same outcome when the longest gap
    begins on the second row: the split falls on row zero. *)
Lemma striped_page_splits_at_row_zero :
  detect_regions (toy_library [] [] no_engine) striped_page
  = Returns [(PROBLEM, (0, 0, 2, 0)); (CODE, (0, 0, 2, 4))]%Z.
Proof. vm_compute. reflexivity. Qed.

(** C8, as the code has it: every box that [detect_regions] returns for
    an image of at least one row and one column lies within the image and
    is at least one pixel wide; it is at least one pixel high too, except
    the Problem box [(0, 0, w, 0)] that is returned when the half-split is
    applied to an image of height one, or when the projection split falls
    on row zero. *)
Theorem detect_regions_boxes :
  forall (cv : library) (img : image cv) (found : regions)
         (region_type : RegionType) (b : box),
    library_guarantees cv ->
    (1 <= fst (shape cv img))%Z ->
    (1 <= snd (shape cv img))%Z ->
    detect_regions cv img = Returns found ->
    In (region_type, b) found ->
    within (fst (shape cv img)) (snd (shape cv img)) b
    /\ (nondegenerate b
        \/ (region_type = PROBLEM
            /\ b = (0, 0, snd (shape cv img), 0)%Z
            /\ (fst (shape cv img) = 1%Z
                \/ exists gray thresh,
                     to_gray cv img = Returns gray
                     /\ adaptiveThreshold cv gray THRESH_BINARY_INV
                        = Returns thresh
                     /\ projection_split (np_sum_rows cv thresh)
                        = Returns (Some 0%Z)))).
Proof.
  intros cv img found region_type b G Hh Hw Hdetect Hin.
  unfold detect_regions in Hdetect.
  destruct (to_gray cv img) as [gray|e] eqn:Hg; simpl in Hdetect;
    [|discriminate].
  pose proof (to_gray_shape cv img gray G Hg) as Hshape.
  destruct (_analyze_layout cv gray) as [layout|e] eqn:Hl; simpl in Hdetect;
    [|discriminate].
  destruct (analyze_layout_cases cv gray layout Hl)
    as [-> | [(thresh & contours & top & bottom & Ht & Hc & Htop & Hbot & ->)
             | (thresh & split_y & Ht & Hp & ->)]].
  - (* the half-split *)
    rewrite Hshape in Hdetect. destruct (shape cv img) as [h w]. simpl in *.
    injection Hdetect as <-.
    destruct Hin as [[= <- <-] | [[= <- <-] | []]];
      unfold within, nondegenerate, box_w, box_h.
    + split; [Z.div_mod_to_equations; lia|].
      destruct (Z.eq_dec h 1) as [-> | Hne].
      * right. repeat split. now left.
      * left. Z.div_mod_to_equations; lia.
    + split; [Z.div_mod_to_equations; lia|].
      left. Z.div_mod_to_equations; lia.
  - (* the contour method *)
    injection Hdetect as <-.
    pose proof (threshold_shape cv G gray _ thresh Ht) as Hts.
    rewrite Hshape in Hts. rewrite <- Hts.
    destruct Hin as [[= <- <-] | [[= <- <-] | []]].
    + destruct (boundingRect_in_image cv G thresh contours top Hc Htop).
      split; [assumption | now left].
    + destruct (boundingRect_in_image cv G thresh contours bottom Hc Hbot).
      split; [assumption | now left].
  - (* the projection split *)
    injection Hdetect as <-.
    pose proof (projection_split_range _ _ Hp) as Hrange.
    rewrite (sum_rows_length cv G thresh) in Hrange.
    rewrite (threshold_shape cv G gray _ thresh Ht) in Hrange.
    rewrite Hshape in *. destruct (shape cv img) as [h w]. simpl in *.
    destruct Hin as [[= <- <-] | [[= <- <-] | []]];
      unfold within, nondegenerate, box_w, box_h.
    + split; [lia|].
      destruct (Z.eq_dec split_y 0) as [-> | Hne].
      * right. repeat split. right. exists gray, thresh. repeat split;
          assumption.
      * left. lia.
    + split; [lia|]. left. lia.
Qed.

Lemma detect_regions_boxes_witness :
  within 4 2 (0, 0, 2, 0)%Z /\ within 20 20 (0, 10, 20, 10)%Z.
Proof.
  split.
  - exact (proj1 (detect_regions_boxes (toy_library [] [] no_engine)
                    striped_page
                    [(PROBLEM, (0, 0, 2, 0)); (CODE, (0, 0, 2, 4))]%Z
                    PROBLEM (0, 0, 2, 0)%Z
                    (toy_library_guarantees [] [] no_engine)
                    ltac:(vm_compute; discriminate)
                    ltac:(vm_compute; discriminate)
                    striped_page_splits_at_row_zero
                    (or_introl eq_refl))).
  - exact (proj1 (detect_regions_boxes (toy_library [] [] no_engine)
                    (blank_page 20)
                    [(PROBLEM, (0, 0, 20, 10)); (CODE, (0, 10, 20, 10))]%Z
                    CODE (0, 10, 20, 10)%Z
                    (toy_library_guarantees [] [] no_engine)
                    ltac:(vm_compute; discriminate)
                    ltac:(vm_compute; discriminate)
                    ltac:(vm_compute; reflexivity)
                    (or_intror (or_introl eq_refl)))).
Defined.

End ImageFacts.

Module OCRFacts.

Import Py Cv Notions.
Import OCREngine.

(** Every region gets a text. *)
Lemma extract_from_regions_loop_continues (cv : library) (self_lang : string) :
  forall items results,
    (forall region_type region_image,
        In (region_type, region_image) items ->
        forall text_type, exists preprocessed,
          preprocess_image cv region_image text_type = Returns preprocessed
          /\ forall lang config name,
               image_to_string cv preprocessed lang config
               <> Raises (BaseException name)) ->
    exists texts,
      extract_from_regions_loop cv self_lang items results = Returns texts
      /\ map fst texts = (map fst results ++ map fst items)%list.
Proof.
  induction items as [|[region_type region_image] items IH];
    intros results Hok; simpl.
  - exists results. now rewrite app_nil_r.
  - assert (Htext : forall text_type, exists text,
               extract_text cv self_lang region_image text_type None
               = Returns text).
    { intros text_type.
      destruct (Hok region_type region_image (or_introl eq_refl) text_type)
        as (pre & Hpre & Hengine).
      unfold extract_text. rewrite Hpre. simpl.
      match goal with
      | |- context [image_to_string cv pre ?l ?c] =>
          specialize (Hengine l c);
          destruct (image_to_string cv pre l c) as [text|[name|name]]
      end; simpl; eauto.
      exfalso. now apply (Hengine name). }
    assert (Hrest : forall text, exists texts,
               extract_from_regions_loop cv self_lang items
                 (results ++ [(region_type, text)])%list = Returns texts
               /\ map fst texts
                  = (map fst results ++ region_type :: map fst items)%list).
    { intros text.
      destruct (IH (results ++ [(region_type, text)])%list) as (texts & Ht & Hk).
      - intros rt ri Hin. apply (Hok rt ri). now right.
      - exists texts. split; [exact Ht|].
        rewrite Hk, map_app, <- app_assoc. reflexivity. }
    destruct region_type;
      match goal with
      | |- context [extract_text cv self_lang region_image ?tt None] =>
          destruct (Htext tt) as (text & ->)
      end; simpl; apply Hrest.
Qed.

(** C9: when the call of the OCR engine raises an exception (an instance
    of [Exception], which is what the handler catches), [extract_text]
    returns the empty string.  So [extract_from_regions] goes on to the
    other regions: when preprocessing succeeds on every region, it returns
    a text for each of them, whatever the engine raised. *)
Theorem extract_text_degrades_to_empty :
  forall (cv : library) (self_lang : string),
    (forall (img preprocessed : image cv) (text_type : TextType)
            (lang : option string) (name : string),
        preprocess_image cv img text_type = Returns preprocessed ->
        image_to_string cv preprocessed (lang_of self_lang lang)
          (config_of text_type)
        = Raises (Exception name) ->
        extract_text cv self_lang img text_type lang = Returns "")
    /\ (forall regions_dict : list (ImageProcessor.RegionType * image cv),
          (forall region_type region_image,
              In (region_type, region_image) regions_dict ->
              forall text_type, exists preprocessed,
                preprocess_image cv region_image text_type
                = Returns preprocessed
                /\ forall lang config name,
                     image_to_string cv preprocessed lang config
                     <> Raises (BaseException name)) ->
          exists texts,
            extract_from_regions cv self_lang regions_dict = Returns texts
            /\ map fst texts = map fst regions_dict).
Proof.
  intros cv self_lang. split.
  - intros img pre text_type lang name Hpre Hraise.
    unfold extract_text. rewrite Hpre. simpl.
    rewrite Hraise. reflexivity.
  - intros regions_dict Hok.
    apply (extract_from_regions_loop_continues cv self_lang regions_dict []).
    exact Hok.
Qed.

Lemma extract_text_degrades_to_empty_witness :
  extract_text (toy_library [] [] no_engine) "eng" (blank_page 2) CODE None
  = Returns ""
  /\ exists texts,
       extract_from_regions (toy_library [] [] no_engine) "eng"
         [(ImageProcessor.PROBLEM, blank_page 2);
          (ImageProcessor.CODE, blank_page 3)]
       = Returns texts
       /\ map fst texts = [ImageProcessor.PROBLEM; ImageProcessor.CODE].
Proof.
  split.
  - apply (proj1 (extract_text_degrades_to_empty
                    (toy_library [] [] no_engine) "eng")
             (blank_page 2) (blank_page 2) CODE None
             "TesseractNotFoundError").
    + vm_compute. reflexivity.
    + reflexivity.
  - apply (proj2 (extract_text_degrades_to_empty
                    (toy_library [] [] no_engine) "eng")
             [(ImageProcessor.PROBLEM, blank_page 2);
              (ImageProcessor.CODE, blank_page 3)]).
    intros region_type region_image [H | [H | []]] text_type;
      inversion H; subst;
      destruct text_type; eexists; (split; [vm_compute; reflexivity|]);
      intros lang config name; discriminate.
Defined.

End OCRFacts.

(* ================================================================== *)
(** * Further properties of texts and of the matcher *)
(* ================================================================== *)

Module TextFacts.

Import PyStr Re Notions MoreNotions ReFacts.

(** ** Reversal and stripping *)

Lemma rev_onto_acc (s acc : string) : rev_onto s acc = rev s ++ acc.
Proof.
  unfold rev. revert acc. induction s as [|c s IH]; intros acc; simpl.
  - reflexivity.
  - rewrite IH, (IH (String c "")), append_assoc. reflexivity.
Qed.

Lemma rev_cons (c : ascii) (s : string) : rev (String c s) = rev s ++ String c "".
Proof. unfold rev at 1. simpl. apply rev_onto_acc. Qed.

Lemma rev_append (a b : string) : rev (a ++ b) = rev b ++ rev a.
Proof.
  induction a as [|c a IH]; simpl.
  - now rewrite append_nil_r.
  - rewrite !rev_cons, IH, append_assoc. reflexivity.
Qed.

Lemma rev_involutive (s : string) : rev (rev s) = s.
Proof.
  induction s as [|c s IH]; [reflexivity|].
  rewrite rev_cons, rev_append, IH. reflexivity.
Qed.

Lemma lstrip_no_lead (s : string) : no_lead (lstrip s).
Proof.
  induction s as [|c s IH]; simpl; [exact I|].
  destruct (isspace c) eqn:Hc; [exact IH | exact Hc].
Qed.

Lemma no_lead_lstrip (s : string) : no_lead s -> lstrip s = s.
Proof. destruct s as [|c s]; simpl; [reflexivity | now intros ->]. Qed.

Lemma lstrip_suffix (s : string) : exists w, s = w ++ lstrip s.
Proof.
  induction s as [|c s [w IH]]; simpl; [now exists ""|].
  destruct (isspace c).
  - exists (String c w). simpl. now rewrite <- IH.
  - now exists "".
Qed.

Lemma rstrip_prefix (s : string) : exists w, s = rstrip s ++ w.
Proof.
  unfold rstrip. destruct (lstrip_suffix (rev s)) as [w Hw].
  exists (rev w).
  rewrite <- (rev_involutive s) at 1. rewrite Hw at 1. apply rev_append.
Qed.

Lemma rstrip_no_lead (s : string) : no_lead s -> no_lead (rstrip s).
Proof.
  intros H. destruct (rstrip_prefix s) as [w Hw].
  destruct (rstrip s) as [|c t]; [exact I|].
  rewrite Hw in H. exact H.
Qed.

Lemma rstrip_idem (s : string) : rstrip (rstrip s) = rstrip s.
Proof.
  unfold rstrip. rewrite rev_involutive.
  now rewrite (no_lead_lstrip _ (lstrip_no_lead (rev s))).
Qed.

Lemma strip_idem (s : string) : strip (strip s) = strip s.
Proof.
  unfold strip.
  rewrite (no_lead_lstrip (rstrip (lstrip s))).
  - apply rstrip_idem.
  - apply rstrip_no_lead, lstrip_no_lead.
Qed.

(** A stripped text is a piece of the text. *)
Lemma strip_inside (s : string) : exists a b, s = a ++ strip s ++ b.
Proof.
  unfold strip. destruct (lstrip_suffix s) as [a Ha].
  destruct (rstrip_prefix (lstrip s)) as [b Hb].
  exists a, b. now rewrite <- Hb.
Qed.

(** ** Characters *)

Lemma chars_append (a b : string) : chars (a ++ b) = (chars a ++ chars b)%list.
Proof. induction a as [|c a IH]; simpl; [reflexivity | now rewrite IH]. Qed.

Lemma chars_rev (c : ascii) (t : string) :
  In c (chars (rev t)) <-> In c (chars t).
Proof.
  induction t as [|d t IH]; [reflexivity|].
  rewrite rev_cons, chars_append. simpl. rewrite in_app_iff, IH. simpl.
  tauto.
Qed.

Lemma strip_chars (s : string) (c : ascii) :
  In c (chars (strip s)) -> In c (chars s).
Proof.
  destruct (strip_inside s) as (a & b & H). intros Hc.
  rewrite H, !chars_append. apply in_or_app. right.
  apply in_or_app. now left.
Qed.

Lemma contains_char (c : ascii) (s : string) :
  contains (String c "") s = true <-> In c (chars s).
Proof.
  induction s as [|d s IH]; simpl.
  - split; [discriminate | contradiction].
  - rewrite orb_true_iff, IH. rewrite andb_true_r.
    rewrite Ascii.eqb_eq. intuition congruence.
Qed.

Lemma no_char (c : ascii) (s : string) :
  ~ In c (chars s) -> contains (String c "") s = false.
Proof.
  intros H. destruct (contains (String c "") s) eqn:E; [|reflexivity].
  now apply contains_char in E.
Qed.

(** [replace] brings in the characters of [new] only. *)
Lemma replace_from_chars (old new : string) (c : ascii) :
  forall text skip,
    In c (chars (replace_from old new text skip)) ->
    In c (chars text) \/ In c (chars new).
Proof.
  intros text. induction text as [|d s IH]; intros skip H; simpl in *;
    [contradiction|].
  destruct skip as [|n].
  - destruct (startswith old (String d s)).
    + rewrite chars_append in H. apply in_app_or in H.
      destruct H as [H | H]; [now right|].
      apply IH in H. tauto.
    + simpl in H. destruct H as [H | H]; [now left; left|].
      apply IH in H. tauto.
  - apply IH in H. tauto.
Qed.

Lemma replace_chars (old new s : string) (c : ascii) :
  In c (chars (replace old new s)) -> In c (chars s) \/ In c (chars new).
Proof. apply replace_from_chars. Qed.

(** Replacing one character leaves none of it, unless [new] has it. *)
Lemma replace_char_gone (c : ascii) (new s : string) :
  ~ In c (chars new) -> ~ In c (chars (replace (String c "") new s)).
Proof.
  intros Hnew. unfold replace. induction s as [|d s IH]; simpl; [tauto|].
  destruct (Ascii.eqb c d) eqn:E; simpl.
  - rewrite chars_append. intros H. apply in_app_or in H. tauto.
  - simpl. intros [H | H]; [|tauto].
    subst d. now rewrite Ascii.eqb_refl in E.
Qed.

(** ** How far a match goes *)

Lemma eat_advances p : advances 1 (eat p).
Proof.
  intros st k x. unfold eat.
  destruct (rest st) as [|c t] eqn:Hr; [discriminate|].
  destruct (p c); [|discriminate].
  intros H. eexists. split; [exact H|]. simpl. lia.
Qed.

Lemma reaches_advances body : reaches body -> advances 0 body.
Proof.
  intros Hb st k x H. apply Hb in H. destruct H as (b & w & H & Hw).
  exists b. split; [exact H|]. rewrite Hw, append_length. lia.
Qed.

Lemma run_advances fl r : advances (min_len r) (run fl r).
Proof.
  induction r as [| c | | neg items | r1 IH1 r2 IH2 | r1 IH1 r2 IH2
                 | lz lo hi r IH | n r IH | | | r IH]; simpl min_len;
    try apply eat_advances;
    try (apply reaches_advances, run_reaches).
  - intros st k x H. simpl in H. apply IH1 in H.
    destruct H as (b & H & Hb). apply IH2 in H.
    destruct H as (b' & H & Hb'). exists b'. split; [exact H | lia].
  - intros st k x H. simpl in H. apply or_else_Some in H.
    destruct H as [H | [_ H]]; [apply IH1 in H | apply IH2 in H];
      destruct H as (b & H & Hb); exists b; (split; [exact H | lia]).
  - destruct lo as [|lo]; [apply reaches_advances, run_reaches|].
    intros st k x H. rewrite run_Rep, rep_loop_S in H.
    unfold rep_again in H.
    assert (Hcall :
      run fl r st (fun st' =>
        if Nat.ltb (String.length (rest st')) (String.length (rest st))
        then rep_loop (run fl r) lz (String.length (rest st)) (Nat.pred (S lo))
               (option_map Nat.pred hi) st' k
        else None) = Some x)
      by (destruct hi as [[|n]|]; [discriminate | exact H | exact H]).
    apply IH in Hcall. destruct Hcall as (b & Hb & Hlen).
    destruct (Nat.ltb (String.length (rest b)) (String.length (rest st)));
      [|discriminate].
    apply (rep_loop_reaches _ lz (run_reaches fl r)) in Hb.
    destruct Hb as (b' & w & Hb' & Hw).
    exists b'. split; [exact Hb'|].
    rewrite Hw, append_length in Hlen. lia.
  - intros st k x H. rewrite run_Grp in H. apply IH in H.
    destruct H as (b & H & Hb). eexists. split; [exact H | exact Hb].
Qed.

(** A match is at least [min_len] characters long. *)
Lemma match_at_long fl r p text pos m :
  match_at fl r p text pos = Some m -> min_len r <= String.length (m_text m).
Proof.
  intros H. pose proof (match_at_shape _ _ _ _ _ _ H) as Hshape.
  unfold match_at in H.
  destruct (run fl r (MState p text []) Some) as [x|] eqn:Hrun; [|discriminate].
  injection H as <-. simpl in *.
  apply run_advances in Hrun. destruct Hrun as (b & [= ->] & Hlen).
  simpl in Hlen. apply (f_equal String.length) in Hshape.
  rewrite append_length in Hshape. lia.
Qed.

Lemma search_from_long fl r :
  forall text p pos m,
    search_from fl r p text pos = Some m ->
    min_len r <= String.length (m_text m).
Proof.
  induction text as [|c text IH]; intros p pos m; simpl.
  - destruct (match_at fl r p "" pos) as [m'|] eqn:H; [|discriminate].
    intros [= <-]. now apply match_at_long in H.
  - destruct (match_at fl r p (String c text) pos) as [m'|] eqn:H.
    + intros [= <-]. now apply match_at_long in H.
    + apply IH.
Qed.

Lemma search_nonempty fl r text m :
  1 <= min_len r -> search fl r text = Some m -> m_text m <> "".
Proof.
  intros Hr H. apply search_from_long in H.
  destruct (m_text m); [simpl in H; lia | discriminate].
Qed.

(** ** A pattern that begins with a literal *)

Lemma run_lit fl (s : string) :
  forall st k x, run fl (lit s) st k = Some x -> startswith s (rest st) = true.
Proof.
  induction s as [|c s IH]; intros st k x H; [reflexivity|].
  destruct s as [|d s].
  - simpl in H. unfold eat in H.
    destruct (rest st) as [|e t]; [discriminate|].
    simpl. destruct (Ascii.eqb c e); [reflexivity | discriminate].
  - change (lit (String c (String d s))) with (Cat (Chr c) (lit (String d s)))
      in H.
    simpl run in H. unfold eat in H.
    destruct (rest st) as [|e t]; [discriminate|].
    destruct (Ascii.eqb c e) eqn:E; [|discriminate].
    apply IH in H. cbn [rest] in H.
    change (startswith (String c (String d s)) (String e t))
      with (Ascii.eqb c e && startswith (String d s) t).
    now rewrite E, H.
Qed.

Lemma search_from_literal fl (s : string) (r : regex) :
  forall text p pos m,
    search_from fl (Cat (lit s) r) p text pos = Some m ->
    contains s text = true.
Proof.
  assert (Hat : forall text p pos m,
             match_at fl (Cat (lit s) r) p text pos = Some m ->
             startswith s text = true).
  { intros text p pos m. unfold match_at.
    destruct (run fl (Cat (lit s) r) (MState p text []) Some) eqn:H;
      [|discriminate].
    intros _. simpl in H. now apply run_lit in H. }
  induction text as [|c text IH]; intros p pos m; simpl search_from.
  - destruct (match_at fl (Cat (lit s) r) p "" pos) eqn:H; [|discriminate].
    intros _. apply Hat in H. simpl. now rewrite H.
  - destruct (match_at fl (Cat (lit s) r) p (String c text) pos) eqn:H.
    + intros _. apply Hat in H.
      change (contains s (String c text))
        with (startswith s (String c text) || contains s text).
      now rewrite H.
    + intros Hs. apply IH in Hs.
      change (contains s (String c text))
        with (startswith s (String c text) || contains s text).
      rewrite Hs. apply orb_true_r.
Qed.

(** Without the literal in the text, the pattern finds nothing. *)
Lemma search_without_literal fl (s : string) (r : regex) (text : string) :
  contains s text = false -> search fl (Cat (lit s) r) text = None.
Proof.
  intros H. destruct (search fl (Cat (lit s) r) text) eqn:E; [|reflexivity].
  apply search_from_literal in E. congruence.
Qed.

(** ** What a plain pattern finds in a piece, it finds in the text *)

Lemma found_inside (r : regex) (before piece after : string) :
  plain r = true ->
  CodeParser.found r piece = true ->
  CodeParser.found r (before ++ piece ++ after) = true.
Proof.
  intros Hp. unfold CodeParser.found.
  destruct (search no_flags r (before ++ piece ++ after)) eqn:E;
    [reflexivity|].
  now rewrite (search_none_inside no_flags r before piece after Hp E).
Qed.

End TextFacts.

(* ================================================================== *)
(** * Further properties of the code parser *)
(* ================================================================== *)

Module ParserExtras.

Import PyStr Re CodeParser Notions MoreNotions ReFacts TextFacts.

Local Open Scope list_scope.
Local Open Scope string_scope.

(** ** Language detection *)

(** X1: A piece of text that one of the two Python patterns accepts decides
    the language, whatever is written before and after it: the two
    patterns are tried first and look at no context.  So the C++ line
    [class Derived : public Base {] is taken for Python. *)
Theorem python_pattern_decides_language :
  forall before piece after : string,
    found python_def_re piece || found python_class_re piece = true ->
    _detect_language (before ++ piece ++ after) = "python".
Proof.
  intros before piece after H. unfold _detect_language.
  apply orb_true_iff in H. destruct H as [H | H].
  - now rewrite (found_inside python_def_re before piece after eq_refl H).
  - rewrite (found_inside python_class_re before piece after eq_refl H).
    now rewrite orb_true_r.
Qed.

Lemma python_pattern_decides_language_witness :
  found python_def_re "class Derived :"
  || found python_class_re "class Derived :" = true
  /\ _detect_language ("" ++ "class Derived :" ++ " public Base {") = "python".
Proof.
  split; [reflexivity|].
  exact (python_pattern_decides_language "" "class Derived :" " public Base {"
           eq_refl).
Defined.

Lemma detect_language_values (code_text : string) :
  In (_detect_language code_text)
     ["python"; "java"; "cpp"; "javascript"; "unknown"].
Proof.
  unfold _detect_language.
  repeat match goal with
         | |- context [if ?b then _ else _] => destruct b
         end; simpl; tauto.
Qed.

(** ** A signature that was not found *)

Ltac no_empty_match E H :=
  exfalso; eapply search_nonempty; [| exact E | exact H]; vm_compute; lia.

Lemma python_unparsed text :
  function_signature (_parse_python text) = "" -> unparsed (_parse_python text).
Proof.
  unfold _parse_python, unparsed.
  destruct (search no_flags py_func_re text) as [m|] eqn:E;
    cbn [function_signature function_name parameters return_type]; intros H;
    [no_empty_match E H | auto].
Qed.

Lemma java_unparsed text :
  function_signature (_parse_java text) = "" -> unparsed (_parse_java text).
Proof.
  unfold _parse_java, unparsed.
  destruct (search no_flags java_func_re text) as [m|] eqn:E;
    cbn [function_signature function_name parameters return_type]; intros H;
    [no_empty_match E H | auto].
Qed.

Lemma cpp_unparsed text :
  function_signature (_parse_cpp text) = "" -> unparsed (_parse_cpp text).
Proof.
  unfold _parse_cpp, unparsed.
  destruct (search no_flags cpp_func_re text) as [m|] eqn:E;
    cbn [function_signature function_name parameters return_type]; intros H;
    [no_empty_match E H | auto].
Qed.

Lemma javascript_unparsed text :
  function_signature (_parse_javascript text) = "" ->
  unparsed (_parse_javascript text).
Proof.
  unfold _parse_javascript, js_func_match, unparsed.
  destruct (search no_flags js_standard_re text) as [m|] eqn:E1;
    [|destruct (search no_flags js_arrow_re text) as [m|] eqn:E2;
      [|destruct (search no_flags js_method_re text) as [m|] eqn:E3]];
    cbn [function_signature function_name parameters return_type]; intros H;
    [no_empty_match E1 H | no_empty_match E2 H | no_empty_match E3 H | auto].
Qed.

Lemma generic_unparsed text :
  function_signature (_parse_generic text) = "" ->
  unparsed (_parse_generic text).
Proof.
  unfold _parse_generic, unparsed.
  destruct (search no_flags generic_func_re text) as [m|] eqn:E;
    cbn [function_signature function_name parameters return_type]; intros H;
    [no_empty_match E H | now unfold empty_result].
Qed.

Lemma parse_as_unparsed lang text :
  function_signature (parse_as lang text) = "" -> unparsed (parse_as lang text).
Proof.
  unfold parse_as.
  destruct (String.eqb lang "python"); [apply python_unparsed|].
  destruct (String.eqb lang "java"); [apply java_unparsed|].
  destruct (String.eqb lang "cpp"); [apply cpp_unparsed|].
  destruct (String.eqb lang "javascript"); [apply javascript_unparsed|].
  apply generic_unparsed.
Qed.

(** X2: The result never has a name, parameters or a return type without a
    signature: a match of a function pattern is never the empty text, so
    an empty ['function_signature'] means that no pattern matched, and
    then the three other keys keep their defaults. *)
Theorem no_signature_no_fields :
  forall code_text : string,
    function_signature (info (parse code_text)) = "" ->
    function_name (info (parse code_text)) = ""
    /\ parameters (info (parse code_text)) = []
    /\ return_type (info (parse code_text)) = "".
Proof.
  intros code_text. unfold parse.
  destruct (truthy code_text); simpl negb; cbv beta iota zeta; cbn [info].
  - apply parse_as_unparsed.
  - intros _. now unfold empty_result.
Qed.

Lemma no_signature_no_fields_witness :
  function_signature (info (parse "total = price + tax")) = ""
  /\ function_name (info (parse "total = price + tax")) = ""
  /\ parameters (info (parse "total = price + tax")) = []
  /\ return_type (info (parse "total = price + tax")) = "".
Proof.
  split; [reflexivity|].
  exact (no_signature_no_fields "total = price + tax" eq_refl).
Defined.

(** ** The signature is a piece of the cleaned text *)

Lemma piece_of_empty text : piece_of "" text.
Proof. now exists "", text. Qed.

Lemma search_piece fl r text m :
  search fl r text = Some m -> piece_of (m_text m) text.
Proof.
  intros H. apply search_from_shape in H. destruct H as (before & H).
  now exists before, (m_after m).
Qed.

Lemma class_context_piece r text : piece_of (class_context_of r text) text.
Proof.
  unfold class_context_of. destruct (search no_flags r text) eqn:E.
  - now apply search_piece in E.
  - apply piece_of_empty.
Qed.

Lemma parse_as_pieces lang text :
  piece_of (function_signature (parse_as lang text)) text
  /\ piece_of (class_context (parse_as lang text)) text.
Proof.
  unfold parse_as.
  destruct (String.eqb lang "python").
  { unfold _parse_python.
    destruct (search no_flags py_func_re text) eqn:E;
      cbn [function_signature class_context];
      (split; [|apply class_context_piece]);
      [now apply search_piece in E | apply piece_of_empty]. }
  destruct (String.eqb lang "java").
  { unfold _parse_java.
    destruct (search no_flags java_func_re text) eqn:E;
      cbn [function_signature class_context];
      (split; [|apply class_context_piece]);
      [now apply search_piece in E | apply piece_of_empty]. }
  destruct (String.eqb lang "cpp").
  { unfold _parse_cpp.
    destruct (search no_flags cpp_func_re text) eqn:E;
      cbn [function_signature class_context];
      (split; [|apply class_context_piece]);
      [now apply search_piece in E | apply piece_of_empty]. }
  destruct (String.eqb lang "javascript").
  { unfold _parse_javascript, js_func_match.
    destruct (search no_flags js_standard_re text) eqn:E1;
      [|destruct (search no_flags js_arrow_re text) eqn:E2;
        [|destruct (search no_flags js_method_re text) eqn:E3]];
      cbn [function_signature class_context];
      (split; [|apply class_context_piece]);
      [now apply search_piece in E1 | now apply search_piece in E2
       | now apply search_piece in E3 | apply piece_of_empty]. }
  unfold _parse_generic.
  destruct (search no_flags generic_func_re text) eqn:E;
    cbn [function_signature class_context empty_result];
    (split; [|apply piece_of_empty]);
    [now apply search_piece in E | apply piece_of_empty].
Qed.

(** X3: The parser makes up no text: ['function_signature'] and
    ['class_context'] are each one contiguous piece of the cleaned
    text (the empty piece when nothing was found). *)
Theorem signature_is_piece_of_cleaned_text :
  forall code_text : string,
    (exists before after,
        _clean_code_text code_text
        = before ++ function_signature (info (parse code_text)) ++ after)
    /\ (exists before after,
           _clean_code_text code_text
           = before ++ class_context (info (parse code_text)) ++ after).
Proof.
  intros code_text. unfold parse.
  destruct (truthy code_text); simpl negb; cbv beta iota zeta; cbn [info].
  - apply parse_as_pieces.
  - split; apply piece_of_empty.
Qed.

(** ** The fields of a parameter, by language *)

Lemma param_loop_Forall (P : parameter -> Prop) opening closing decompose :
  (forall token, Forall P (decompose token)) ->
  forall chars depth current params,
    Forall P params ->
    Forall P (param_loop opening closing decompose chars depth current params).
Proof.
  intros Hd chars. induction chars as [|c chars IH];
    intros depth current params Hp; simpl; [exact Hp|].
  destruct (Ascii.eqb c "," && Z.eqb depth 0).
  - apply IH. destruct (truthy (strip current)); [|exact Hp].
    apply Forall_app. split; [exact Hp | apply Hd].
  - now apply IH.
Qed.

Lemma split_params_Forall (P : parameter -> Prop) opening closing decompose :
  (forall token, Forall P (decompose token)) ->
  forall text, Forall P (split_params opening closing decompose text).
Proof.
  intros Hd text. unfold split_params.
  destruct (truthy text); [|constructor].
  now apply param_loop_Forall.
Qed.

Lemma flat_map_Forall {A B : Type} (P : B -> Prop) (f : A -> list B) :
  (forall x, Forall P (f x)) -> forall l, Forall P (flat_map f l).
Proof.
  intros Hf l. induction l as [|x l IH]; simpl; [constructor|].
  apply Forall_app. split; [apply Hf | exact IH].
Qed.

Lemma java_param_no_default token :
  Forall (fun p => default_value p = None) (java_param token).
Proof.
  unfold java_param. destruct (re_match no_flags java_param_re token);
    repeat constructor.
Qed.

Lemma js_param_untyped token :
  Forall (fun p => param_type p = "") (js_param token).
Proof.
  unfold js_param. destruct (truthy (strip token)); [|constructor].
  destruct (contains "=" (strip token)); [|repeat constructor].
  destruct (split1 "=" (strip token)) as [|a [|b [|c l]]];
    repeat constructor.
Qed.

Lemma generic_param_bare token :
  Forall (fun p => param_type p = "" /\ default_value p = None)
         (generic_param token).
Proof.
  unfold generic_param. destruct (truthy (strip token)); repeat constructor.
Qed.

Lemma java_no_default text :
  Forall (fun p => default_value p = None) (parameters (_parse_java text)).
Proof.
  unfold _parse_java. destruct (search no_flags java_func_re text);
    cbn [parameters]; [|constructor].
  apply split_params_Forall, java_param_no_default.
Qed.

Lemma javascript_untyped text :
  return_type (_parse_javascript text) = ""
  /\ Forall (fun p => param_type p = "") (parameters (_parse_javascript text)).
Proof.
  unfold _parse_javascript. destruct (js_func_match text) as [[m n]|];
    cbn [parameters return_type]; (split; [reflexivity|]); [|constructor].
  destruct (if group_truthy m 2 then group m 2
            else if Nat.ltb 2 n then group m 3 else Some "") as [t|];
    [|constructor].
  destruct (truthy t); [|constructor].
  apply flat_map_Forall, js_param_untyped.
Qed.

Lemma generic_bare text :
  return_type (_parse_generic text) = ""
  /\ class_context (_parse_generic text) = ""
  /\ Forall (fun p => param_type p = "" /\ default_value p = None)
            (parameters (_parse_generic text)).
Proof.
  unfold _parse_generic. destruct (search no_flags generic_func_re text);
    cbn [parameters return_type class_context empty_result];
    (split; [reflexivity|]); (split; [reflexivity|]); [|constructor].
  destruct (truthy (group_str m 2)); [|constructor].
  apply flat_map_Forall, generic_param_bare.
Qed.

(** X4: What a caller can rely on in the result of [parse], by the language
    reported: the language is one of five names; a Java parameter never
    has a default; a JavaScript result has no return type and no
    parameter type; a result of unknown language has no return type, no
    class context, and parameters with a name only. *)
Theorem result_fields_by_language :
  forall code_text : string,
    In (language (parse code_text))
       ["python"; "java"; "cpp"; "javascript"; "unknown"]
    /\ (language (parse code_text) = "java" ->
        Forall (fun p => default_value p = None)
               (parameters (info (parse code_text))))
    /\ (language (parse code_text) = "javascript" ->
        return_type (info (parse code_text)) = ""
        /\ Forall (fun p => param_type p = "")
                  (parameters (info (parse code_text))))
    /\ (language (parse code_text) = "unknown" ->
        return_type (info (parse code_text)) = ""
        /\ class_context (info (parse code_text)) = ""
        /\ Forall (fun p => param_type p = "" /\ default_value p = None)
                  (parameters (info (parse code_text)))).
Proof.
  intros code_text. unfold parse.
  destruct (truthy code_text); simpl negb; cbv beta iota zeta;
    cbn [info language].
  - split; [apply detect_language_values|].
    split; [|split]; intros ->.
    + exact (java_no_default _).
    + exact (javascript_untyped _).
    + exact (generic_bare _).
  - split; [simpl; tauto|].
    split; [|split]; intros H; try discriminate H.
    unfold empty_result. cbn [return_type class_context parameters].
    repeat split. constructor.
Qed.

Lemma result_fields_by_language_witness :
  language (parse "function add(a, b = 2) {") = "javascript"
  /\ return_type (info (parse "function add(a, b = 2) {")) = ""
  /\ Forall (fun p => param_type p = "")
            (parameters (info (parse "function add(a, b = 2) {"))).
Proof.
  split; [reflexivity|].
  exact (proj1 (proj2 (proj2 (result_fields_by_language
                                "function add(a, b = 2) {"))) eq_refl).
Defined.

(** ** The parameter loop on any text *)

Section AnyText.

Variables opening closing : ascii.
Variable decompose : string -> list parameter.
Hypothesis opening_no_comma : Ascii.eqb "," opening = false.
Hypothesis closing_no_comma : Ascii.eqb "," closing = false.

Local Abbreviation loop := (param_loop opening closing decompose).

Lemma commas_append (a b : string) : commas (a ++ b) = commas a + commas b.
Proof. induction a as [|c a IH]; simpl; [reflexivity | rewrite IH; lia]. Qed.

Lemma loop_length :
  (forall token, List.length (decompose token) <= 1) ->
  forall chars depth current params,
    List.length (loop chars depth current params)
    <= List.length params + commas chars.
Proof.
  intros Hd chars. induction chars as [|c chars IH];
    intros depth current params; simpl; [lia|].
  destruct (Ascii.eqb c ","); simpl.
  - destruct (Z.eqb depth 0).
    + etransitivity; [apply IH|].
      destruct (truthy (strip current)); [|lia].
      rewrite length_app. specialize (Hd (strip current)). lia.
    + etransitivity; [apply IH|]. lia.
  - etransitivity; [apply IH|]. lia.
Qed.

Lemma split_params_length (text : string) :
  (forall token, List.length (decompose token) <= 1) ->
  List.length (split_params opening closing decompose text) <= S (commas text).
Proof.
  intros Hd. unfold split_params. destruct (truthy text); simpl; [|lia].
  etransitivity; [now apply loop_length|].
  rewrite commas_append. simpl. lia.
Qed.

(** After the last comma at depth zero, an open-ended piece is read to
    the end of the text and handed to nobody. *)
Lemma loop_open_ended (tail : string) :
  forall depth current params,
    open_ended opening closing tail depth = true ->
    loop (tail ++ ",") depth current params = params.
Proof.
  induction tail as [|c tail IH]; intros depth current params H; simpl in *.
  - apply negb_true_iff in H. rewrite H. reflexivity.
  - destruct (Ascii.eqb c "," && Z.eqb depth 0); [discriminate|].
    now apply IH.
Qed.

Lemma loop_over_join_then (ps : list string) :
  ps <> [] ->
  source_parameters opening closing ps ->
  forall tail params,
    loop (join ps ++ String "," tail) 0%Z "" params
    = loop tail 0%Z "" (params ++ flat_map decompose (stripped ps)).
Proof.
  induction ps as [|p ps IH]; intros Hne Hps tail params; [congruence|].
  inversion Hps as [|? ? Hp Hrest]; subst.
  rewrite (ParserFacts.flat_map_stripped_cons decompose).
  destruct ps as [|q ps].
  - simpl join.
    rewrite (ParserFacts.loop_reads_parameter opening closing decompose
               opening_no_comma closing_no_comma p) by assumption.
    rewrite ParserFacts.loop_cuts_at_comma. simpl append.
    unfold stripped at 1. simpl flat_map. rewrite app_nil_r.
    destruct (truthy (strip p)); [reflexivity | now rewrite app_nil_r].
  - change (join (p :: q :: ps)) with (p ++ "," ++ join (q :: ps)).
    rewrite append_assoc.
    rewrite (ParserFacts.loop_reads_parameter opening closing decompose
               opening_no_comma closing_no_comma p) by assumption.
    change (("," ++ join (q :: ps)) ++ String "," tail)
      with (String "," (join (q :: ps) ++ String "," tail)).
    rewrite ParserFacts.loop_cuts_at_comma. simpl append.
    rewrite IH by (assumption || discriminate).
    destruct (truthy (strip p)); [now rewrite <- app_assoc | reflexivity].
Qed.

Lemma join_snoc (ps : list string) (tail : string) :
  ps <> [] -> join (ps ++ [tail]) = join ps ++ String "," tail.
Proof.
  induction ps as [|p ps IH]; intros Hne; [congruence|].
  destruct ps as [|q ps]; [reflexivity|].
  change (join ((p :: q :: ps) ++ [tail]))
    with (p ++ "," ++ join ((q :: ps) ++ [tail])).
  rewrite IH by discriminate.
  change (join (p :: q :: ps)) with (p ++ "," ++ join (q :: ps)).
  now rewrite !append_assoc.
Qed.

Lemma split_params_open_ended (ps : list string) (tail : string) :
  source_parameters opening closing ps ->
  open_ended opening closing tail 0 = true ->
  split_params opening closing decompose (join (ps ++ [tail]))
  = flat_map decompose (stripped ps).
Proof.
  intros Hps Htail. unfold split_params.
  destruct ps as [|p ps].
  - simpl join. destruct tail as [|c tail]; [discriminate Htail|].
    simpl truthy. cbv iota. now apply loop_open_ended.
  - rewrite join_snoc by discriminate.
    assert (Ht : truthy (join (p :: ps) ++ String "," tail) = true)
      by (destruct (join (p :: ps)); reflexivity).
    rewrite Ht, append_assoc.
    change (String "," tail ++ ",") with (String "," (tail ++ ",")).
    rewrite loop_over_join_then by (assumption || discriminate).
    now apply loop_open_ended.
Qed.

End AnyText.

Lemma java_param_at_most_one (param : string) :
  List.length (java_param param) <= 1.
Proof.
  unfold java_param. destruct (re_match no_flags java_param_re param);
    simpl; lia.
Qed.

Lemma cpp_param_at_most_one (param : string) :
  List.length (cpp_param param) <= 1.
Proof.
  unfold cpp_param. destruct (re_match no_flags cpp_param_re param);
    simpl; lia.
Qed.

(** X5: The Python, Java and C++ parsers never return more parameters than
    the parameter text has commas, plus one: each pass of the loop body
    adds at most one entry, and the body runs at commas only. *)
Theorem parameters_bounded_by_commas :
  forall params_text : string,
    List.length (split_params "[" "]" py_param params_text)
    <= S (commas params_text)
    /\ List.length (split_params "<" ">" java_param params_text)
       <= S (commas params_text)
    /\ List.length (split_params "<" ">" cpp_param params_text)
       <= S (commas params_text).
Proof.
  intros params_text. repeat split; apply split_params_length.
  - exact ParserFacts.py_param_at_most_one.
  - exact java_param_at_most_one.
  - exact cpp_param_at_most_one.
Qed.

(** X6: When the delimiters of the parameter text do not balance, everything
    after the last comma met at depth zero is dropped without notice: the
    comma that the loop appends to flush the last parameter is then read
    at a depth other than zero, where it is no separator.  The parameters
    before that point are returned as usual. *)
Theorem unbalanced_tail_is_dropped :
  forall (decompose : string -> list parameter) (ps : list string)
         (tail : string),
    (source_parameters "[" "]" ps ->
     open_ended "[" "]" tail 0 = true ->
     split_params "[" "]" decompose (join (ps ++ [tail]))
     = flat_map decompose (stripped ps))
    /\ (source_parameters "<" ">" ps ->
        open_ended "<" ">" tail 0 = true ->
        split_params "<" ">" decompose (join (ps ++ [tail]))
        = flat_map decompose (stripped ps)).
Proof.
  intros decompose ps tail.
  split; intros Hps Htail; now apply split_params_open_ended.
Qed.

Lemma unbalanced_tail_is_dropped_witness :
  (source_parameters "[" "]" ["a"]
   /\ open_ended "[" "]" " b: List[int" 0 = true
   /\ parameters (_parse_python "def f(a, b: List[int):")
      = flat_map py_param ["a"])
  /\ (source_parameters "<" ">" ["int n"]
      /\ open_ended "<" ">" " List<String names" 0 = true
      /\ split_params "<" ">" java_param "int n, List<String names"
         = flat_map java_param ["int n"]).
Proof.
  split; (split; [repeat constructor | split; [reflexivity|]]).
  - exact (proj1 (unbalanced_tail_is_dropped py_param ["a"] " b: List[int")
             ltac:(repeat constructor) eq_refl).
  - exact (proj2 (unbalanced_tail_is_dropped java_param ["int n"]
                    " List<String names")
             ltac:(repeat constructor) eq_refl).
Defined.

(** ** Parameter names of the JavaScript and generic parsers *)

Lemma split_on_chars (sep : ascii) :
  forall text cur piece,
    In piece (split_on sep text cur) ->
    In sep (chars piece) -> In sep (chars cur).
Proof.
  intros text. induction text as [|c text IH]; intros cur piece; simpl.
  - intros [<- | []] H. now apply chars_rev.
  - destruct (Ascii.eqb c sep) eqn:E.
    + intros [<- | H] Hs; [now apply chars_rev|].
      exfalso. apply (IH "" piece H) in Hs. exact Hs.
    + intros H Hs. apply (IH _ _ H) in Hs. simpl in Hs.
      destruct Hs as [-> | Hs]; [|exact Hs].
      now rewrite Ascii.eqb_refl in E.
Qed.

Lemma split_chars (sep : ascii) (text piece : string) :
  In piece (split sep text) -> ~ In sep (chars piece).
Proof. intros H Hs. exact (split_on_chars sep text "" piece H Hs). Qed.

Lemma split1_on_head (sep : ascii) :
  forall text cur name rest,
    split1_on sep text cur = [name; rest] ->
    In sep (chars name) -> In sep (chars cur).
Proof.
  intros text. induction text as [|c text IH]; intros cur name rest; simpl.
  - discriminate.
  - destruct (Ascii.eqb c sep) eqn:E.
    + intros [= <- _]. now apply chars_rev.
    + intros H Hs. apply (IH _ _ _ H) in Hs. simpl in Hs.
      destruct Hs as [-> | Hs]; [|exact Hs].
      now rewrite Ascii.eqb_refl in E.
Qed.

Lemma strip_keeps_out (c : ascii) (t : string) :
  ~ In c (chars t) -> contains (String c "") (strip t) = false.
Proof. intros H. apply no_char. intros Hs. now apply strip_chars in Hs. Qed.

Lemma js_param_names piece :
  ~ In ","%char (chars piece) ->
  Forall (fun p => plain_name (param_name p)
                   /\ contains "=" (param_name p) = false)
         (js_param piece).
Proof.
  intros Hpiece. unfold js_param.
  destruct (truthy (strip piece)); [|constructor].
  destruct (contains "=" (strip piece)) eqn:Heq.
  - destruct (split1 "=" (strip piece)) as [|a [|b [|c l]]] eqn:Hs;
      try constructor; [|constructor].
    cbn [param_name]. split; [split|].
    + apply strip_idem.
    + apply strip_keeps_out. intros Ha. apply Hpiece, strip_chars.
      clear Heq. revert Hs Ha. unfold split1. generalize (strip piece).
      intros t. assert (Hgen : forall t cur,
        split1_on "=" t cur = [a; b] ->
        In ","%char (chars a) ->
        In ","%char (chars cur) \/ In ","%char (chars t)).
      { clear. intros t. induction t as [|c t IH]; intros cur; simpl;
          [discriminate|].
        destruct (Ascii.eqb c "=").
        - intros [= <- _] H. left. now apply chars_rev.
        - intros H Ha. destruct (IH _ H Ha) as [Hc | Hc]; [|tauto].
          simpl in Hc. destruct Hc as [-> | Hc]; tauto. }
      intros Hs Ha. destruct (Hgen t "" Hs Ha) as [[] | H]. exact H.
    + apply strip_keeps_out. intros Ha.
      exact (split1_on_head "=" _ "" a b Hs Ha).
  - repeat constructor; cbn [param_name].
    + apply strip_idem.
    + apply strip_keeps_out. exact Hpiece.
    + exact Heq.
Qed.

Lemma generic_param_names piece :
  ~ In ","%char (chars piece) ->
  Forall (fun p => param_name p <> "" /\ plain_name (param_name p))
         (generic_param piece).
Proof.
  intros Hpiece. unfold generic_param.
  destruct (truthy (strip piece)) eqn:Ht; [|constructor].
  repeat constructor; cbn [param_name].
  - intros H. rewrite H in Ht. discriminate.
  - apply strip_idem.
  - now apply strip_keeps_out.
Qed.

Lemma flat_map_Forall_In {A B : Type} (P : B -> Prop) (f : A -> list B)
  (l : list A) :
  (forall x, In x l -> Forall P (f x)) -> Forall P (flat_map f l).
Proof.
  induction l as [|x l IH]; intros Hf; simpl; [constructor|].
  apply Forall_app. split; [apply Hf; now left|].
  apply IH. intros y Hy. apply Hf. now right.
Qed.

(** X7: The names returned by the JavaScript and generic parsers: a name
    carries no surrounding white space and no comma; a JavaScript name
    has no [=] either (the text after the first [=] is the default), and
    a name of the generic parser is never empty. *)
Theorem untyped_parameter_names :
  forall code_text : string,
    Forall (fun p => strip (param_name p) = param_name p
                     /\ contains "," (param_name p) = false
                     /\ contains "=" (param_name p) = false)
           (parameters (_parse_javascript code_text))
    /\ Forall (fun p => param_name p <> ""
                        /\ strip (param_name p) = param_name p
                        /\ contains "," (param_name p) = false)
              (parameters (_parse_generic code_text)).
Proof.
  intros code_text. split.
  - unfold _parse_javascript. destruct (js_func_match code_text) as [[m n]|];
      cbn [parameters]; [|constructor].
    destruct (if group_truthy m 2 then group m 2
              else if Nat.ltb 2 n then group m 3 else Some "") as [t|];
      [|constructor].
    destruct (truthy t); [|constructor].
    apply flat_map_Forall_In. intros piece Hpiece.
    apply split_chars in Hpiece.
    eapply Forall_impl; [|apply (js_param_names piece Hpiece)].
    unfold plain_name. intros p. tauto.
  - unfold _parse_generic.
    destruct (search no_flags generic_func_re code_text);
      cbn [parameters empty_result]; [|constructor].
    destruct (truthy (group_str m 2)); [|constructor].
    apply flat_map_Forall_In. intros piece Hpiece.
    apply split_chars in Hpiece.
    eapply Forall_impl; [|apply (generic_param_names piece Hpiece)].
    unfold plain_name. intros p. tauto.
Qed.

End ParserExtras.

(* ================================================================== *)
(** * Further properties of the image code *)
(* ================================================================== *)

Module ImageExtras.

Import Py Cv Notions MoreNotions.
Import ImageProcessor.

(** ** The regions returned *)

Lemma detect_regions_keys (cv : library) (img : image cv) (found : regions) :
  detect_regions cv img = Returns found ->
  exists problem_box code_box,
    found = [(PROBLEM, problem_box); (CODE, code_box)].
Proof.
  unfold detect_regions.
  destruct (to_gray cv img) as [gray|e]; simpl; [|discriminate].
  destruct (_analyze_layout cv gray) as [layout|e] eqn:Hl; simpl;
    [|discriminate].
  destruct (ImageFacts.analyze_layout_cases cv gray layout Hl)
    as [-> | [(thresh & contours & top & bottom & _ & _ & _ & _ & ->)
             | (thresh & split_y & _ & _ & ->)]].
  - destruct (shape cv gray) as [h w]. intros [= <-]. eauto.
  - intros [= <-]. eauto.
  - intros [= <-]. eauto.
Qed.

(** X8: Whatever the image, the dictionary that [detect_regions] returns has
    exactly the two keys [PROBLEM] and [CODE], in this order: no region is
    ever [UNKNOWN], none is missing, whichever of the three methods
    produced the boxes. *)
Theorem detect_regions_returns_problem_and_code :
  forall (cv : library) (img : image cv) (found : regions),
    detect_regions cv img = Returns found ->
    exists problem_box code_box,
      found = [(PROBLEM, problem_box); (CODE, code_box)].
Proof. exact detect_regions_keys. Qed.

Lemma detect_regions_returns_problem_and_code_witness :
  exists problem_box code_box,
    [(PROBLEM, (0, 0, 2, 0)); (CODE, (0, 0, 2, 4))]%Z
    = [(PROBLEM, problem_box); (CODE, code_box)].
Proof.
  exact (detect_regions_returns_problem_and_code
           (toy_library [] [] no_engine) striped_page _
           ImageFacts.striped_page_splits_at_row_zero).
Defined.

(** ** A failure of the layout analysis *)

(** X9: An [Exception] raised anywhere in the layout analysis (by the
    threshold, by contour detection, or by NumPy on gap lists of unequal
    length) does not reach the caller of [detect_regions]: the handler
    returns no region, and the image is split in two halves. *)
Theorem layout_failure_gives_half_split :
  forall (cv : library) (img gray : image cv) (name : string),
    to_gray cv img = Returns gray ->
    analyze_layout_body cv gray (fst (shape cv gray)) (snd (shape cv gray))
    = Raises (Exception name) ->
    detect_regions cv img
    = Returns (half_split (fst (shape cv gray)) (snd (shape cv gray))).
Proof.
  intros cv img gray name Hg Hbody. unfold detect_regions, _analyze_layout.
  rewrite Hg. simpl. destruct (shape cv gray) as [h w]. simpl in *.
  rewrite Hbody. reflexivity.
Qed.

Lemma layout_failure_gives_half_split_witness :
  detect_regions failing_library (blank_page 4)
  = Returns [(PROBLEM, (0, 0, 4, 2)); (CODE, (0, 2, 4, 2))]%Z
  /\ detect_regions (toy_library [] [] no_engine) ragged_page
     = Returns [(PROBLEM, (0, 0, 2, 3)); (CODE, (0, 3, 2, 3))]%Z.
Proof.
  split.
  - exact (layout_failure_gives_half_split failing_library (blank_page 4)
             (blank_page 4) "cv2.error" eq_refl eq_refl).
  - exact (layout_failure_gives_half_split (toy_library [] [] no_engine)
             ragged_page ragged_page "ValueError" eq_refl eq_refl).
Defined.

(** ** The two split methods tile the image *)

Lemma analyze_layout_origin (cv : library) (gray : image cv)
  (found : regions) :
  _analyze_layout cv gray = Returns found ->
  found = []
  \/ (exists thresh contours,
        adaptiveThreshold cv gray THRESH_BINARY_INV = Returns thresh
        /\ findContours cv thresh = Returns contours
        /\ contour_layout cv contours (fst (shape cv gray))
             (snd (shape cv gray)) = Some found)
  \/ (exists thresh split_y,
        adaptiveThreshold cv gray THRESH_BINARY_INV = Returns thresh
        /\ projection_split (np_sum_rows cv thresh) = Returns (Some split_y)
        /\ found = [(PROBLEM, (0, 0, snd (shape cv gray), split_y));
                    (CODE, (0, split_y, snd (shape cv gray),
                            fst (shape cv gray) - split_y))]%Z).
Proof.
  unfold _analyze_layout. destruct (shape cv gray) as [h w]. simpl.
  unfold analyze_layout_body.
  destruct (adaptiveThreshold cv gray THRESH_BINARY_INV) as [thresh|[n|n]]
    eqn:Ht; simpl; try discriminate; [|intros [= <-]; now left].
  destruct (findContours cv thresh) as [contours|[n|n]] eqn:Hc; simpl;
    try discriminate; [|intros [= <-]; now left].
  destruct (contour_layout cv contours h w) as [layout|] eqn:Hl.
  - simpl. intros [= <-]. right. left. exists thresh, contours.
    repeat split; assumption.
  - destruct (projection_split (np_sum_rows cv thresh)) as [[split_y|]|[n|n]]
      eqn:Hp; simpl; try discriminate; intros [= <-]; try (now left).
    right. right. exists thresh, split_y. repeat split; assumption.
Qed.

Lemma contour_layout_needs_two (cv : library) (contours : list (contour cv))
  (h w : Z) :
  List.length (valid_contours cv contours h w) < 2 ->
  contour_layout cv contours h w = None.
Proof.
  intros H. unfold contour_layout.
  destruct (Nat.leb_spec 2 (List.length (valid_contours cv contours h w)));
    [lia | reflexivity].
Qed.

(** X10: When fewer than two contours are large enough for the contour
    method, the two boxes returned tile the image: both span the full
    width, the Problem box is the rows above some row [y] and the Code
    box the rows from [y] on, without overlap or gap.  This holds for the
    projection split and for the half-split alike. *)
Theorem split_boxes_tile_the_image :
  forall (cv : library) (img : image cv) (found : regions),
    library_guarantees cv ->
    (forall gray thresh contours,
        to_gray cv img = Returns gray ->
        adaptiveThreshold cv gray THRESH_BINARY_INV = Returns thresh ->
        findContours cv thresh = Returns contours ->
        List.length (valid_contours cv contours (fst (shape cv gray))
                       (snd (shape cv gray))) < 2) ->
    detect_regions cv img = Returns found ->
    tiles (fst (shape cv img)) (snd (shape cv img)) found.
Proof.
  intros cv img found G Hfew Hdetect.
  unfold detect_regions in Hdetect.
  destruct (to_gray cv img) as [gray|e] eqn:Hg; simpl in Hdetect;
    [|discriminate].
  pose proof (ImageFacts.to_gray_shape cv img gray G Hg) as Hshape.
  assert (Hh : (0 <= fst (shape cv img))%Z)
    by (rewrite <- (sum_rows_length cv G img); lia).
  destruct (_analyze_layout cv gray) as [layout|e] eqn:Hl; simpl in Hdetect;
    [|discriminate].
  destruct (analyze_layout_origin cv gray layout Hl)
    as [-> | [(thresh & contours & Ht & Hc & Hsome)
             | (thresh & split_y & Ht & Hp & ->)]].
  - rewrite Hshape in Hdetect. destruct (shape cv img) as [h w]. simpl in *.
    injection Hdetect as <-. exists (h / 2)%Z.
    split; [Z.div_mod_to_equations; lia | reflexivity].
  - rewrite (contour_layout_needs_two cv contours _ _
               (Hfew gray thresh contours eq_refl Ht Hc)) in Hsome.
    discriminate.
  - injection Hdetect as <-.
    pose proof (ImageFacts.projection_split_range _ _ Hp) as Hrange.
    rewrite (sum_rows_length cv G thresh) in Hrange.
    rewrite (threshold_shape cv G gray _ thresh Ht) in Hrange.
    rewrite Hshape in *. exists split_y. split; [lia | reflexivity].
Qed.

Lemma split_boxes_tile_the_image_witness :
  tiles 4 2 [(PROBLEM, (0, 0, 2, 0)); (CODE, (0, 0, 2, 4))]%Z.
Proof.
  refine (split_boxes_tile_the_image (toy_library [] [] no_engine)
            striped_page _ (ImageFacts.toy_library_guarantees [] [] no_engine)
            _ ImageFacts.striped_page_splits_at_row_zero).
  intros gray thresh contours [= <-] [= <-] [= <-]. vm_compute. lia.
Defined.

(** ** Profiles without a gap *)

Lemma where_eq_diff_repeat (v g : Z) :
  v <> 0%Z ->
  forall n i, Np.where_eq v (Np.diff (repeat g n)) i = [].
Proof.
  intros Hv n. induction n as [|n IH]; intros i; [reflexivity|].
  destruct n as [|n]; [reflexivity|].
  change (Np.diff (repeat g (S (S n))))
    with ((g - g)%Z :: Np.diff (repeat g (S n))).
  simpl Np.where_eq. rewrite Z.sub_diag.
  destruct (Z.eqb_spec 0 v); [congruence | apply IH].
Qed.

Lemma projection_split_uniform (v : Z) (n : nat) :
  projection_split (repeat v n) = Returns None.
Proof.
  unfold projection_split, gaps_of. rewrite map_repeat.
  now rewrite (where_eq_diff_repeat 1) by discriminate.
Qed.

Lemma projection_split_short (h_projection : list Z) :
  List.length h_projection <= 2 -> projection_split h_projection = Returns None.
Proof.
  intros Hlen. unfold projection_split.
  rewrite <- (ImageFacts.gaps_of_length h_projection) in Hlen.
  destruct (gaps_of h_projection) as [|a [|b [|c l]]];
    [reflexivity | reflexivity | | simpl in Hlen; lia].
  simpl. destruct (Z.eqb_spec (b - a) 1); [|reflexivity].
  destruct (Z.eqb_spec (b - a) (-1)); [lia | reflexivity].
Qed.

(** X11: A page without structure is cut in two halves: when fewer than two
    contours are large enough and the rows of the thresholded image all
    have the same sum (a blank page), or the image has at most two rows,
    the projection profile has no gap and [detect_regions] returns the
    half-split. *)
Theorem featureless_page_gets_half_split :
  forall (cv : library) (img gray thresh : image cv)
         (contours : list (contour cv)),
    to_gray cv img = Returns gray ->
    adaptiveThreshold cv gray THRESH_BINARY_INV = Returns thresh ->
    findContours cv thresh = Returns contours ->
    List.length (valid_contours cv contours (fst (shape cv gray))
                   (snd (shape cv gray))) < 2 ->
    ((exists v n, np_sum_rows cv thresh = repeat v n)
     \/ List.length (np_sum_rows cv thresh) <= 2) ->
    detect_regions cv img
    = Returns (half_split (fst (shape cv gray)) (snd (shape cv gray))).
Proof.
  intros cv img gray thresh contours Hg Ht Hc Hfew Hprofile.
  assert (Hp : projection_split (np_sum_rows cv thresh) = Returns None).
  { destruct Hprofile as [(v & n & ->) | Hshort].
    - apply projection_split_uniform.
    - now apply projection_split_short. }
  unfold detect_regions, _analyze_layout. rewrite Hg. simpl.
  destruct (shape cv gray) as [h w]. simpl in *.
  unfold analyze_layout_body. rewrite Ht. simpl. rewrite Hc. simpl.
  rewrite (contour_layout_needs_two cv contours h w Hfew).
  rewrite Hp. reflexivity.
Qed.

Lemma featureless_page_gets_half_split_witness :
  detect_regions (toy_library [] [] no_engine) (blank_page 6)
  = Returns [(PROBLEM, (0, 0, 6, 3)); (CODE, (0, 3, 6, 3))]%Z.
Proof.
  refine (featureless_page_gets_half_split (toy_library [] [] no_engine)
            (blank_page 6) (blank_page 6) _ [] eq_refl eq_refl eq_refl _ _).
  - vm_compute. lia.
  - left. exists 0%Z, 6. reflexivity.
Defined.

(** ** The corners of a quadrilateral *)

Lemma farg_from_bound better :
  forall a i best_i best,
    best_i < i -> Np.farg_from better a i best_i best < i + List.length a.
Proof.
  induction a as [|x a IH]; intros i best_i best H; simpl; [lia|].
  destruct (better x best).
  - specialize (IH (S i) i x). lia.
  - specialize (IH (S i) best_i best). lia.
Qed.

Lemma fargmin_bound (a : list PrimFloat.float) :
  a <> [] -> Np.fargmin a < List.length a.
Proof.
  destruct a as [|x a]; [congruence|]. intros _. simpl.
  pose proof (farg_from_bound PrimFloat.ltb a 1 0 x). lia.
Qed.

Lemma fargmax_bound (a : list PrimFloat.float) :
  a <> [] -> Np.fargmax a < List.length a.
Proof.
  destruct a as [|x a]; [congruence|]. intros _. simpl.
  pose proof (farg_from_bound (fun u v => PrimFloat.ltb v u) a 1 0 x). lia.
Qed.

(** X12: [_order_points] makes up no corner: for a non-empty array of points,
    each of the four rows of [rect] is one of the points given. *)
Theorem ordered_corners_are_given_points :
  forall pts : list fpoint,
    pts <> [] ->
    Forall (fun corner => In corner pts) (_order_points pts).
Proof.
  intros pts Hne. unfold _order_points, nth_point.
  assert (Hmap : forall f : fpoint -> PrimFloat.float, map f pts <> [])
    by (intros f; destruct pts; [congruence | discriminate]).
  repeat constructor; apply nth_In;
    (eapply Nat.lt_le_trans;
     [first [apply fargmin_bound | apply fargmax_bound]; apply Hmap
     | rewrite length_map; apply Nat.le_refl]).
Qed.

Lemma ordered_corners_are_given_points_witness :
  Forall (fun corner => In corner [(1, 2); (5, 1); (6, 7); (0, 8)]%float)
         (_order_points [(1, 2); (5, 1); (6, 7); (0, 8)]%float).
Proof.
  exact (ordered_corners_are_given_points [(1, 2); (5, 1); (6, 7); (0, 8)]%float
           ltac:(discriminate)).
Defined.

(** ** What [correct_perspective] returns *)

Lemma int_truediv_Returns (a b : Z) (x : PrimFloat.float) :
  int_truediv a b = Returns x -> b <> 0%Z.
Proof.
  unfold int_truediv. destruct (Z.eqb_spec b 0); [discriminate | auto].
Qed.

Lemma warp_quadrilateral_Returns (cv : library) (img : image cv)
  (approx : list point) (warped : image cv) :
  warp_quadrilateral cv img approx = Returns (Some warped) ->
  exists M width height,
    warpPerspective cv img M (width, height) = Returns warped
    /\ height <> 0%Z /\ fst (shape cv img) <> 0%Z.
Proof.
  unfold warp_quadrilateral.
  set (rect := _order_points _). set (r := nth_point rect).
  destruct (int_of_float (distance (r 0) (r 1))) as [width_a|e]; simpl;
    [|discriminate].
  destruct (int_of_float (distance (r 2) (r 3))) as [width_b|e]; simpl;
    [|discriminate].
  destruct (int_of_float (distance (r 0) (r 3))) as [height_a|e]; simpl;
    [|discriminate].
  destruct (int_of_float (distance (r 1) (r 2))) as [height_b|e]; simpl;
    [|discriminate].
  destruct (getPerspectiveTransform cv rect _) as [M|e]; simpl;
    [|discriminate].
  destruct (warpPerspective cv img M _) as [warped'|e] eqn:Hw; simpl;
    [|discriminate].
  destruct (shape cv img) as [h w]. simpl.
  destruct (int_truediv w h) as [orig|e] eqn:Ho; simpl; [|discriminate].
  destruct (int_truediv (Z.max width_a width_b) (Z.max height_a height_b))
    as [warped_aspect|e] eqn:Ha; simpl; [|discriminate].
  destruct (float_truediv warped_aspect orig) as [ratio|e]; simpl;
    [|discriminate].
  destruct (PrimFloat.ltb 0.7 ratio && PrimFloat.ltb ratio 1.3);
    [|discriminate].
  intros [= <-]. exists M, (Z.max width_a width_b), (Z.max height_a height_b).
  split; [exact Hw|].
  split; [now apply int_truediv_Returns in Ha
         | now apply int_truediv_Returns in Ho].
Qed.

(** X13: [correct_perspective] returns either the image it was given or the
    image that [cv2.warpPerspective] made of it, and the latter only for
    a target of non-zero height and an image of non-zero height (a zero
    there raises [ZeroDivisionError] in the aspect check). *)
Theorem correct_perspective_returns_input_or_warp :
  forall (cv : library) (img result : image cv),
    correct_perspective cv img = Returns result ->
    result = img
    \/ exists M width height,
         warpPerspective cv img M (width, height) = Returns result
         /\ height <> 0%Z /\ fst (shape cv img) <> 0%Z.
Proof.
  intros cv img result. unfold correct_perspective.
  destruct (to_gray cv img) as [gray|e]; simpl; [|discriminate].
  destruct (GaussianBlur cv gray 5) as [blurred|e]; simpl; [|discriminate].
  destruct (Canny cv blurred) as [edges|e]; simpl; [|discriminate].
  destruct (findContours cv edges) as [[|c contours]|e]; simpl;
    [intros [= <-]; now left | | discriminate].
  destruct (approxPolyDP cv _ _) as [approx|e]; simpl; [|discriminate].
  destruct (Nat.eqb (List.length approx) 4); [|intros [= <-]; now left].
  destruct (warp_quadrilateral cv img approx) as [[warped|]|e] eqn:Hw; simpl;
    [| intros [= <-]; now left | discriminate].
  intros [= <-]. right. now apply warp_quadrilateral_Returns in Hw.
Qed.

Lemma correct_perspective_returns_input_or_warp_witness :
  blank_page 3 = blank_page 3
  \/ exists M width height,
       warpPerspective (toy_library [] [] no_engine) (blank_page 3) M
         (width, height) = Returns (blank_page 3)
       /\ height <> 0%Z
       /\ fst (shape (toy_library [] [] no_engine) (blank_page 3)) <> 0%Z.
Proof.
  exact (correct_perspective_returns_input_or_warp
           (toy_library [] [] no_engine) (blank_page 3) (blank_page 3)
           eq_refl).
Defined.

(** ** The pipeline *)

Section Pipeline.

Variable lib : ImagePipeline.library.

Lemma process_regions_keys (img : image (ImagePipeline.cv lib)) :
  forall items processed out,
    ImagePipeline.process_regions lib img items processed = Returns out ->
    map fst out = (map fst processed ++ map fst items)%list.
Proof.
  induction items as [|[region_type bounds] items IH];
    intros processed out; simpl.
  - intros [= <-]. now rewrite app_nil_r.
  - destruct (match region_type with
              | PROBLEM => _ | CODE => _ | UNKNOWN => _ end)
      as [processed_region|e]; simpl; [|discriminate].
    intros H. apply IH in H. rewrite H, map_app, <- app_assoc. reflexivity.
Qed.

End Pipeline.

(** X14: [preprocess_for_ocr] refuses [None] and an image without pixels with
    a [ValueError], before any library call.  When it returns, the
    dictionary has exactly the keys [PROBLEM] and [CODE], in this
    order. *)
Theorem preprocess_for_ocr_keys :
  forall (lib : ImagePipeline.library),
    ImagePipeline.preprocess_for_ocr lib None
    = Raises (Exception "ValueError")
    /\ (forall image : image (ImagePipeline.cv lib),
           ImagePipeline.size lib image = 0%Z ->
           ImagePipeline.preprocess_for_ocr lib (Some image)
           = Raises (Exception "ValueError"))
    /\ (forall (image : image (ImagePipeline.cv lib)) out,
           ImagePipeline.preprocess_for_ocr lib (Some image) = Returns out ->
           map fst out = [PROBLEM; CODE]).
Proof.
  intros lib. split; [reflexivity|]. split.
  - intros image Hsize. unfold ImagePipeline.preprocess_for_ocr.
    now rewrite Hsize.
  - intros image out. unfold ImagePipeline.preprocess_for_ocr.
    destruct (ImagePipeline.size lib image =? 0)%Z; [discriminate|].
    destruct (correct_perspective (ImagePipeline.cv lib)
                (copy (ImagePipeline.cv lib) image)) as [img|e]; simpl;
      [|discriminate].
    destruct (detect_regions (ImagePipeline.cv lib) img) as [found|e] eqn:Hd; simpl;
      [|discriminate].
    destruct (detect_regions_keys (ImagePipeline.cv lib) img found Hd) as (pb & cb & ->).
    intros H. now apply process_regions_keys in H.
Qed.

Lemma preprocess_for_ocr_keys_witness :
  ImagePipeline.preprocess_for_ocr toy_pipeline (Some [])
  = Raises (Exception "ValueError")
  /\ map fst [(PROBLEM, [[255; 255]]%Z); (CODE, [[200; 200]]%Z)]
     = [PROBLEM; CODE].
Proof.
  split.
  - exact (proj1 (proj2 (preprocess_for_ocr_keys toy_pipeline)) [] eq_refl).
  - exact (proj2 (proj2 (preprocess_for_ocr_keys toy_pipeline))
             [[200; 200]; [200; 200]]%Z _ ltac:(vm_compute; reflexivity)).
Defined.

End ImageExtras.

(* ================================================================== *)
(** * Further properties of the functions on recognised text *)
(* ================================================================== *)

Module OCRTextExtras.

Import PyStr Re Notions MoreNotions ReFacts TextFacts.
Import OCRText.

Ltac not_in_literal := vm_compute; intuition discriminate.

Lemma apply_corrections_clean (result : string) :
  ~ In "0"%char (chars (apply_corrections result))
  /\ ~ In "l"%char (chars (apply_corrections result)).
Proof.
  unfold apply_corrections.
  set (r1 := replace "0" "O" result).
  set (r2 := replace "l" "I" r1).
  set (r3 := replace triple_quoted_key "'" r2).
  assert (H1 : ~ In "0"%char (chars r1))
    by (apply replace_char_gone; not_in_literal).
  assert (H2l : ~ In "l"%char (chars r2))
    by (apply replace_char_gone; not_in_literal).
  assert (H2z : ~ In "0"%char (chars r2)).
  { intros H. apply replace_chars in H. destruct H as [H | H]; [tauto|].
    revert H. not_in_literal. }
  assert (H3 : ~ In "0"%char (chars r3) /\ ~ In "l"%char (chars r3)).
  { split; intros H; apply replace_chars in H;
      (destruct H as [H | H]; [tauto|]); revert H; not_in_literal. }
  split; intros H; apply replace_chars in H;
    (destruct H as [H | H]; [tauto|]); revert H; not_in_literal.
Qed.

(** X15: Whatever the text and its type, the result of [post_process_text]
    contains no digit zero and no small letter l: the first two entries of
    [corrections] replace every [0] by [O] and every [l] by [I], in code
    as in prose ([else: return 0] becomes [eIse: return O]), and no later
    step brings one back. *)
Theorem post_processing_leaves_no_zero_and_no_l :
  forall (text : string) (text_type : OCREngine.TextType),
    contains "0" (post_process_text text text_type) = false
    /\ contains "l" (post_process_text text text_type) = false.
Proof.
  intros text text_type. unfold post_process_text.
  destruct text as [|c text]; [split; reflexivity|].
  simpl truthy. simpl negb. cbv beta iota zeta.
  split; apply no_char; apply apply_corrections_clean.
Qed.

(** X16: A piece of text that the pattern of a Python [def], of a Python
    [class] or of an [import] accepts makes [detect_programming_language]
    answer [python], whatever is written around it: a Java file that
    begins with [import java.util.List;] is taken for Python. *)
Theorem import_decides_python :
  forall before piece after : string,
    CodeParser.found CodeParser.python_def_re piece
    || CodeParser.found CodeParser.python_class_re piece
    || CodeParser.found import_re piece = true ->
    detect_programming_language (before ++ piece ++ after) = "python".
Proof.
  intros before piece after H.
  assert (Hf : CodeParser.found CodeParser.python_def_re
                 (before ++ piece ++ after)
               || CodeParser.found CodeParser.python_class_re
                    (before ++ piece ++ after)
               || CodeParser.found import_re (before ++ piece ++ after)
               = true).
  { apply orb_true_iff in H. destruct H as [H | H];
      [apply orb_true_iff in H; destruct H as [H | H]|].
    - now rewrite (found_inside CodeParser.python_def_re before piece after
                     eq_refl H).
    - rewrite (found_inside CodeParser.python_class_re before piece after
                 eq_refl H).
      now rewrite orb_true_r.
    - rewrite (found_inside import_re before piece after eq_refl H).
      now rewrite orb_true_r. }
  unfold detect_programming_language.
  remember (before ++ piece ++ after) as whole eqn:Hwhole.
  destruct whole as [|c whole]; [vm_compute in Hf; discriminate Hf|].
  simpl truthy. simpl negb. cbv iota. now rewrite Hf.
Qed.

Lemma import_decides_python_witness :
  detect_programming_language
    ("" ++ "import java" ++ ".util.List; public class Solution { }")
  = "python".
Proof.
  exact (import_decides_python "" "import java"
           ".util.List; public class Solution { }" eq_refl).
Defined.

End OCRTextExtras.

(* ================================================================== *)
(** * Further properties of the problem parser *)
(* ================================================================== *)

Module ProblemExtras.

Import PyStr Re Notions MoreNotions ReFacts TextFacts.
Import ProblemParser.

Local Open Scope list_scope.
Local Open Scope string_scope.

(** ** The entries of [constraints] *)

Lemma greedy_loop_answers body fuel hi st :
  exists x, rep_loop body false fuel 0 hi st Some = Some x.
Proof.
  destruct fuel as [|fuel]; [simpl; eauto|].
  rewrite rep_loop_S.
  destruct (rep_again body false fuel 0 hi st Some) as [x|]; simpl; eauto.
Qed.

Lemma bullet_matches p (c : ascii) text pos :
  c = newline \/ c = "*"%char ->
  exists m, match_at no_flags bullet_re p (String c text) pos = Some m.
Proof.
  intros Hc. unfold match_at.
  assert (Hrun : exists x,
             run no_flags bullet_re (MState p (String c text) []) Some
             = Some x).
  { change bullet_re with (Alt (Rep false 1 None (Chr newline)) (Chr "*")).
    cbn [run]. rewrite rep_loop_S. unfold rep_again, eat. cbn [rest caps].
    destruct Hc as [-> | ->].
    - change (Ascii.eqb newline newline) with true. cbv iota.
      cbn [rest String.length].
      replace (Nat.ltb (String.length text) (S (String.length text)))
        with true by (symmetry; apply Nat.ltb_lt; lia).
      destruct (greedy_loop_answers
                  (fun st k =>
                     match rest st with
                     | String c s' =>
                         if Ascii.eqb newline c
                         then k (MState (Some c) s' (caps st)) else None
                     | EmptyString => None
                     end)
                  (String.length (String newline text)) None
                  (MState (Some newline) text [])) as [x Hx].
      exists x. cbn [Nat.pred option_map]. unfold eat in Hx.
      cbn [String.length] in Hx. rewrite Hx. reflexivity.
    - change (Ascii.eqb newline "*") with false. cbv iota.
      unfold or_else. change (Ascii.eqb "*" "*") with true. cbv iota. eauto. }
  destruct Hrun as [x ->]. eauto.
Qed.

Lemma bullet_cuts p (c : ascii) text pos :
  c = newline \/ c = "*"%char ->
  exists n,
    option_map (fun m => String.length (m_text m))
      (match_at no_flags bullet_re p (String c text) pos) = Some (S n).
Proof.
  intros Hc. destruct (bullet_matches p c text pos Hc) as [m Hm].
  rewrite Hm. simpl. apply match_at_long in Hm.
  change (min_len bullet_re) with 1 in Hm.
  destruct (String.length (m_text m)) as [|n]; [lia | eauto].
Qed.

Lemma split_from_cut (c : ascii) :
  c = newline \/ c = "*"%char ->
  forall text p pos skip cur piece,
    In piece (split_from no_flags bullet_re p text pos skip cur) ->
    In c (chars piece) -> In c (chars cur).
Proof.
  intros Hc text. induction text as [|a text IH];
    intros p pos skip cur piece Hin Hpiece.
  - assert (piece = rev cur)
      by (destruct skip; simpl in Hin; destruct Hin as [<- | []]; reflexivity).
    subst piece. now apply chars_rev.
  - destruct skip as [|n]; [|exact (IH _ _ _ _ _ Hin Hpiece)].
    cbn [split_from] in Hin.
    destruct (option_map (fun m => String.length (m_text m))
                (match_at no_flags bullet_re p (String a text) pos))
      as [[|n]|] eqn:E.
    + apply (IH _ _ _ _ _ Hin) in Hpiece. simpl in Hpiece.
      destruct Hpiece as [-> | Hpiece]; [|exact Hpiece].
      destruct (bullet_cuts p c text pos Hc) as [n Hn]. congruence.
    + destruct Hin as [<- | Hin]; [now apply chars_rev|].
      apply (IH _ _ _ _ _ Hin) in Hpiece. contradiction Hpiece.
    + apply (IH _ _ _ _ _ Hin) in Hpiece. simpl in Hpiece.
      destruct Hpiece as [-> | Hpiece]; [|exact Hpiece].
      destruct (bullet_cuts p c text pos Hc) as [n Hn]. congruence.
Qed.

Lemma nonempty_lines_entries (c : ascii) (text line : string) :
  c = newline \/ c = "*"%char ->
  In line (nonempty_lines (re_split no_flags bullet_re text)) ->
  line <> "" /\ strip line = line /\ contains (String c "") line = false.
Proof.
  intros Hc Hin. unfold nonempty_lines in Hin.
  apply filter_In in Hin. destruct Hin as [Hin Htruthy].
  apply in_map_iff in Hin. destruct Hin as (piece & <- & Hpiece).
  split; [|split].
  - intros H. rewrite H in Htruthy. discriminate.
  - apply strip_idem.
  - apply no_char. intros H. apply strip_chars in H.
    exact (split_from_cut c Hc _ _ _ _ _ _ Hpiece H).
Qed.

(** X17: Every entry of ['constraints'] is a non-empty text without
    surrounding white space that contains no line break and no [*]: the
    constraints section is cut at every run of line breaks and at every
    bullet, and blank pieces are left out. *)
Theorem constraints_are_single_clean_lines :
  forall text line : string,
    In line (constraints (parse text)) ->
    line <> ""
    /\ strip line = line
    /\ contains (String newline "") line = false
    /\ contains "*" line = false.
Proof.
  intros text line. unfold parse.
  destruct (truthy text); simpl negb; cbv beta iota zeta; cbn [constraints];
    [|contradiction].
  unfold _extract_constraints.
  destruct (search dotall constraints_re (_clean_text text)) as [m|];
    [|contradiction].
  intros Hin.
  destruct (nonempty_lines_entries newline _ line (or_introl eq_refl) Hin)
    as (Hne & Hstrip & Hnl).
  destruct (nonempty_lines_entries "*" _ line (or_intror eq_refl) Hin)
    as (_ & _ & Hstar).
  auto.
Qed.

Lemma constraints_are_single_clean_lines_witness :
  In "1 <= n"
     (constraints
        (parse ("Sum" ++ nl ++ "Constraints:" ++ nl ++ "* 1 <= n" ++ nl
                ++ "* n <= 9")))
  /\ "1 <= n" <> ""
  /\ strip "1 <= n" = "1 <= n"
  /\ contains (String newline "") "1 <= n" = false
  /\ contains "*" "1 <= n" = false.
Proof.
  assert (H : In "1 <= n"
                (constraints
                   (parse ("Sum" ++ nl ++ "Constraints:" ++ nl ++ "* 1 <= n"
                           ++ nl ++ "* n <= 9"))))
    by (vm_compute; left; reflexivity).
  split; [exact H|].
  exact (constraints_are_single_clean_lines _ "1 <= n" H).
Defined.

(** ** Texts without the section keywords *)

Lemma match_at_literal fl (lead : string) (r : regex) p text pos m :
  match_at fl (Cat (lit lead) r) p text pos = Some m ->
  startswith lead text = true.
Proof.
  unfold match_at.
  destruct (run fl (Cat (lit lead) r) (MState p text []) Some) eqn:H;
    [|discriminate].
  intros _. simpl in H. now apply run_lit in H.
Qed.

Lemma match_at_without_literal fl (lead : string) (r : regex) p text pos :
  startswith lead text = false ->
  match_at fl (Cat (lit lead) r) p text pos = None.
Proof.
  intros H. destruct (match_at fl (Cat (lit lead) r) p text pos) eqn:E;
    [|reflexivity].
  apply match_at_literal in E. congruence.
Qed.

Lemma finditer_without_literal fl (lead : string) (r : regex) :
  forall text p pos skip,
    contains lead text = false ->
    finditer_from fl (Cat (lit lead) r) p text pos skip = [].
Proof.
  intros text. induction text as [|c text IH]; intros p pos skip H.
  - destruct skip; [|reflexivity]. cbn [finditer_from].
    rewrite match_at_without_literal; [reflexivity|].
    simpl in H. now apply orb_false_iff in H.
  - change (contains lead (String c text))
      with (startswith lead (String c text) || contains lead text) in H.
    apply orb_false_iff in H. destruct H as [Hs Hc].
    destruct skip as [|n]; cbn [finditer_from]; [|now apply IH].
    rewrite match_at_without_literal by exact Hs. now apply IH.
Qed.

(** X18: A text that, once cleaned, does not contain the word [Constraints]
    has no constraints, and one that does not contain the word [Example]
    has no examples. *)
Theorem no_keyword_no_section :
  forall text : string,
    (contains "Constraints" (_clean_text text) = false ->
     constraints (parse text) = [])
    /\ (contains "Example" (_clean_text text) = false ->
        examples (parse text) = []).
Proof.
  intros text. unfold parse.
  destruct (truthy text); simpl negb; cbv beta iota zeta;
    cbn [constraints examples]; [|split; reflexivity].
  split; intros H.
  - unfold _extract_constraints.
    change constraints_re
      with (Cat (lit "Constraints")
              (seq [opt (Chr ":"); Grp 1 (star_lazy Any); Eol])).
    now rewrite search_without_literal.
  - unfold _extract_examples, finditer.
    change example_re
      with (Cat (lit "Example")
              (seq [star s; plus d; opt (Chr ":"); Grp 1 (star_lazy Any);
                    example_end])).
    now rewrite finditer_without_literal.
Qed.

Lemma no_keyword_no_section_witness :
  constraints (parse "Add two numbers.") = []
  /\ examples (parse "Add two numbers.") = [].
Proof.
  split.
  - exact (proj1 (no_keyword_no_section "Add two numbers.") eq_refl).
  - exact (proj2 (no_keyword_no_section "Add two numbers.") eq_refl).
Defined.

(** ** White space around the fields *)

Lemma field_stripped (r : regex) (text : string) :
  strip (field r text) = field r text.
Proof.
  unfold field. destruct (search dotall r text); [apply strip_idem|].
  reflexivity.
Qed.

(** X19: The description and the three fields of every example carry no
    leading and no trailing white space. *)
Theorem description_and_examples_are_stripped :
  forall text : string,
    strip (description (parse text)) = description (parse text)
    /\ Forall (fun e => strip (input e) = input e
                        /\ strip (output e) = output e
                        /\ strip (explanation e) = explanation e)
              (examples (parse text)).
Proof.
  intros text. unfold parse.
  destruct (truthy text); simpl negb; cbv beta iota zeta;
    cbn [description examples]; [|split; [reflexivity | constructor]].
  split.
  - unfold _extract_description. cbv zeta. apply strip_idem.
  - unfold _extract_examples. apply Forall_map, Forall_forall.
    intros m _. unfold example_of. cbn [input output explanation].
    repeat split; apply field_stripped.
Qed.

(** ** The description has no constraints section *)

Lemma run_Cat fl r1 r2 st k :
  run fl (Cat r1 r2) st k = run fl r1 st (fun st1 => run fl r2 st1 k).
Proof. reflexivity. Qed.

Lemma at_eol_dotall st : at_eol dotall st = true -> line_end (rest st).
Proof.
  unfold at_eol, line_end. destruct (rest st) as [|c t]; [now left|].
  simpl. destruct (Ascii.eqb_spec c newline) as [-> |]; [|discriminate].
  destruct t; [now right | discriminate].
Qed.

Lemma lazy_any_to_eol :
  forall fuel st,
    String.length (rest st) < fuel ->
    exists x,
      rep_loop (run dotall Any) true fuel 0 None st
        (fun st1 => run dotall Eol st1 Some) = Some x.
Proof.
  induction fuel as [|fuel IH]; intros st Hlen; [lia|].
  rewrite rep_loop_S. cbn [run].
  destruct (at_eol dotall st) eqn:He; [simpl; eauto|].
  simpl or_else. unfold rep_again, eat.
  destruct (rest st) as [|c t] eqn:Hr;
    [unfold at_eol in He; rewrite Hr in He; discriminate|].
  cbn [DOTALL dotall orb rest String.length Nat.pred option_map].
  replace (Nat.ltb (String.length t) (S (String.length t)))
    with true by (symmetry; apply Nat.ltb_lt; lia).
  apply (IH (MState (Some c) t (caps st))). simpl in *. lia.
Qed.

Lemma greedy_total body fuel hi st (k : cont) :
  (forall st', exists x, k st' = Some x) ->
  exists x, rep_loop body false fuel 0 hi st k = Some x.
Proof.
  intros Hk. destruct fuel as [|fuel]; [simpl; apply Hk|].
  rewrite rep_loop_S.
  destruct (rep_again body false fuel 0 hi st k) as [x|]; simpl;
    [eauto | apply Hk].
Qed.

Lemma after_keyword_answers st :
  exists x, run dotall after_keyword st Some = Some x.
Proof.
  change after_keyword
    with (Cat (opt (Chr ":")) (Cat (star_lazy Any) Eol)).
  rewrite run_Cat. unfold opt. rewrite run_Rep.
  apply greedy_total. intros st'.
  rewrite run_Cat. unfold star_lazy. rewrite run_Rep.
  apply lazy_any_to_eol. lia.
Qed.

Lemma run_lit_answers fl (lead : string) (k : cont) :
  (forall st', exists x, k st' = Some x) ->
  forall st, startswith lead (rest st) = true ->
             exists x, run fl (lit lead) st k = Some x.
Proof.
  intros Hk. induction lead as [|c lead IH]; intros st H; [apply Hk|].
  destruct (rest st) as [|e t] eqn:Hr; [discriminate H|].
  change (startswith (String c lead) (String e t))
    with (Ascii.eqb c e && startswith lead t) in H.
  apply andb_prop in H. destruct H as [Hc Hl].
  destruct lead as [|d lead].
  - simpl. unfold eat. rewrite Hr, Hc. apply Hk.
  - change (lit (String c (String d lead)))
      with (Cat (Chr c) (lit (String d lead))).
    rewrite run_Cat. cbn [run]. unfold eat at 1. rewrite Hr, Hc.
    apply IH. exact Hl.
Qed.

Lemma keyword_match p (c : ascii) text pos :
  startswith "Constraints" (String c text) = true ->
  exists m n,
    match_at dotall (Cat (lit "Constraints") after_keyword) p (String c text)
      pos = Some m
    /\ String.length (m_text m) = S n
    /\ line_end (m_after m).
Proof.
  intros H.
  destruct (run_lit_answers dotall "Constraints"
              (fun st1 => run dotall after_keyword st1 Some)
              after_keyword_answers (MState p (String c text) []) H)
    as [x Hx].
  assert (Hm : match_at dotall (Cat (lit "Constraints") after_keyword) p
                 (String c text) pos
               = Some (Match pos (consumed (MState p (String c text) []) x)
                         (caps x) (rest x)))
    by (unfold match_at; rewrite run_Cat, Hx; reflexivity).
  pose proof (match_at_long _ _ _ _ _ _ Hm) as Hlong.
  change (min_len (Cat (lit "Constraints") after_keyword)) with 11 in Hlong.
  cbn [m_text] in Hlong.
  destruct (String.length (consumed (MState p (String c text) []) x))
    as [|n] eqn:Hn; [lia|].
  eexists. exists n. split; [exact Hm|]. split; [exact Hn|].
  cbn [m_after].
  change after_keyword
    with (Cat (opt (Chr ":")) (Cat (star_lazy Any) Eol)) in Hx.
  apply run_reaches in Hx. destruct Hx as (b1 & w1 & Hx & _).
  rewrite run_Cat in Hx. apply run_reaches in Hx.
  destruct Hx as (b2 & w2 & Hx & _).
  rewrite run_Cat in Hx. apply run_reaches in Hx.
  destruct Hx as (b3 & w3 & Hx & _).
  cbn [run] in Hx. destruct (at_eol dotall b3) eqn:He; [|discriminate].
  injection Hx as <-. now apply at_eol_dotall.
Qed.

Lemma sub_from_miss fl r repl p (c : ascii) text pos :
  match_at fl r p (String c text) pos = None ->
  sub_from fl r repl None p (String c text) pos 0
  = String c (sub_from fl r repl None (Some c) text (S pos) 0).
Proof. intros H. cbn [sub_from]. now rewrite H. Qed.

Lemma sub_from_hit fl r repl p (c : ascii) text pos m n :
  match_at fl r p (String c text) pos = Some m ->
  String.length (m_text m) = S n ->
  sub_from fl r repl None p (String c text) pos 0
  = repl m ++ sub_from fl r repl None (Some c) text (S pos) n.
Proof. intros H Hn. cbn [sub_from]. now rewrite H, Hn. Qed.

Local Abbreviation cut_constraints :=
  (sub_from dotall (Cat (lit "Constraints") after_keyword) erase None).

Lemma cut_line_end (tail : string) p pos :
  line_end tail -> cut_constraints p tail pos 0 = tail.
Proof.
  intros [-> | ->].
  - cbn [sub_from]. now rewrite match_at_without_literal.
  - rewrite sub_from_miss by now apply match_at_without_literal.
    cbn [sub_from]. now rewrite match_at_without_literal.
Qed.

Lemma cut_after_match (tail : string) :
  line_end tail ->
  forall a p pos,
    cut_constraints p (a ++ tail) pos (String.length a) = tail.
Proof.
  intros Htail a. induction a as [|c a IH]; intros p pos.
  - now apply cut_line_end.
  - simpl. apply IH.
Qed.

Lemma startswith_empty (q : string) : startswith q "" = true -> q = "".
Proof. destruct q; [reflexivity | discriminate]. Qed.

Lemma line_end_keyword_free (text tail : string) :
  line_end tail -> keyword_free "Constraints" text tail.
Proof.
  intros [-> | ->]; (split; [reflexivity|]); intros q Hq H.
  - now rewrite (startswith_empty q H).
  - destruct q as [|e q]; [reflexivity|].
    change (startswith (String e q) (String newline ""))
      with (Ascii.eqb e newline && startswith q "") in H.
    apply andb_prop in H. destruct H as [He _].
    apply Ascii.eqb_eq in He. subst e. exfalso. apply Hq. now left.
Qed.

Lemma cut_keyword_free :
  forall text p pos,
    keyword_free "Constraints" text (cut_constraints p text pos 0).
Proof.
  intros text. induction text as [|c text IH]; intros p pos.
  - rewrite cut_line_end by now left.
    apply line_end_keyword_free. now left.
  - destruct (startswith "Constraints" (String c text)) eqn:Hs.
    + destruct (keyword_match p c text pos Hs) as (m & n & Hm & Hn & Htail).
      rewrite (sub_from_hit _ _ _ _ _ _ _ m n Hm Hn).
      change (erase m ++ cut_constraints (Some c) text (S pos) n)
        with (cut_constraints (Some c) text (S pos) n).
      pose proof (match_at_shape _ _ _ _ _ _ Hm) as Hshape.
      destruct (m_text m) as [|c' a]; [discriminate Hn|].
      injection Hshape as <- ->. injection Hn as <-.
      rewrite (cut_after_match _ Htail).
      now apply line_end_keyword_free.
    + rewrite sub_from_miss by now apply match_at_without_literal.
      destruct (IH (Some c) (S pos)) as [Hfree Hprefix].
      assert (Hcons : forall q, ~ In newline (chars q) ->
                startswith q
                  (String c (cut_constraints (Some c) text (S pos) 0)) = true ->
                startswith q (String c text) = true).
      { intros q Hq H. destruct q as [|e q]; [reflexivity|].
        change (startswith (String e q) (String c text))
          with (Ascii.eqb e c && startswith q text).
        change (Ascii.eqb e c
                && startswith q (cut_constraints (Some c) text (S pos) 0)
                = true) in H.
        apply andb_prop in H. destruct H as [He H]. rewrite He. simpl.
        apply Hprefix; [|exact H]. intros Hin. apply Hq. now right. }
      split; [|exact Hcons].
      change (startswith "Constraints"
                (String c (cut_constraints (Some c) text (S pos) 0))
              || contains "Constraints"
                   (cut_constraints (Some c) text (S pos) 0) = false).
      rewrite Hfree, orb_false_r.
      destruct (startswith "Constraints"
                  (String c (cut_constraints (Some c) text (S pos) 0)))
        eqn:Hout; [|reflexivity].
      apply Hcons in Hout; [congruence|]. vm_compute. intuition discriminate.
Qed.

Lemma startswith_append (q a b : string) :
  startswith q a = true -> startswith q (a ++ b) = true.
Proof.
  revert a. induction q as [|e q IH]; intros a H; [reflexivity|].
  destruct a as [|c a]; [discriminate H|].
  change (Ascii.eqb e c && startswith q a = true) in H.
  change (Ascii.eqb e c && startswith q (a ++ b) = true).
  apply andb_prop in H. destruct H as [-> H]. simpl. now apply IH.
Qed.

Lemma contains_append_r (q a b : string) :
  contains q a = true -> contains q (a ++ b) = true.
Proof.
  induction a as [|c a IH]; intros H.
  - simpl in H. rewrite orb_false_r in H.
    rewrite (startswith_empty q H). destruct b; reflexivity.
  - change (startswith q (String c a) || contains q a = true) in H.
    change (startswith q (String c a ++ b) || contains q (a ++ b) = true).
    apply orb_true_iff in H. destruct H as [H | H].
    + now rewrite (startswith_append q (String c a) b H).
    + rewrite (IH H). apply orb_true_r.
Qed.

Lemma contains_append_l (q a b : string) :
  contains q b = true -> contains q (a ++ b) = true.
Proof.
  intros H. induction a as [|c a IH]; [exact H|].
  change (startswith q (String c (a ++ b)) || contains q (a ++ b) = true).
  rewrite IH. apply orb_true_r.
Qed.

Lemma strip_keeps_free (q text : string) :
  contains q text = false -> contains q (strip text) = false.
Proof.
  intros H. destruct (contains q (strip text)) eqn:E; [|reflexivity].
  destruct (strip_inside text) as (a & b & Hshape).
  rewrite Hshape in H.
  now rewrite (contains_append_l q a _ (contains_append_r q _ b E)) in H.
Qed.

(** X20: The description never contains the word [Constraints]: the last step
    of [_extract_description] removes everything from the first
    occurrence of the word to the end of the text, so that the
    constraints section, and whatever follows it, is never part of the
    description. *)
Theorem description_has_no_constraints_section :
  forall text : string,
    contains "Constraints" (description (parse text)) = false.
Proof.
  intros text. unfold parse.
  destruct (truthy text); simpl negb; cbv beta iota zeta;
    cbn [description]; [|reflexivity].
  unfold _extract_description. cbv zeta.
  apply strip_keeps_free. unfold sub.
  apply (cut_keyword_free _ None 0).
Qed.

End ProblemExtras.

(* ================================================================== *)
(** * Further properties of the OCR engine *)
(* ================================================================== *)

Module OCRExtras.

Import Py Cv Notions MoreNotions.
Import OCREngine.

Section Engine.

Variable cv : library.
Variable self_lang : string.

Lemma extract_text_propagates (img : image cv) (text_type : TextType)
  (lang : option string) (e : exn) :
  preprocess_image cv img text_type = Raises e ->
  extract_text cv self_lang img text_type lang = Raises e.
Proof. intros H. unfold extract_text. now rewrite H. Qed.

Lemma loop_step region_type (region_image : image cv) items results :
  extract_from_regions_loop cv self_lang
    ((region_type, region_image) :: items) results
  = bind (extract_text cv self_lang region_image (text_type_of region_type)
            None)
      (fun text =>
         extract_from_regions_loop cv self_lang items
           (results ++ [(region_type, text)])%list).
Proof. destruct region_type; reflexivity. Qed.

Lemma loop_stops_at_failure region_type (region_image : image cv) (e : exn) :
  forall done rest results,
    (forall rt ri, In (rt, ri) done ->
       exists text,
         extract_text cv self_lang ri (text_type_of rt) None = Returns text) ->
    preprocess_image cv region_image (text_type_of region_type) = Raises e ->
    extract_from_regions_loop cv self_lang
      (done ++ (region_type, region_image) :: rest)%list results
    = Raises e.
Proof.
  induction done as [|[rt ri] done IH]; intros rest results Hdone Hbad.
  - simpl app. rewrite loop_step.
    now rewrite (extract_text_propagates _ _ None e Hbad).
  - simpl app. rewrite loop_step.
    destruct (Hdone rt ri (or_introl eq_refl)) as [text ->]. simpl.
    apply IH; [|exact Hbad].
    intros rt' ri' Hin. apply Hdone. now right.
Qed.

End Engine.

(** X21: Only the call of the OCR engine is protected: an exception raised
    while a region is preprocessed leaves [extract_text] as it is, and
    [extract_from_regions] then raises it too, without the texts of the
    regions already read. *)
Theorem preprocessing_failure_is_not_caught :
  forall (cv : library) (self_lang : string)
         (done rest : list (ImageProcessor.RegionType * image cv))
         (region_type : ImageProcessor.RegionType) (region_image : image cv)
         (e : exn),
    (forall rt ri, In (rt, ri) done ->
       exists text,
         extract_text cv self_lang ri (text_type_of rt) None = Returns text) ->
    preprocess_image cv region_image (text_type_of region_type) = Raises e ->
    extract_text cv self_lang region_image (text_type_of region_type) None
    = Raises e
    /\ extract_from_regions cv self_lang
         (done ++ (region_type, region_image) :: rest)%list
       = Raises e.
Proof.
  intros cv self_lang done rest region_type region_image e Hdone Hbad. split.
  - now apply extract_text_propagates.
  - now apply loop_stops_at_failure.
Qed.

Lemma preprocessing_failure_is_not_caught_witness :
  extract_text failing_library "eng" (blank_page 2) PROBLEM None
  = Raises (Exception "cv2.error")
  /\ extract_from_regions failing_library "eng"
       [(ImageProcessor.CODE, blank_page 3);
        (ImageProcessor.PROBLEM, blank_page 2)]
     = Raises (Exception "cv2.error").
Proof.
  refine (preprocessing_failure_is_not_caught failing_library "eng"
            [(ImageProcessor.CODE, blank_page 3)] []
            ImageProcessor.PROBLEM (blank_page 2) (Exception "cv2.error")
            _ _).
  - intros rt ri [H | []]. inversion H; subst.
    exists "". vm_compute. reflexivity.
  - vm_compute. reflexivity.
Defined.

End OCRExtras.

(* ================================================================== *)
(** * What the matcher consumes and captures *)
(* ================================================================== *)

Module CaptureFacts.

Import PyStr Re Notions MoreNotions ReFacts TextFacts.

Local Open Scope list_scope.
Local Open Scope string_scope.

Lemma lookup_app_l n (a b : list (nat * string)) :
  lookup n a <> None -> lookup n (a ++ b)%list <> None.
Proof.
  induction a as [|[i t] a IH]; simpl; [congruence|].
  destruct (Nat.eqb i n); [discriminate | exact IH].
Qed.

Lemma lookup_app_r n (a b : list (nat * string)) :
  lookup n b <> None -> lookup n (a ++ b)%list <> None.
Proof.
  intros H. induction a as [|[i t] a IH]; simpl; [exact H|].
  destruct (Nat.eqb i n); [discriminate | exact IH].
Qed.

Lemma lookup_In n (l : list (nat * string)) t :
  lookup n l = Some t -> In (n, t) l.
Proof.
  induction l as [|[i u] l IH]; simpl; [discriminate|].
  destruct (Nat.eqb_spec i n) as [-> |].
  - intros [= ->]. now left.
  - intros H. right. now apply IH.
Qed.

Lemma consumed_append st b u : rest st = u ++ rest b -> consumed st b = u.
Proof.
  intros H. unfold consumed. rewrite H, append_length.
  replace (String.length u + String.length (rest b)
           - String.length (rest b)) with (String.length u) by lia.
  apply take_append.
Qed.

Section Sound.

Variable fl : flags.
Variable Q : nat -> string -> Prop.

Lemma sound_here r st :
  matches fl r "" -> (forall n, sets n r = false) -> sound fl Q r st st.
Proof.
  intros Hm Hs. exists "", []. repeat split; try assumption.
  - constructor.
  - intros n Hn. rewrite Hs in Hn. discriminate.
Qed.

Lemma sound_eat (r : regex) (c : ascii) st :
  matches fl r (String c "") -> (forall n, sets n r = false) ->
  forall t, rest st = String c t ->
            sound fl Q r st (MState (Some c) t (caps st)).
Proof.
  intros Hm Hs t Hr. exists (String c ""), []. repeat split.
  - exact Hr.
  - exact Hm.
  - constructor.
  - intros n Hn. rewrite Hs in Hn. discriminate.
Qed.

Lemma sound_Cat r1 r2 st b1 b2 :
  sound fl Q r1 st b1 -> sound fl Q r2 b1 b2 -> sound fl Q (Cat r1 r2) st b2.
Proof.
  intros (u1 & new1 & Hr1 & Hm1 & Hc1 & Hq1 & Hs1)
         (u2 & new2 & Hr2 & Hm2 & Hc2 & Hq2 & Hs2).
  exists (u1 ++ u2), (new2 ++ new1)%list. repeat split.
  - rewrite Hr1, Hr2. now rewrite append_assoc.
  - now constructor.
  - rewrite Hc2, Hc1. now rewrite app_assoc.
  - apply Forall_app. now split.
  - intros n Hn. simpl in Hn. apply orb_true_iff in Hn.
    destruct Hn as [Hn | Hn].
    + apply lookup_app_r. now apply Hs1.
    + apply lookup_app_l. now apply Hs2.
Qed.

Lemma sound_again lz lo hi r st b1 b2 :
  hi <> Some 0 ->
  sound fl Q r st b1 ->
  sound fl Q (Rep lz (Nat.pred lo) (option_map Nat.pred hi) r) b1 b2 ->
  sound fl Q (Rep lz lo hi r) st b2.
Proof.
  intros Hhi (u1 & new1 & Hr1 & Hm1 & Hc1 & Hq1 & Hs1)
         (u2 & new2 & Hr2 & Hm2 & Hc2 & Hq2 & Hs2).
  exists (u1 ++ u2), (new2 ++ new1)%list. repeat split.
  - rewrite Hr1, Hr2. now rewrite append_assoc.
  - now constructor.
  - rewrite Hc2, Hc1. now rewrite app_assoc.
  - apply Forall_app. now split.
  - intros n Hn. simpl in Hn. destruct lo as [|lo]; [discriminate|].
    apply lookup_app_r. now apply Hs1.
Qed.

Lemma rep_loop_sound lz r :
  (forall st k x, run fl r st k = Some x ->
                  exists b, k b = Some x /\ sound fl Q r st b) ->
  forall fuel lo hi st k x,
    rep_loop (run fl r) lz fuel lo hi st k = Some x ->
    exists b, k b = Some x /\ sound fl Q (Rep lz lo hi r) st b.
Proof.
  intros Hr. induction fuel as [|fuel IH]; intros lo hi st k x H.
  - simpl in H. destruct lo; [|discriminate].
    exists st. split; [exact H|]. apply sound_here; [constructor | reflexivity].
  - rewrite rep_loop_S in H.
    assert (Hstop : lo = 0 -> k st = Some x ->
                    exists b, k b = Some x /\ sound fl Q (Rep lz lo hi r) st b).
    { intros -> Hk. exists st. split; [exact Hk|].
      apply sound_here; [constructor | reflexivity]. }
    assert (Hagain : rep_again (run fl r) lz fuel lo hi st k = Some x ->
                     exists b, k b = Some x
                               /\ sound fl Q (Rep lz lo hi r) st b).
    { unfold rep_again. intros Ha.
      assert (Hhi : hi <> Some 0) by (intros ->; discriminate Ha).
      assert (Hcall :
        run fl r st (fun st' =>
          if Nat.ltb (String.length (rest st')) (String.length (rest st))
          then rep_loop (run fl r) lz fuel (Nat.pred lo)
                 (option_map Nat.pred hi) st' k
          else None) = Some x)
        by (destruct hi as [[|n]|]; [discriminate | exact Ha | exact Ha]).
      apply Hr in Hcall. destruct Hcall as (b1 & Hb1 & Hs1).
      destruct (Nat.ltb (String.length (rest b1)) (String.length (rest st)));
        [|discriminate].
      apply IH in Hb1. destruct Hb1 as (b2 & Hb2 & Hs2).
      exists b2. split; [exact Hb2|]. now apply (sound_again _ _ _ _ _ b1). }
    destruct lo as [|lo]; [|now apply Hagain].
    destruct lz; apply or_else_Some in H; destruct H as [H | [_ H]];
      auto.
Qed.

Lemma run_sound r :
  groups_ok fl Q r ->
  forall st k x, run fl r st k = Some x ->
                 exists b, k b = Some x /\ sound fl Q r st b.
Proof.
  induction r as [| c | | neg items | r1 IH1 r2 IH2 | r1 IH1 r2 IH2
                 | lz lo hi r IH | n r IH | | | r IH];
    intros Hg st k x H; simpl in Hg.
  - exists st. split; [exact H|]. apply sound_here; [constructor | reflexivity].
  - simpl in H. unfold eat in H. destruct (rest st) as [|e t] eqn:Hr;
      [discriminate|].
    destruct (Ascii.eqb_spec c e) as [<- |]; [|discriminate].
    eexists. split; [exact H|].
    apply sound_eat; [constructor | reflexivity | exact Hr].
  - simpl in H. unfold eat in H. destruct (rest st) as [|e t] eqn:Hr;
      [discriminate|].
    destruct (DOTALL fl || negb (Ascii.eqb e newline)) eqn:He; [|discriminate].
    eexists. split; [exact H|].
    apply sound_eat; [now constructor | reflexivity | exact Hr].
  - simpl in H. unfold eat in H. destruct (rest st) as [|e t] eqn:Hr;
      [discriminate|].
    destruct (cls_mem neg items e) eqn:He; [|discriminate].
    eexists. split; [exact H|].
    apply sound_eat; [now constructor | reflexivity | exact Hr].
  - destruct Hg as [Hg1 Hg2]. simpl in H.
    apply (IH1 Hg1) in H. destruct H as (b1 & H & Hs1).
    apply (IH2 Hg2) in H. destruct H as (b2 & H & Hs2).
    exists b2. split; [exact H|]. now apply (sound_Cat _ _ _ b1).
  - destruct Hg as [Hg1 Hg2]. simpl in H. apply or_else_Some in H.
    destruct H as [H | [_ H]].
    + apply (IH1 Hg1) in H. destruct H as (b & H & u & new & Hr & Hm & Hc & Hq & Hs).
      exists b. split; [exact H|]. exists u, new. repeat split; try assumption.
      * now apply M_Alt_l.
      * intros n Hn. simpl in Hn. apply andb_prop in Hn. now apply Hs.
    + apply (IH2 Hg2) in H. destruct H as (b & H & u & new & Hr & Hm & Hc & Hq & Hs).
      exists b. split; [exact H|]. exists u, new. repeat split; try assumption.
      * now apply M_Alt_r.
      * intros n Hn. simpl in Hn. apply andb_prop in Hn. now apply Hs.
  - rewrite run_Rep in H. now apply (rep_loop_sound lz r (IH Hg)) in H.
  - destruct Hg as [Hg Hq]. rewrite run_Grp in H.
    apply (IH Hg) in H.
    destruct H as (b & H & u & new & Hr & Hm & Hc & Hnew & Hs).
    eexists. split; [exact H|].
    exists u, ((n, consumed st b) :: new)%list. cbn [rest caps]. repeat split.
    + exact Hr.
    + now constructor.
    + now rewrite Hc.
    + constructor; [|exact Hnew]. cbn [fst snd].
      rewrite (consumed_append st b u Hr). now apply Hq.
    + intros m Hm'. simpl in Hm'. simpl.
      destruct (Nat.eqb n m); [discriminate|]. now apply Hs.
  - simpl in H. destruct (at_bol fl st); [|discriminate].
    exists st. split; [exact H|]. apply sound_here; [constructor | reflexivity].
  - simpl in H. destruct (at_eol fl st); [|discriminate].
    exists st. split; [exact H|]. apply sound_here; [constructor | reflexivity].
  - simpl in H. destruct (run fl r st Some) as [st'|] eqn:Hrun; [|discriminate].
    apply (IH Hg) in Hrun.
    destruct Hrun as (b & [= ->] & u & new & Hr & Hm & Hc & Hnew & Hs).
    eexists. split; [exact H|].
    exists "", new. cbn [rest caps]. repeat split; try assumption.
    constructor.
Qed.

(** The groups of a match object. *)
Lemma match_at_groups r p text pos m :
  groups_ok fl Q r ->
  match_at fl r p text pos = Some m ->
  (forall n t, group m n = Some t -> Q n t)
  /\ (forall n, sets n r = true -> group m n <> None).
Proof.
  intros Hg. unfold match_at.
  destruct (run fl r (MState p text []) Some) as [x|] eqn:H; [|discriminate].
  intros [= <-]. apply (run_sound r Hg) in H.
  destruct H as (b & [= ->] & u & new & _ & _ & Hc & Hnew & Hs).
  cbn [caps] in Hc. rewrite app_nil_r in Hc.
  unfold group. cbn [m_caps]. rewrite Hc. split.
  - intros n t Hl. apply lookup_In in Hl.
    rewrite Forall_forall in Hnew. exact (Hnew _ Hl).
  - exact Hs.
Qed.

Lemma search_groups r text m :
  groups_ok fl Q r ->
  search fl r text = Some m ->
  (forall n t, group m n = Some t -> Q n t)
  /\ (forall n, sets n r = true -> group m n <> None).
Proof.
  intros Hg. unfold search. generalize (@None ascii). generalize 0.
  induction text as [|c text IH]; intros pos p; simpl.
  - destruct (match_at fl r p "" pos) as [m'|] eqn:H; [|discriminate].
    intros [= <-]. now apply (match_at_groups r p "" pos).
  - destruct (match_at fl r p (String c text) pos) as [m'|] eqn:H.
    + intros [= <-]. now apply (match_at_groups r p (String c text) pos).
    + apply IH.
Qed.

End Sound.

(** A group that takes part in every match has a text, and the text
    satisfies what holds of the texts of its body. *)
Lemma named_group fl (Q : nat -> string -> Prop) r n m :
  groups_ok fl Q r -> sets n r = true ->
  (forall n t, group m n = Some t -> Q n t)
  /\ (forall n, sets n r = true -> group m n <> None) ->
  Q n (group_str m n).
Proof.
  intros Hg Hn [Hq Hs]. unfold group_str.
  destruct (group m n) as [t|] eqn:E; [now apply Hq|].
  now apply Hs in Hn.
Qed.

(** A group that is set satisfies what holds of the texts of its body. *)
Lemma optional_group (Q : nat -> string -> Prop) n m :
  (forall n t, group m n = Some t -> Q n t) ->
  group_truthy m n = true -> Q n (group_str m n).
Proof.
  intros Hq. unfold group_truthy, group_str.
  destruct (group m n) as [t|] eqn:E; [|discriminate].
  intros _. now apply Hq.
Qed.

(** ** Loops over one class of characters *)

Lemma matches_rep_chars fl (p : ascii -> bool) r :
  (forall u, matches fl r u -> Forall (fun c => p c = true) (chars u)) ->
  forall lz lo hi t,
    matches fl (Rep lz lo hi r) t -> Forall (fun c => p c = true) (chars t).
Proof.
  intros Hr lz lo hi t H. remember (Rep lz lo hi r) as loop eqn:E.
  revert lo hi E.
  induction H as [| | | | | | | lz' hi' r'
                 | lz' lo' hi' r' u v Hhi Hu _ Hv IH | | | |];
    intros lo hi E; try discriminate E.
  - constructor.
  - injection E as E1 E2 E3 E4. subst lz' lo' hi' r'.
    rewrite chars_append. apply Forall_app. split.
    + now apply Hr.
    + now apply (IH (Nat.pred lo) (option_map Nat.pred hi)).
Qed.

Lemma matches_rep_nonempty fl lz lo hi r t :
  (forall u, matches fl r u -> u <> "") ->
  matches fl (Rep lz (S lo) hi r) t -> t <> "".
Proof.
  intros Hr H. inversion H as [| | | | | | | | lz' lo' hi' r' u v Hhi Hu Hv | | | |];
    subst.
  apply Hr in Hu. destruct u; [congruence | discriminate].
Qed.

Lemma matches_Cls fl neg items u :
  matches fl (Cls neg items) u ->
  u <> "" /\ Forall (fun c => cls_mem neg items c = true) (chars u).
Proof.
  intros H. inversion H; subst. split; [discriminate|]. now repeat constructor.
Qed.

Lemma matches_class_loop fl lz lo hi neg items t :
  matches fl (Rep lz lo hi (Cls neg items)) t ->
  Forall (fun c => cls_mem neg items c = true) (chars t).
Proof.
  apply matches_rep_chars. intros u Hu. now apply matches_Cls in Hu.
Qed.

Lemma matches_word fl lz lo hi t :
  matches fl (Rep lz (S lo) hi (Cls false [CWord])) t -> word t.
Proof.
  intros H. split.
  - revert H. apply matches_rep_nonempty. intros u Hu.
    now apply matches_Cls in Hu.
  - apply matches_class_loop in H. revert H. apply Forall_impl.
    intros c Hc. unfold cls_mem in Hc. simpl in Hc.
    now rewrite orb_false_r in Hc.
Qed.

(** ** The text of a group is a text of its body *)

Lemma bodies_groups fl idx (bodies : list regex) r :
  incl (bodies_of idx r) bodies ->
  groups_ok fl (text_of_body fl idx bodies) r.
Proof.
  induction r as [| c | | neg items | r1 IH1 r2 IH2 | r1 IH1 r2 IH2
                 | lz lo hi r IH | n r IH | | | r IH]; simpl; intros H;
    try exact I; try (now apply IH);
    try (split; [apply IH1 | apply IH2]; intros body Hb; apply H;
         apply in_or_app; tauto).
  split.
  - apply IH. intros body Hb. apply H. apply in_or_app. now right.
  - intros u Hu Hn. exists r. split; [|exact Hu].
    apply H. apply in_or_app. left. subst n. rewrite Nat.eqb_refl. now left.
Qed.

Lemma group_text fl r idx text m t :
  search fl r text = Some m ->
  group m idx = Some t ->
  exists body, In body (bodies_of idx r) /\ matches fl body t.
Proof.
  intros H Hg.
  destruct (search_groups fl _ r text m
              (bodies_groups fl idx (bodies_of idx r) r (incl_refl _)) H)
    as [Hq _].
  exact (Hq idx t Hg eq_refl).
Qed.

Lemma matched_group_text fl r idx text m t :
  re_match fl r text = Some m ->
  group m idx = Some t ->
  exists body, In body (bodies_of idx r) /\ matches fl body t.
Proof.
  intros H Hg.
  destruct (match_at_groups fl _ r None text 0 m
              (bodies_groups fl idx (bodies_of idx r) r (incl_refl _)) H)
    as [Hq _].
  exact (Hq idx t Hg eq_refl).
Qed.

Lemma excluded_char fl lz lo hi (c : ascii) t :
  matches fl (Rep lz lo hi (Cls true [CChar c])) t -> ~ In c (chars t).
Proof.
  intros H Hin. apply matches_class_loop in H.
  rewrite Forall_forall in H. apply H in Hin.
  unfold cls_mem in Hin. simpl in Hin. now rewrite Ascii.eqb_refl in Hin.
Qed.

(** ** The matched text is a text of the pattern *)

Lemma any_groups fl r : groups_ok fl any_capture r.
Proof.
  induction r; simpl; try exact I; try assumption; try (now split).
Qed.

Lemma match_at_text fl r p text pos m :
  match_at fl r p text pos = Some m -> matches fl r (m_text m).
Proof.
  unfold match_at.
  destruct (run fl r (MState p text []) Some) as [x|] eqn:H; [|discriminate].
  intros [= <-]. cbn [m_text].
  apply (run_sound fl any_capture r (any_groups fl r)) in H.
  destruct H as (b & [= ->] & u & new & Hr & Hm & _).
  now rewrite (consumed_append _ _ u Hr).
Qed.

Lemma search_text fl r text m :
  search fl r text = Some m -> matches fl r (m_text m).
Proof.
  unfold search. generalize (@None ascii) at 1. generalize 0 at 1.
  induction text as [|c text IH]; intros pos p; simpl search_from.
  - destruct (match_at fl r p "" pos) as [m'|] eqn:H; [|discriminate].
    intros [= <-]. now apply match_at_text in H.
  - destruct (match_at fl r p (String c text) pos) as [m'|] eqn:H.
    + intros [= <-]. now apply match_at_text in H.
    + apply IH.
Qed.

Lemma matches_min_len fl r u :
  matches fl r u -> min_len r <= String.length u.
Proof.
  intros H. induction H; simpl; try lia.
  - rewrite append_length. lia.
  - destruct lo; [lia|]. rewrite append_length. lia.
Qed.

Lemma matches_lit fl (lead u : string) : matches fl (lit lead) u -> u = lead.
Proof.
  revert u. induction lead as [|c lead IH]; intros u H.
  - now inversion H.
  - destruct lead as [|d lead].
    + now inversion H.
    + change (lit (String c (String d lead)))
        with (Cat (Chr c) (lit (String d lead))) in H.
      inversion H as [| | | | r1 r2 u1 u2 H1 H2 | | | | | | | |]; subst.
      inversion H1; subst. apply IH in H2. now subst u2.
Qed.

Lemma matches_ends fl (c : ascii) r :
  ends_in c r = true ->
  forall t, matches fl r t -> exists u, t = u ++ String c "".
Proof.
  induction r as [| d | | neg items | r1 IH1 r2 IH2 | r1 IH1 r2 IH2
                 | lz lo hi r IH | n r IH | | | r IH]; simpl; intros He t H;
    try discriminate He.
  - apply Ascii.eqb_eq in He. subst d. inversion H; subst. now exists "".
  - inversion H as [| | | | ? ? u1 u2 H1 H2 | | | | | | | |]; subst.
    destruct (IH2 He _ H2) as [u ->]. exists (u1 ++ u).
    now rewrite append_assoc.
  - apply andb_prop in He. destruct He as [He1 He2].
    inversion H; subst; auto.
  - inversion H; subst. auto.
Qed.

End CaptureFacts.

(* ================================================================== *)
(** * Names and types found by the code parser *)
(* ================================================================== *)

Module ParserNames.

Import PyStr Re CodeParser Notions MoreNotions ReFacts TextFacts CaptureFacts.

Local Open Scope list_scope.
Local Open Scope string_scope.

Lemma word_loop_word fl r u : word_loop r = true -> matches fl r u -> word u.
Proof.
  destruct r as [| | | | | | lz [|lo] hi [| | | [|] [|[| | | |] [|]] | | | | | | |]
                | | | |]; try discriminate.
  intros _. apply matches_word.
Qed.

(** The check of a pattern by [names_in] is enough. *)
Lemma names_in_groups fl idx r :
  names_in idx r = true -> groups_ok fl (name_is_word idx) r.
Proof.
  induction r as [| c | | neg items | r1 IH1 r2 IH2 | r1 IH1 r2 IH2
                 | lz lo hi r IH | n r IH | | | r IH]; simpl; intros H;
    try exact I; try (now apply IH);
    try (apply andb_prop in H; destruct H as [H1 H2]; split; now auto).
  apply andb_prop in H. destruct H as [H1 H2]. split; [now apply IH|].
  intros u Hu Hn. subst n. rewrite Nat.eqb_refl in H2. simpl in H2.
  now apply (word_loop_word fl r).
Qed.

Lemma found_name r idx text m :
  names_in idx r = true -> sets idx r = true ->
  search no_flags r text = Some m -> word (group_str m idx).
Proof.
  intros Hn Hs H. pose proof (names_in_groups no_flags idx r Hn) as Hg.
  exact (named_group no_flags _ r idx m Hg Hs
           (search_groups no_flags _ r text m Hg H) eq_refl).
Qed.

Lemma matched_name r idx text m :
  names_in idx r = true -> sets idx r = true ->
  re_match no_flags r text = Some m -> word (group_str m idx).
Proof.
  intros Hn Hs H. pose proof (names_in_groups no_flags idx r Hn) as Hg.
  exact (named_group no_flags _ r idx m Hg Hs
           (match_at_groups no_flags _ r None text 0 m Hg H) eq_refl).
Qed.

Lemma parse_as_name lang text :
  function_signature (parse_as lang text) <> "" ->
  word (function_name (parse_as lang text)).
Proof.
  unfold parse_as.
  destruct (String.eqb lang "python").
  { unfold _parse_python.
    destruct (search no_flags py_func_re text) as [m|] eqn:E;
      cbn [function_signature function_name]; [intros _ | congruence].
    exact (found_name py_func_re 1 text m eq_refl eq_refl E). }
  destruct (String.eqb lang "java").
  { unfold _parse_java.
    destruct (search no_flags java_func_re text) as [m|] eqn:E;
      cbn [function_signature function_name]; [intros _ | congruence].
    exact (found_name java_func_re 2 text m eq_refl eq_refl E). }
  destruct (String.eqb lang "cpp").
  { unfold _parse_cpp.
    destruct (search no_flags cpp_func_re text) as [m|] eqn:E;
      cbn [function_signature function_name]; [intros _ | congruence].
    exact (found_name cpp_func_re 2 text m eq_refl eq_refl E). }
  destruct (String.eqb lang "javascript").
  { unfold _parse_javascript, js_func_match.
    destruct (search no_flags js_standard_re text) as [m|] eqn:E1;
      [|destruct (search no_flags js_arrow_re text) as [m|] eqn:E2;
        [|destruct (search no_flags js_method_re text) as [m|] eqn:E3]];
      cbn [function_signature function_name]; try congruence; intros _.
    - exact (found_name js_standard_re 1 text m eq_refl eq_refl E1).
    - exact (found_name js_arrow_re 1 text m eq_refl eq_refl E2).
    - exact (found_name js_method_re 1 text m eq_refl eq_refl E3). }
  unfold _parse_generic.
  destruct (search no_flags generic_func_re text) as [m|] eqn:E;
    cbn [function_signature function_name empty_result];
    [intros _ | congruence].
  exact (found_name generic_func_re 1 text m eq_refl eq_refl E).
Qed.

(** X22: Whenever [parse] finds a function (the signature is not empty),
    ['function_name'] is a non-empty text of word characters, in every
    language branch: the name is always the text of a group [(\w+)] that
    takes part in every match of the function pattern. *)
Theorem function_name_is_a_word :
  forall code_text : string,
    function_signature (info (parse code_text)) <> "" ->
    word (function_name (info (parse code_text))).
Proof.
  intros code_text. unfold parse.
  destruct (truthy code_text); simpl negb; cbv beta iota zeta; cbn [info].
  - apply parse_as_name.
  - unfold empty_result. cbn [function_signature]. congruence.
Qed.

Lemma function_name_is_a_word_witness :
  word (function_name (info (parse "function add(a, b) {"))).
Proof.
  exact (function_name_is_a_word "function add(a, b) {"
           ltac:(vm_compute; discriminate)).
Defined.

Lemma py_param_word token :
  Forall (fun p => word (param_name p)) (py_param token).
Proof.
  unfold py_param.
  destruct (re_match no_flags py_param_re token) as [m|] eqn:E;
    [|constructor].
  constructor; [|constructor]. cbn [param_name].
  exact (matched_name py_param_re 1 token m eq_refl eq_refl E).
Qed.

Lemma java_param_word token :
  Forall (fun p => word (param_name p)) (java_param token).
Proof.
  unfold java_param.
  destruct (re_match no_flags java_param_re token) as [m|] eqn:E;
    [|constructor].
  constructor; [|constructor]. cbn [param_name].
  exact (matched_name java_param_re 2 token m eq_refl eq_refl E).
Qed.

Lemma cpp_param_word token :
  Forall (fun p => word (param_name p)) (cpp_param token).
Proof.
  unfold cpp_param.
  destruct (re_match no_flags cpp_param_re token) as [m|] eqn:E;
    [|constructor].
  constructor; [|constructor]. cbn [param_name].
  exact (matched_name cpp_param_re 2 token m eq_refl eq_refl E).
Qed.

(** X23: Every parameter that the Python, Java and C++ parsers return
    has a name that is a non-empty text of word characters, whatever the
    code text: a piece of the parameter list that the sub-pattern does
    not accept adds no entry, and one that it accepts has its name in a
    group [(\w+)]. *)
Theorem parameter_names_are_words :
  forall code_text : string,
    Forall (fun p => word (param_name p))
           (parameters (_parse_python code_text))
    /\ Forall (fun p => word (param_name p))
              (parameters (_parse_java code_text))
    /\ Forall (fun p => word (param_name p))
              (parameters (_parse_cpp code_text)).
Proof.
  intros code_text. split; [|split].
  - unfold _parse_python.
    destruct (search no_flags py_func_re code_text); cbn [parameters];
      [|constructor].
    apply ParserExtras.split_params_Forall, py_param_word.
  - unfold _parse_java.
    destruct (search no_flags java_func_re code_text); cbn [parameters];
      [|constructor].
    apply ParserExtras.split_params_Forall, java_param_word.
  - unfold _parse_cpp.
    destruct (search no_flags cpp_func_re code_text); cbn [parameters];
      [|constructor].
    apply ParserExtras.split_params_Forall, cpp_param_word.
Qed.

Lemma stripped_group_without (c : ascii) (m : match_obj) (idx : nat) :
  (forall t, group m idx = Some t -> ~ In c (chars t)) ->
  contains (String c "")
    (if group_truthy m idx then strip (group_str m idx) else "") = false.
Proof.
  intros H. unfold group_truthy, group_str.
  destruct (group m idx) as [t|] eqn:E; [|reflexivity].
  destruct (truthy t); [|reflexivity].
  apply ParserExtras.strip_keeps_out. now apply H.
Qed.

Lemma py_param_type token :
  Forall (fun p => contains "=" (param_type p) = false) (py_param token).
Proof.
  unfold py_param.
  destruct (re_match no_flags py_param_re token) as [m|] eqn:E;
    [|constructor].
  constructor; [|constructor]. cbn [param_type].
  apply stripped_group_without. intros t Ht.
  destruct (matched_group_text _ _ 2 _ _ _ E Ht) as (body & [<- | []] & Hm).
  now apply excluded_char in Hm.
Qed.

(** X24: In the result of the Python parser, ['return_type'] contains no
    colon and no parameter type contains an equals sign: the annotation
    groups are [[^:]*] and [[^=]*], so the return type ends before the
    colon that ends the signature and a parameter type before the [=] of
    the default. *)
Theorem python_annotations_stop_at_delimiters :
  forall code_text : string,
    contains ":" (return_type (_parse_python code_text)) = false
    /\ Forall (fun p => contains "=" (param_type p) = false)
              (parameters (_parse_python code_text)).
Proof.
  intros code_text. unfold _parse_python.
  destruct (search no_flags py_func_re code_text) as [m|] eqn:E;
    cbn [return_type parameters]; [|split; [reflexivity | constructor]].
  split.
  - apply stripped_group_without. intros t Ht.
    destruct (group_text _ _ 3 _ _ _ E Ht) as (body & [<- | []] & Hm).
    now apply excluded_char in Hm.
  - apply ParserExtras.split_params_Forall, py_param_type.
Qed.

(** ** Where a signature begins and ends *)

Lemma found_ending r (c : ascii) text m :
  ends_in c r = true ->
  search no_flags r text = Some m ->
  exists body, m_text m = body ++ String c "".
Proof.
  intros He H. apply search_text in H. exact (matches_ends _ c r He _ H).
Qed.

(** X26: A signature that was found is the header up to its closing
    delimiter: the Python signature begins with [def] and ends with the
    colon, the Java and the C++ signature end with the opening brace, and
    the signature of the generic parser ends with the closing
    parenthesis. *)
Theorem signature_ends_at_its_delimiter :
  forall code_text : string,
    (function_signature (_parse_python code_text) <> "" ->
     exists body,
       function_signature (_parse_python code_text) = "def" ++ body ++ ":")
    /\ (function_signature (_parse_java code_text) <> "" ->
        exists body,
          function_signature (_parse_java code_text) = body ++ "{")
    /\ (function_signature (_parse_cpp code_text) <> "" ->
        exists body,
          function_signature (_parse_cpp code_text) = body ++ "{")
    /\ (function_signature (_parse_generic code_text) <> "" ->
        exists body,
          function_signature (_parse_generic code_text) = body ++ ")").
Proof.
  intros code_text. split; [|split; [|split]].
  - unfold _parse_python.
    destruct (search no_flags py_func_re code_text) as [m|] eqn:E;
      cbn [function_signature]; [intros _ | congruence].
    pose proof (search_text _ _ _ _ E) as Hm.
    change py_func_re
      with (Cat (lit "def")
              (seq [plus s; Grp 1 (plus w); star s; Chr "(";
                    Grp 2 (star_lazy Any); Chr ")";
                    opt (seq [star s; lit "->"; star s;
                              Grp 3 (star (Cls true (one_of ":")))]);
                    star s; Chr ":"])) in Hm.
    inversion Hm as [| | | | r1 r2 u1 u2 H1 H2 | | | | | | | |]; subst.
    apply (matches_lit no_flags "def") in H1. subst u1.
    apply (matches_ends _ ":") in H2; [|reflexivity].
    destruct H2 as [body ->]. now exists body.
  - unfold _parse_java.
    destruct (search no_flags java_func_re code_text) as [m|] eqn:E;
      cbn [function_signature]; [intros _ | congruence].
    exact (found_ending java_func_re "{" code_text m eq_refl E).
  - unfold _parse_cpp.
    destruct (search no_flags cpp_func_re code_text) as [m|] eqn:E;
      cbn [function_signature]; [intros _ | congruence].
    exact (found_ending cpp_func_re "{" code_text m eq_refl E).
  - unfold _parse_generic.
    destruct (search no_flags generic_func_re code_text) as [m|] eqn:E;
      cbn [function_signature empty_result]; [intros _ | congruence].
    exact (found_ending generic_func_re ")" code_text m eq_refl E).
Qed.

Lemma signature_ends_at_its_delimiter_witness :
  exists body,
    function_signature
      (_parse_python "class A:  def f(x: int) -> int:  return x")
    = "def" ++ body ++ ":".
Proof.
  exact (proj1 (signature_ends_at_its_delimiter
                  "class A:  def f(x: int) -> int:  return x")
           ltac:(vm_compute; discriminate)).
Defined.

(** ** The return type of the brace languages *)

Lemma found_return_type r text m :
  sets 1 r = true ->
  Forall (fun body => 1 <= min_len body) (bodies_of 1 r) ->
  search no_flags r text = Some m ->
  group_str m 1 <> "".
Proof.
  intros Hs Hb H.
  destruct (search_groups no_flags _ r text m
              (bodies_groups no_flags 1 (bodies_of 1 r) r (incl_refl _)) H)
    as [Hq Hset].
  unfold group_str. destruct (group m 1) as [t|] eqn:E;
    [|now apply Hset in Hs].
  destruct (Hq 1 t E eq_refl) as (body & Hin & Hm).
  rewrite Forall_forall in Hb. apply Hb in Hin.
  apply matches_min_len in Hm.
  destruct t; [simpl in Hm; lia | discriminate].
Qed.

(** X27: Whenever the Java or the C++ parser finds a function, its
    ['return_type'] is not empty: the type group takes part in every
    match and consumes at least one character.  (A constructor, which has
    no return type, is therefore found only with its modifier taken for
    the type.) *)
Theorem brace_languages_always_have_a_return_type :
  forall code_text : string,
    (function_signature (_parse_java code_text) <> "" ->
     return_type (_parse_java code_text) <> "")
    /\ (function_signature (_parse_cpp code_text) <> "" ->
        return_type (_parse_cpp code_text) <> "").
Proof.
  intros code_text. split.
  - unfold _parse_java.
    destruct (search no_flags java_func_re code_text) as [m|] eqn:E;
      cbn [function_signature return_type]; [intros _ | congruence].
    apply (found_return_type java_func_re code_text m eq_refl); [|exact E].
    repeat constructor.
  - unfold _parse_cpp.
    destruct (search no_flags cpp_func_re code_text) as [m|] eqn:E;
      cbn [function_signature return_type]; [intros _ | congruence].
    apply (found_return_type cpp_func_re code_text m eq_refl); [|exact E].
    repeat constructor.
Qed.

Lemma brace_languages_always_have_a_return_type_witness :
  return_type (_parse_java "public Solution() {") <> "".
Proof.
  exact (proj1 (brace_languages_always_have_a_return_type
                  "public Solution() {")
           ltac:(vm_compute; discriminate)).
Defined.

End ParserNames.

(* ================================================================== *)
(** * The fields of an example *)
(* ================================================================== *)

Module ExampleFields.

Import PyStr Re Notions MoreNotions ReFacts TextFacts CaptureFacts.
Import ProblemParser ProblemExtras.

Local Open Scope list_scope.
Local Open Scope string_scope.

Lemma startswith_split (q t : string) :
  startswith q t = true -> exists c, t = q ++ c.
Proof.
  revert t. induction q as [|e q IH]; intros t H; [now exists t|].
  destruct t as [|d t]; [discriminate H|].
  change (Ascii.eqb e d && startswith q t = true) in H.
  apply andb_prop in H. destruct H as [He H].
  apply Ascii.eqb_eq in He. subst d.
  destruct (IH t H) as [c ->]. now exists c.
Qed.

Lemma startswith_self (q c : string) : startswith q (q ++ c) = true.
Proof.
  induction q as [|e q IH]; [reflexivity|].
  change (Ascii.eqb e e && startswith q (q ++ c) = true).
  now rewrite Ascii.eqb_refl, IH.
Qed.

Lemma contains_split (q t : string) :
  contains q t = true -> exists a c, t = a ++ q ++ c.
Proof.
  induction t as [|d t IH]; intros H.
  - simpl in H. rewrite orb_false_r in H.
    apply startswith_split in H. destruct H as [c H]. now exists "", c.
  - change (startswith q (String d t) || contains q t = true) in H.
    apply orb_true_iff in H. destruct H as [H | H].
    + apply startswith_split in H. destruct H as [c H]. now exists "", c.
    + destruct (IH H) as (a & c & ->). now exists (String d a), c.
Qed.

(** A lazy loop over any character stops at the first position where
    its continuation answers. *)
Lemma lazy_stops_first (D : string -> bool) (K : cont) :
  (forall st, D (rest st) = true -> K st <> None) ->
  forall fuel st x,
    rep_loop (run dotall Any) true fuel 0 None st K = Some x ->
    exists u b,
      rest st = u ++ rest b /\ K b = Some x /\ caps b = caps st
      /\ (forall a c, u = a ++ c -> c <> "" -> D (c ++ rest b) = false).
Proof.
  intros HD. induction fuel as [|fuel IH]; intros st x H.
  - simpl in H. exists "", st. repeat split; try assumption.
    intros [|e a] c Hu Hc; [simpl in Hu; congruence | discriminate Hu].
  - rewrite rep_loop_S in H. apply or_else_Some in H.
    destruct H as [H | [Hnone H]].
    + exists "", st. repeat split; try assumption.
      intros [|e a] c Hu Hc; [simpl in Hu; congruence | discriminate Hu].
    + assert (Hhere : D (rest st) = false).
      { destruct (D (rest st)) eqn:E; [|reflexivity].
        now apply HD in E. }
      unfold rep_again in H. cbn [run] in H. unfold eat in H.
      destruct (rest st) as [|e t] eqn:Hr; [discriminate H|].
      cbn [DOTALL dotall orb rest String.length Nat.pred option_map] in H.
      destruct (Nat.ltb (String.length t) (S (String.length t)));
        [|discriminate H].
      apply IH in H. destruct H as (u & b & Hu & Hk & Hc & Hfirst).
      cbn [rest caps] in Hu, Hc.
      exists (String e u), b. repeat split; try assumption.
      * simpl. now rewrite Hu.
      * intros [|e' a] c Hsplit Hne.
        -- simpl in Hsplit. subst c. simpl. now rewrite <- Hu.
        -- injection Hsplit as _ Hsplit. now apply (Hfirst a c).
Qed.

Lemma lit_groups fl (Q : nat -> string -> Prop) (lead : string) :
  groups_ok fl Q (lit lead).
Proof.
  induction lead as [|c lead IH]; [exact I|].
  destruct lead as [|d lead]; [exact I|].
  change (lit (String c (String d lead)))
    with (Cat (Chr c) (lit (String d lead))).
  split; [exact I | exact IH].
Qed.

Lemma next_label_answers (next : string) st :
  startswith next (rest st) = true ->
  run dotall (Ahead (alt [lit next; Eol])) st Some <> None.
Proof.
  intros H. change (alt [lit next; Eol]) with (Alt (lit next) Eol).
  cbn [run].
  destruct (run_lit_answers dotall next Some (fun st' => ex_intro _ st' eq_refl)
              st H) as [x ->].
  discriminate.
Qed.

Lemma next_label_caps (next : string) st x :
  run dotall (Ahead (alt [lit next; Eol])) st Some = Some x ->
  caps x = caps st.
Proof.
  intros H.
  assert (Hg : groups_ok dotall no_capture (Ahead (alt [lit next; Eol])))
    by (change (alt [lit next; Eol]) with (Alt (lit next) Eol);
        split; [apply lit_groups | exact I]).
  apply (run_sound dotall no_capture _ Hg) in H.
  destruct H as (b & [= ->] & u & new & _ & _ & Hc & Hnew & _).
  destruct new as [|c new]; [exact Hc|].
  inversion Hnew as [|? ? Hfalse _]. contradiction Hfalse.
Qed.

(** The field of a labelled pattern does not contain the next label. *)
Lemma labelled_field (label next : string) p text pos m :
  next <> "" ->
  match_at dotall (labelled label next) p text pos = Some m ->
  contains next (group_str m 1) = false.
Proof.
  intros Hnext. unfold match_at.
  destruct (run dotall (labelled label next) (MState p text []) Some)
    as [x|] eqn:H; [|discriminate].
  intros [= <-]. unfold group_str, group. cbn [m_caps].
  change (labelled label next)
    with (Cat (lit label)
            (Cat (opt (Chr ":"))
               (Cat (star s)
                  (Cat (Grp 1 (star_lazy Any))
                     (Ahead (alt [lit next; Eol])))))) in H.
  rewrite run_Cat in H. apply run_reaches in H. destruct H as (b1 & _ & H & _).
  rewrite run_Cat in H. apply run_reaches in H. destruct H as (b2 & _ & H & _).
  rewrite run_Cat in H. apply run_reaches in H. destruct H as (b3 & _ & H & _).
  rewrite run_Cat, run_Grp in H. unfold star_lazy in H. rewrite run_Rep in H.
  apply (lazy_stops_first (startswith next)) in H.
  - destruct H as (u & b & Hu & Hk & _ & Hfirst).
    apply next_label_caps in Hk. cbn [caps] in Hk. rewrite Hk.
    simpl lookup. rewrite (consumed_append b3 b u Hu).
    destruct (contains next u) eqn:E; [|reflexivity].
    apply contains_split in E. destruct E as (a & c & ->).
    specialize (Hfirst a (next ++ c) eq_refl).
    rewrite append_assoc, startswith_self in Hfirst.
    assert (next ++ c <> "") by (destruct next; [congruence | discriminate]).
    now apply Hfirst.
  - intros st Hst. now apply next_label_answers.
Qed.

Lemma labelled_search (label next text : string) m :
  next <> "" ->
  search dotall (labelled label next) text = Some m ->
  contains next (group_str m 1) = false.
Proof.
  intros Hnext. unfold search. generalize (@None ascii) at 1.
  generalize 0 at 1.
  induction text as [|c text IH]; intros pos p; simpl search_from.
  - destruct (match_at dotall (labelled label next) p "" pos) as [m'|] eqn:H;
      [|discriminate].
    intros [= <-]. now apply labelled_field in H.
  - destruct (match_at dotall (labelled label next) p (String c text) pos)
      as [m'|] eqn:H.
    + intros [= <-]. now apply labelled_field in H.
    + apply IH.
Qed.

Lemma labelled_clean (label next text : string) :
  next <> "" -> contains next (field (labelled label next) text) = false.
Proof.
  intros Hnext. unfold field.
  destruct (search dotall (labelled label next) text) as [m|] eqn:E.
  - apply strip_keeps_free. now apply labelled_search in E.
  - destruct next; [congruence | reflexivity].
Qed.

(** X25: The fields of an example do not run into the next label: the
    ['input'] of an example never contains the word [Output] and its
    ['output'] never contains the word [Explanation], because the lazy
    field stops at the first place where the next label begins. *)
Theorem example_fields_stop_at_the_next_label :
  forall text : string,
    Forall (fun e => contains "Output" (input e) = false
                     /\ contains "Explanation" (output e) = false)
           (examples (parse text)).
Proof.
  intros text. unfold parse.
  destruct (truthy text); simpl negb; cbv beta iota zeta; cbn [examples];
    [|constructor].
  unfold _extract_examples. apply Forall_map, Forall_forall.
  intros m _. unfold example_of. cbn [input output]. split.
  - apply (labelled_clean "Input" "Output"). discriminate.
  - apply (labelled_clean "Output" "Explanation"). discriminate.
Qed.

End ExampleFields.

(* ================================================================== *)
(** * One parameter for each parameter written *)
(* ================================================================== *)

Module ParameterFacts.

Import PyStr Re CodeParser Notions MoreNotions ReFacts TextFacts.

Local Open Scope list_scope.
Local Open Scope string_scope.

(** ** Written parameters without an entry *)


(** ** When the sub-pattern matches *)





(** ** The loop on parameters that all give an entry *)





End ParameterFacts.
